(** * SpotifyModal: the state-reconciliation core of [src/utils.ts]

    A shallow embedding of [EventEmitter], the resolvers
    ([getSpotifyAccount], [getSpotifySocket], [getAllSpotifySockets]), the
    remote controls ([sendSpotifyAPI], [SpotifyControls]), [SpotifyWatcher]
    and the static functions of [SpotifyModal] ([parseArtists],
    [parseTime]); the properties of the specification checked against it,
    and further properties of the code.

    Conventions of the embedding.
    - A JavaScript value is a [value]; [JSON.parse] is the decoder
      [JSON_parse], [None] standing for the [SyntaxError] it throws.
    - Arguments have the types the TypeScript signatures declare: an
      account id is a string, an event name is a string, a registered
      callback is a function.
    - A method is a computation [M A] over a [World]: the fields of the
      watcher, the host snapshot it reads, the listeners attached to the
      connections, and a chronological [trace] of what an observer sees
      (log lines, emissions, calls of registered functions, calls made on
      the host dispatch bus, rejections nobody handles).  A computation
      returns or throws, and a throw keeps the effects made before it.
    - [_events] is modelled by its own properties: event names that are
      members of [Object.prototype] ([toString], [constructor], ...) are
      outside the model, see [ordinary]; so are account ids of those
      names where the code looks an id up in the host registry.  The
      objects the watcher builds from [{}] itself, [#sockets] and
      [#socketsPongHandlers], are modelled with the members they inherit,
      see [in_object] and [addPongEvent].
    - An [await] resumes at once: host lookups read the snapshot held in
      the world.  A promise nobody awaits keeps its rejection to itself
      ([detached]); the readiness handler calls [addPongEvent] without
      awaiting it and goes on, so there the order matters ([unawaited]).
    - The host's [subscribe], [unsubscribe], [addEventListener] and
      [removeEventListener] do not throw. *)

From Stdlib Require Import ZArith String Ascii List Bool Lia DecimalString.
From stdpp Require Import gmap strings.
Import ListNotations.
Local Open Scope string_scope.
Local Open Scope list_scope.
Set Warnings "-register-all".

(** ** JavaScript values *)

(** A connection object, known by its identity. *)
Definition WebSocket := nat.

(** [VNum m e] is the number [m * 10^e]: numbers are kept exact, the
    rounding of IEEE doubles is not modelled. *)
Inductive value : Type :=
  | VUndefined
  | VNull
  | VBool (b : bool)
  | VNum (m e : Z)
  | VStr (s : string)
  | VArr (items : list value)
  | VObj (members : list (string * value))
  | VSocket (ws : WebSocket).

(** ToBoolean. *)
Definition truthy (v : value) : bool :=
  match v with
  | VUndefined | VNull => false
  | VBool b => b
  | VNum m _ => negb (m =? 0)%Z
  | VStr s => negb (String.eqb s "")
  | VArr _ | VObj _ | VSocket _ => true
  end.

(** [v === "lit"] against a string literal. *)
Definition is_string (lit : string) (v : value) : bool :=
  match v with
  | VStr s => String.eqb s lit
  | _ => false
  end.

(** The last binding of [key] wins, as in an object built by [JSON.parse]. *)
Fixpoint lookup_last (key : string) (ms : list (string * value)) : option value :=
  match ms with
  | [] => None
  | (k, v) :: rest =>
      match lookup_last key rest with
      | Some later => Some later
      | None => if String.eqb k key then Some v else None
      end
  end.

Definition digit_of (c : ascii) : option nat :=
  let n := nat_of_ascii c in
  if (48 <=? n)%nat && (n <=? 57)%nat then Some (n - 48)%nat else None.

Fixpoint digits_value (acc : nat) (cs : list ascii) : option nat :=
  match cs with
  | [] => Some acc
  | c :: rest =>
      match digit_of c with
      | Some d => digits_value (10 * acc + d)%nat rest
      | None => None
      end
  end.

(** A property key that is a canonical array index: [0], [1], ..., with no
    leading zero. *)
Definition array_index (key : string) : option nat :=
  match list_ascii_of_string key with
  | [] => None
  | [c] => digit_of c
  | c :: rest => if Ascii.eqb c "0" then None else digits_value 0 (c :: rest)
  end.

(** [v[key]] and [v.key].  [None] is the [TypeError] of reading a property
    of [undefined] or [null]; a missing property reads [undefined].  None of
    the keys the watcher reads is inherited from a prototype. *)
Definition get (v : value) (key : string) : option value :=
  match v with
  | VUndefined | VNull => None
  | VObj ms => Some (default VUndefined (lookup_last key ms))
  | VArr items =>
      match array_index key with
      | Some i => Some (nth i items VUndefined)
      | None =>
          if String.eqb key "length" then Some (VNum (Z.of_nat (length items)) 0)
          else Some VUndefined
      end
  | VStr s =>
      match array_index key with
      | Some i =>
          Some (match String.get i s with
                | Some c => VStr (String c EmptyString)
                | None => VUndefined
                end)
      | None =>
          if String.eqb key "length" then Some (VNum (Z.of_nat (String.length s)) 0)
          else Some VUndefined
      end
  | VBool _ | VNum _ _ | VSocket _ => Some VUndefined
  end.

(** [v?.key]: [undefined] instead of a [TypeError]. *)
Definition get_opt (v : value) (key : string) : value :=
  default VUndefined (get v key).

(** ** JSON.parse

    A reference decoder for the JSON grammar (RFC 8259), on the bytes of the
    text.  The recursion on nested values is bounded by the length of the
    text, which every nested value shortens. *)

Definition quote : ascii := "034".
Definition backslash : ascii := "092".

Definition is_ws (c : ascii) : bool :=
  let n := nat_of_ascii c in
  (n =? 32)%nat || (n =? 9)%nat || (n =? 10)%nat || (n =? 13)%nat.

Fixpoint skip_ws (cs : list ascii) : list ascii :=
  match cs with
  | c :: rest => if is_ws c then skip_ws rest else cs
  | [] => []
  end.

Definition hex_of (c : ascii) : option nat :=
  let n := nat_of_ascii c in
  if (48 <=? n)%nat && (n <=? 57)%nat then Some (n - 48)%nat
  else if (65 <=? n)%nat && (n <=? 70)%nat then Some (n - 55)%nat
  else if (97 <=? n)%nat && (n <=? 102)%nat then Some (n - 87)%nat
  else None.

(** The UTF-8 bytes of a code unit below 2^16. *)
Definition utf8 (u : nat) : list ascii :=
  if (u <? 128)%nat then [ascii_of_nat u]
  else if (u <? 2048)%nat then
    [ascii_of_nat (192 + u / 64); ascii_of_nat (128 + u mod 64)]
  else
    [ascii_of_nat (224 + u / 4096); ascii_of_nat (128 + (u / 64) mod 64);
     ascii_of_nat (128 + u mod 64)].

(** The characters after an opening quote, up to the closing one. *)
Fixpoint parse_chars (fuel : nat) (cs : list ascii) : option (list ascii * list ascii) :=
  match fuel with
  | O => None
  | S fuel' =>
      match cs with
      | [] => None
      | c :: rest =>
          if Ascii.eqb c quote then Some ([], rest)
          else if Ascii.eqb c backslash then
            match rest with
            | e :: rest' =>
                let simple (out : ascii) :=
                  match parse_chars fuel' rest' with
                  | Some (s, r) => Some (out :: s, r)
                  | None => None
                  end in
                if Ascii.eqb e quote then simple quote
                else if Ascii.eqb e backslash then simple backslash
                else if Ascii.eqb e "/" then simple "/"%char
                else if Ascii.eqb e "b" then simple "008"%char
                else if Ascii.eqb e "f" then simple "012"%char
                else if Ascii.eqb e "n" then simple "010"%char
                else if Ascii.eqb e "r" then simple "013"%char
                else if Ascii.eqb e "t" then simple "009"%char
                else if Ascii.eqb e "u" then
                  match rest' with
                  | h1 :: h2 :: h3 :: h4 :: rest'' =>
                      match hex_of h1, hex_of h2, hex_of h3, hex_of h4 with
                      | Some a, Some b, Some c', Some d =>
                          match parse_chars fuel' rest'' with
                          | Some (s, r) =>
                              Some (utf8 (4096 * a + 256 * b + 16 * c' + d) ++ s, r)
                          | None => None
                          end
                      | _, _, _, _ => None
                      end
                  | _ => None
                  end
                else None
            | [] => None
            end
          else if (nat_of_ascii c <? 32)%nat then None
          else
            match parse_chars fuel' rest with
            | Some (s, r) => Some (c :: s, r)
            | None => None
            end
      end
  end.

(** A maximal run of digits: its value, its length, and the rest. *)
Fixpoint parse_digits (cs : list ascii) (acc : Z) (len : nat) : Z * nat * list ascii :=
  match cs with
  | c :: rest =>
      match digit_of c with
      | Some d => parse_digits rest (10 * acc + Z.of_nat d)%Z (S len)
      | None => (acc, len, cs)
      end
  | [] => (acc, len, [])
  end.

(** [-? int frac? exp?] with [int] free of leading zeros. *)
Definition parse_number (cs : list ascii) : option (value * list ascii) :=
  let '(neg, cs1) :=
    match cs with
    | c :: rest => if Ascii.eqb c "-" then (true, rest) else (false, cs)
    | [] => (false, cs)
    end in
  let '(int, ilen, cs2) := parse_digits cs1 0%Z 0%nat in
  let leading_zero :=
    match cs1 with
    | c :: _ => Ascii.eqb c "0" && (1 <? ilen)%nat
    | [] => false
    end in
  if (ilen =? 0)%nat || leading_zero then None
  else
    let frac :=
      match cs2 with
      | c :: rest =>
          if Ascii.eqb c "." then
            let '(m, flen, cs3) := parse_digits rest int 0%nat in
            if (flen =? 0)%nat then None else Some (m, flen, cs3)
          else Some (int, 0%nat, cs2)
      | [] => Some (int, 0%nat, cs2)
      end in
    match frac with
    | None => None
    | Some (mant, flen, cs3) =>
        let signed := if neg then (- mant)%Z else mant in
        let plain := Some (VNum signed (- Z.of_nat flen), cs3) in
        match cs3 with
        | c :: rest =>
            if Ascii.eqb c "e" || Ascii.eqb c "E" then
              let '(eneg, cs4) :=
                match rest with
                | s :: rest' =>
                    if Ascii.eqb s "-" then (true, rest')
                    else if Ascii.eqb s "+" then (false, rest')
                    else (false, rest)
                | [] => (false, rest)
                end in
              let '(ex, elen, cs5) := parse_digits cs4 0%Z 0%nat in
              if (elen =? 0)%nat then None
              else Some (VNum signed ((if eneg then - ex else ex) - Z.of_nat flen), cs5)
            else plain
        | [] => plain
        end
    end.

Fixpoint strip_prefix (lit cs : list ascii) : option (list ascii) :=
  match lit, cs with
  | [], _ => Some cs
  | l :: lit', c :: cs' => if Ascii.eqb l c then strip_prefix lit' cs' else None
  | _ :: _, [] => None
  end.

Definition parse_literal (lit : string) (v : value) (cs : list ascii) :
    option (value * list ascii) :=
  match strip_prefix (list_ascii_of_string lit) cs with
  | Some rest => Some (v, rest)
  | None => None
  end.

(** [parse_value] reads one value; [parse_elements] the rest of an array
    after its bracket or a comma; [parse_members] the rest of an object. *)
Fixpoint parse_value (fuel : nat) (cs : list ascii) : option (value * list ascii) :=
  match fuel with
  | O => None
  | S fuel' =>
      match skip_ws cs with
      | [] => None
      | c :: rest =>
          if Ascii.eqb c "{" then
            match skip_ws rest with
            | c' :: rest' =>
                if Ascii.eqb c' "}" then Some (VObj [], rest')
                else
                  match parse_members fuel' (c' :: rest') with
                  | Some (ms, r) => Some (VObj ms, r)
                  | None => None
                  end
            | [] => None
            end
          else if Ascii.eqb c "[" then
            match skip_ws rest with
            | c' :: rest' =>
                if Ascii.eqb c' "]" then Some (VArr [], rest')
                else
                  match parse_elements fuel' (c' :: rest') with
                  | Some (vs, r) => Some (VArr vs, r)
                  | None => None
                  end
            | [] => None
            end
          else if Ascii.eqb c quote then
            match parse_chars (S (length rest)) rest with
            | Some (s, r) => Some (VStr (string_of_list_ascii s), r)
            | None => None
            end
          else if Ascii.eqb c "t" then parse_literal "true" (VBool true) (c :: rest)
          else if Ascii.eqb c "f" then parse_literal "false" (VBool false) (c :: rest)
          else if Ascii.eqb c "n" then parse_literal "null" VNull (c :: rest)
          else parse_number (c :: rest)
      end
  end
with parse_elements (fuel : nat) (cs : list ascii) : option (list value * list ascii) :=
  match fuel with
  | O => None
  | S fuel' =>
      match parse_value fuel' cs with
      | Some (v, r) =>
          match skip_ws r with
          | c :: rest =>
              if Ascii.eqb c "]" then Some ([v], rest)
              else if Ascii.eqb c "," then
                match parse_elements fuel' rest with
                | Some (vs, r') => Some (v :: vs, r')
                | None => None
                end
              else None
          | [] => None
          end
      | None => None
      end
  end
with parse_members (fuel : nat) (cs : list ascii) :
    option (list (string * value) * list ascii) :=
  match fuel with
  | O => None
  | S fuel' =>
      match skip_ws cs with
      | q :: rest =>
          if Ascii.eqb q quote then
            match parse_chars (S (length rest)) rest with
            | Some (k, r) =>
                match skip_ws r with
                | colon :: r1 =>
                    if Ascii.eqb colon ":" then
                      match parse_value fuel' r1 with
                      | Some (v, r2) =>
                          match skip_ws r2 with
                          | c :: r3 =>
                              if Ascii.eqb c "}" then
                                Some ([(string_of_list_ascii k, v)], r3)
                              else if Ascii.eqb c "," then
                                match parse_members fuel' r3 with
                                | Some (ms, r4) =>
                                    Some ((string_of_list_ascii k, v) :: ms, r4)
                                | None => None
                                end
                              else None
                          | [] => None
                          end
                      | None => None
                      end
                    else None
                | [] => None
                end
            | None => None
            end
          else None
      | [] => None
      end
  end.

(** [JSON.parse(text)]; [None] when it throws [SyntaxError]. *)
Definition JSON_parse (text : string) : option value :=
  let cs := list_ascii_of_string text in
  match parse_value (2 * S (length cs)) cs with
  | Some (v, rest) =>
      match skip_ws rest with
      | [] => Some v
      | _ :: _ => None
      end
  | None => None
  end.

(** The texts of the examples are written with ['] for the double quote. *)
Definition js (text : string) : string :=
  string_of_list_ascii
    (map (fun c => if Ascii.eqb c "'" then quote else c) (list_ascii_of_string text)).

(** ** The world of a watcher *)

(** A function registered on the emitter: a consumer's callback, which
    returns or throws when called and does not call back into the watcher,
    or the arrow function that a call of [load] creates and registers for
    [pong].  Functions are told apart by [id] and [serial]. *)
Inductive Callback : Type :=
  | Subscriber (id : nat) (raises : bool)
  | PongRelay (serial : nat).

(** What [_events[name]] holds: one function, or a [Set] of functions in
    insertion order. *)
Inductive Listeners : Type :=
  | Single (f : Callback)
  | Many (fs : list Callback).

(** The [message] listeners the watcher attaches to a connection: the
    member [handlers.SPOTIFY_WEBSOCKET_MESSAGE], and the closure that
    [addPongEvent] creates for an account. *)
Inductive SocketListener : Type :=
  | hSPOTIFY_WEBSOCKET_MESSAGE
  | hPong (accountId : string) (serial : nat).

(** The members of [handlers] subscribed on the host dispatch bus. *)
Inductive FluxHandler : Type :=
  | hSPOTIFY_UPDATE
  | hREGISTER_PONG_EVENT.

(** Where [registerFlux] finds the dispatch bus. *)
Inductive Dispatcher : Type :=
  | CommonFlux
  | WebpackFlux.

Inductive Exn : Type :=
  | SyntaxError
  | TypeError
  | RangeError
  | Raised (id : nat).

Inductive Level : Type :=
  | Warn
  | Error.

Inductive Event : Type :=
  | Logged (level : Level) (origin message : string)
  | Emitted (name : string) (args : list value)
  | Invoked (f : Callback) (args : list value)
  | Subscribed (d : Dispatcher) (event : string) (h : FluxHandler)
  | Unsubscribed (d : Dispatcher) (event : string) (h : FluxHandler)
  | Rejected (e : Exn).

#[global] Instance Callback_eq_dec : EqDecision Callback.
Proof. solve_decision. Defined.

#[global] Instance SocketListener_eq_dec : EqDecision SocketListener.
Proof. solve_decision. Defined.

Module Account.
(** An entry of the host's registry, and the [socket] member of what
    [getActiveSocketAndDevice] returns. *)
Record t : Type := mk {
  accountId : string;
  accessToken : string;
  socket : WebSocket
}.
End Account.

Module Store.
(** The host module owning [getActiveSocketAndDevice]; [accounts] is
    [__getLocalVars().accounts] in the order [Object.values] lists it. *)
Record t : Type := mk {
  getActiveSocketAndDevice : option Account.t;
  accounts : list (string * Account.t)
}.
End Store.

Module Host.
(** What the host offers when asked: [store] is what
    [webpack.waitForModule] resolves to, [common_fluxDispatcher] tells
    whether [common.fluxDispatcher] is set and [webpack_fluxDispatcher]
    whether the module lookup finds a bus. *)
Record t : Type := mk {
  store : option Store.t;
  common_fluxDispatcher : bool;
  webpack_fluxDispatcher : bool
}.
End Host.

Module Socket.
(** The shape of [#socket] and of what the [socket] getter returns. *)
Record t : Type := mk {
  accountId : string;
  ws : option WebSocket
}.
End Socket.

Module Priv.
(** The private fields of [SpotifyWatcher]. *)
Record t : Type := mk {
  accountId : string;
  dispatcher : option Dispatcher;
  devices : value;
  state : value;
  sockets : option (list (string * WebSocket));
  socketsPongHandlers : gmap string SocketListener;
  socket : Socket.t;
  registered : bool;
  pongListenerRegistered : bool
}.

Definition set_accountId (x : string) (p : t) : t :=
  mk x (dispatcher p) (devices p) (state p) (sockets p)
     (socketsPongHandlers p) (socket p) (registered p) (pongListenerRegistered p).
Definition set_dispatcher (x : option Dispatcher) (p : t) : t :=
  mk (accountId p) x (devices p) (state p) (sockets p)
     (socketsPongHandlers p) (socket p) (registered p) (pongListenerRegistered p).
Definition set_devices (x : value) (p : t) : t :=
  mk (accountId p) (dispatcher p) x (state p) (sockets p)
     (socketsPongHandlers p) (socket p) (registered p) (pongListenerRegistered p).
Definition set_state (x : value) (p : t) : t :=
  mk (accountId p) (dispatcher p) (devices p) x (sockets p)
     (socketsPongHandlers p) (socket p) (registered p) (pongListenerRegistered p).
Definition set_sockets (x : option (list (string * WebSocket))) (p : t) : t :=
  mk (accountId p) (dispatcher p) (devices p) (state p) x
     (socketsPongHandlers p) (socket p) (registered p) (pongListenerRegistered p).
Definition set_socketsPongHandlers (x : gmap string SocketListener) (p : t) : t :=
  mk (accountId p) (dispatcher p) (devices p) (state p) (sockets p)
     x (socket p) (registered p) (pongListenerRegistered p).
Definition set_registered (x : bool) (p : t) : t :=
  mk (accountId p) (dispatcher p) (devices p) (state p) (sockets p)
     (socketsPongHandlers p) (socket p) x (pongListenerRegistered p).
Definition set_pongListenerRegistered (x : bool) (p : t) : t :=
  mk (accountId p) (dispatcher p) (devices p) (state p) (sockets p)
     (socketsPongHandlers p) (socket p) (registered p) x.
End Priv.

(** [_events] and the private fields make the watcher object; [host] is the
    environment it reads; [listeners] are the [message] listeners attached
    to connections, in the order they were added; [closures] counts the
    closures created so far and numbers the next one; [trace] is what
    happened, oldest first. *)
Record World : Type := mkWorld {
  _events : gmap string Listeners;
  this : Priv.t;
  host : Host.t;
  listeners : list (WebSocket * SocketListener);
  closures : nat;
  trace : list Event
}.

Definition set_events (x : gmap string Listeners) (w : World) : World :=
  mkWorld x (this w) (host w) (listeners w) (closures w) (trace w).
Definition set_this (x : Priv.t) (w : World) : World :=
  mkWorld (_events w) x (host w) (listeners w) (closures w) (trace w).
Definition set_host (x : Host.t) (w : World) : World :=
  mkWorld (_events w) (this w) x (listeners w) (closures w) (trace w).
Definition set_listeners (x : list (WebSocket * SocketListener)) (w : World) : World :=
  mkWorld (_events w) (this w) (host w) x (closures w) (trace w).
Definition set_closures (x : nat) (w : World) : World :=
  mkWorld (_events w) (this w) (host w) (listeners w) x (trace w).
Definition record (e : Event) (w : World) : World :=
  mkWorld (_events w) (this w) (host w) (listeners w) (closures w) (trace w ++ [e]).

(** ** Computations that return or throw *)

Inductive Outcome (A : Type) : Type :=
  | Returned (a : A) (w : World)
  | Thrown (e : Exn) (w : World).
Arguments Returned {A} a w.
Arguments Thrown {A} e w.

Definition M (A : Type) : Type := World -> Outcome A.

Definition world_of {A : Type} (o : Outcome A) : World :=
  match o with
  | Returned _ w => w
  | Thrown _ w => w
  end.

Definition returns {A : Type} (o : Outcome A) : bool :=
  match o with
  | Returned _ _ => true
  | Thrown _ _ => false
  end.

Definition ret {A : Type} (a : A) : M A := fun w => Returned a w.

Definition bind {A B : Type} (m : M A) (k : A -> M B) : M B :=
  fun w =>
    match m w with
    | Returned a w' => k a w'
    | Thrown e w' => Thrown e w'
    end.

Definition throw {A : Type} (e : Exn) : M A := fun w => Thrown e w.
Definition gets {A : Type} (f : World -> A) : M A := fun w => Returned (f w) w.
Definition modify (f : World -> World) : M unit := fun w => Returned tt (f w).

Declare Scope js_scope.
Delimit Scope js_scope with js.
Notation "x <- m ;; k" := (bind m (fun x => k))
  (at level 100, m at next level, right associativity) : js_scope.
Notation "m ;; k" := (bind m (fun _ => k))
  (at level 100, right associativity) : js_scope.
Local Open Scope js_scope.

(** [l.forEach(f)], and [Object.entries(o).forEach(f)] on an object listed
    as [l]. *)
Fixpoint forEach {A : Type} (l : list A) (f : A -> M unit) : M unit :=
  match l with
  | [] => ret tt
  | x :: rest => f x ;; forEach rest f
  end.

(** A call of an [async] method whose promise is dropped: a rejection does
    not reach the caller. *)
Definition detached (m : M unit) : M unit :=
  fun w =>
    match m w with
    | Returned _ w' => Returned tt w'
    | Thrown e w' => Returned tt (record (Rejected e) w')
    end.

(** A call of an [async] method that is not awaited, with the rest of the
    caller: a method that starts with an [await] does nothing before it
    suspends there, so the rest of the caller runs first, and the method
    runs when the caller has returned or thrown; its rejection reaches
    nobody. *)
Definition unawaited (m : M unit) (rest : M unit) : M unit :=
  fun w =>
    match rest w with
    | Returned _ w' => detached m w'
    | Thrown e w' => Thrown e (world_of (detached m w'))
    end.

Definition modify_this (f : Priv.t -> Priv.t) : M unit :=
  modify (fun w => set_this (f (this w)) w).

Definition log_warn (origin message : string) : M unit :=
  modify (record (Logged Warn origin message)).
Definition log_error (origin message : string) : M unit :=
  modify (record (Logged Error origin message)).

(** [socket.addEventListener("message", h)]: a listener already attached is
    not added again. *)
Definition addEventListener (ws : WebSocket) (h : SocketListener) : M unit :=
  modify (fun w =>
    if decide ((ws, h) ∈ listeners w) then w
    else set_listeners (listeners w ++ [(ws, h)]) w).

(** [socket.removeEventListener("message", h)]. *)
Definition removeEventListener (ws : WebSocket) (h : SocketListener) : M unit :=
  modify (fun w =>
    set_listeners (filter (fun l => l ≠ (ws, h)) (listeners w)) w).

(** [this.dispatcher.subscribe(event, h)]: a [TypeError] when no bus was
    found. *)
Definition dispatcher_subscribe (event : string) (h : FluxHandler) : M unit :=
  d <- gets (fun w => Priv.dispatcher (this w)) ;;
  match d with
  | Some bus => modify (record (Subscribed bus event h))
  | None => throw TypeError
  end.

Definition dispatcher_unsubscribe (event : string) (h : FluxHandler) : M unit :=
  d <- gets (fun w => Priv.dispatcher (this w)) ;;
  match d with
  | Some bus => modify (record (Unsubscribed bus event h))
  | None => throw TypeError
  end.

(** ** The socket resolver *)

(** The property key of [accountId in accounts]: [undefined] reads as the
    key of that name. *)
Definition property_key (accountId : option string) : string :=
  default "undefined" accountId.

Fixpoint own (key : string) (accounts : list (string * Account.t)) : option Account.t :=
  match accounts with
  | [] => None
  | (k, a) :: rest => if String.eqb k key then Some a else own key rest
  end.

Definition getSpotifySocket (accountId : option string) (store : option Store.t) :
    option WebSocket :=
  match store with
  | None => None
  | Some store =>
      (* Method I: Get from .getActiveSocketAndDevice *)
      let activeSocketAndDevice := Store.getActiveSocketAndDevice store in
      let matching :=
        match activeSocketAndDevice with
        | Some active =>
            if bool_decide (Some (Account.accountId active) = accountId)
            then Some (Account.socket active)
            else None
        | None => None
        end in
      match matching with
      | Some socket => Some socket
      | None =>
          (* Method II: Get from .__getLocalVars().accounts[accountId] *)
          let accounts := Store.accounts store in
          match own (property_key accountId) accounts with
          | Some account => Some (Account.socket account)
          | None =>
              (* Method III: Get without accountId *)
              let activeSocketAndDevice := Store.getActiveSocketAndDevice store in
              match activeSocketAndDevice with
              | Some active => Some (Account.socket active)
              | None =>
                  match accounts with
                  | (_, first) :: _ => Some (Account.socket first)
                  | [] => None
                  end
              end
          end
      end
  end.

Definition getAllSpotifySockets (store : option Store.t) :
    option (list (string * WebSocket)) :=
  match store with
  | None => None
  | Some store =>
      let accounts := Store.accounts store in
      match accounts with
      | [] => None
      | _ :: _ => Some (map (fun '(accountId, socket) => (accountId, Account.socket socket)) accounts)
      end
  end.

(** ** EventEmitter and SpotifyWatcher *)

(** The members of [Object.prototype], which an empty [_events] inherits:
    the model of [_events] holds for every other name. *)
Definition Object_prototype : list string :=
  ["constructor"; "hasOwnProperty"; "isPrototypeOf"; "propertyIsEnumerable";
   "toLocaleString"; "toString"; "valueOf"; "__proto__"; "__defineGetter__";
   "__defineSetter__"; "__lookupGetter__"; "__lookupSetter__"].

Definition ordinary (name : string) : bool :=
  negb (existsb (String.eqb name) Object_prototype).

(** [key in o] for an object [o] that the code builds from [{}], listed by
    its own properties: a member of [Object.prototype] is in it as well. *)
Definition in_object {A : Type} (key : string) (o : list (string * A)) : bool :=
  existsb (fun entry => String.eqb (fst entry) key) o || negb (ordinary key).

(** [new Set([f]).add(g)] and [s.add(g)]. *)
Definition Set_add (g : Callback) (fs : list Callback) : list Callback :=
  if decide (g ∈ fs) then fs else fs ++ [g].

(** The constructor's assignments. *)
Definition new_SpotifyWatcher : Priv.t :=
  Priv.mk "" None VUndefined VUndefined None ∅ (Socket.mk "" None) false false.

Definition new_World (h : Host.t) : World :=
  mkWorld ∅ new_SpotifyWatcher h [] 0 [].

(** [get state], [get devices], [get registered], [get accountId],
    [get socket]. *)
Definition state (w : World) : value :=
  match Priv.state (this w) with
  | VUndefined | VNull => VObj []
  | s => s
  end.

Definition devices (w : World) : value :=
  match Priv.devices (this w) with
  | VUndefined | VNull => VArr []
  | d => d
  end.

Definition registered (w : World) : bool := Priv.registered (this w).
Definition accountId (w : World) : string := Priv.accountId (this w).

(** The getter builds a new object from the two members of [#socket]. *)
Definition socket (w : World) : Socket.t :=
  Socket.mk (Socket.accountId (Priv.socket (this w))) (Socket.ws (Priv.socket (this w))).

Definition JSON_parse_or_throw (text : string) : M value :=
  match JSON_parse text with
  | Some v => ret v
  | None => throw SyntaxError
  end.

(** A property read that throws [TypeError] on [undefined] and [null]. *)
Definition attempt {A : Type} (o : option A) : M A :=
  match o with
  | Some x => ret x
  | None => throw TypeError
  end.

(** [data.payloads[0].events[0]] *)
Definition first_event (data : value) : option value :=
  payloads ← get data "payloads";
  payload ← get payloads "0";
  events ← get payload "events";
  get events "0".

(** [data.payloads[0].events[0].type] *)
Definition first_event_type (data : value) : option value :=
  event ← first_event data;
  get event "type".

(** [data.payloads[0].events[0].event.state] and [.event.devices] *)
Definition first_event_payload (data : value) (field : string) : option value :=
  event ← first_event data;
  ev ← get event "event";
  get ev field.

Section Emitter.

(** What calling a registered function does. *)
Variable call : Callback -> list value -> M unit.

Definition on (name : string) (callback : Callback) : M unit :=
  modify (fun w =>
    match _events w !! name with
    | Some (Single f) => set_events (<[name := Many (Set_add callback [f])]> (_events w)) w
    | _ => set_events (<[name := Single callback]> (_events w)) w
    end).

Definition removeAllListeners (name : option string) : M unit :=
  modify (fun w =>
    match name with
    | Some name =>
        if decide (is_Some (_events w !! name))
        then set_events (delete name (_events w)) w
        else set_events ∅ w
    | None => set_events ∅ w
    end).

Definition emit (name : string) (data : list value) : M unit :=
  modify (record (Emitted name data)) ;;
  eventListeners <- gets (fun w => _events w !! name) ;;
  match eventListeners with
  | Some (Single f) => modify (record (Invoked f data)) ;; call f data
  | Some (Many fs) =>
      forEach fs (fun func => modify (record (Invoked func data)) ;; call func data)
  | None => ret tt
  end.

Definition afterSpotifyUpdate : M unit :=
  s <- gets socket ;;
  a <- gets accountId ;;
  let rebind : M unit :=
    (* both assignments write to an object the getter has just built *)
    tmp <- gets socket ;;
    a <- gets accountId ;;
    let _ := Socket.mk a (Socket.ws tmp) in
    tmp' <- gets socket ;;
    resolved <- gets (fun w => getSpotifySocket (Some (accountId w)) (Host.store (host w))) ;;
    let _ := Socket.mk (Socket.accountId tmp') resolved in
    s' <- gets socket ;;
    match Socket.ws s' with
    | Some ws =>
        addEventListener ws hSPOTIFY_WEBSOCKET_MESSAGE ;;
        emit "websocket" [VSocket ws]
    | None => emit "error" [VStr "websocket"]
    end in
  match Socket.ws s with
  | Some ws =>
      if negb (String.eqb (Socket.accountId s) a) then
        removeEventListener ws hSPOTIFY_WEBSOCKET_MESSAGE ;; rebind
      else ret tt
  | None => rebind
  end.

Definition SPOTIFY_UPDATE (data_accountId : string) : M unit :=
  a <- gets accountId ;;
  (if String.eqb a "" then modify_this (Priv.set_accountId data_accountId) else ret tt) ;;
  a <- gets accountId ;;
  if negb (String.eqb a data_accountId) then
    log_error "SpotifyWatcher@SPOTIFY_UPDATE"
      ("New account ID (" +:+ data_accountId +:+ ") differs from registered account ID ("
         +:+ a +:+ "), change ignored")
  else
    emit "update" [VStr data_accountId; VStr a] ;;
    detached afterSpotifyUpdate.

Definition SPOTIFY_WEBSOCKET_MESSAGE (message_data : string) : M unit :=
  data <- JSON_parse_or_throw message_data ;;
  if truthy (get_opt data "type") && truthy (get_opt data "payloads")
     && negb (is_string "pong" (get_opt data "type"))
  then
    ty <- attempt (first_event_type data) ;;
    (if is_string "PLAYER_STATE_CHANGED" ty then
       st <- attempt (first_event_payload data "state") ;;
       modify_this (Priv.set_state st)
     else
       ty <- attempt (first_event_type data) ;;
       if is_string "DEVICE_STATE_CHANGED" ty then
         ds <- attempt (first_event_payload data "devices") ;;
         modify_this (Priv.set_devices ds)
       else ret tt) ;;
    ty <- attempt (first_event_type data) ;;
    ty' <- attempt (first_event_type data) ;;
    payload <- gets (fun w => if is_string "PLAYER_STATE_CHANGED" ty'
                              then Priv.state (this w) else Priv.devices (this w)) ;;
    emit "message" [ty; payload]
  else ret tt.

(** The closure stored in [#socketsPongHandlers[accountId]]. *)
Definition pong_handler (accountId : string) (message_data : string) : M unit :=
  data <- JSON_parse_or_throw message_data ;;
  if truthy (get_opt data "type") && is_string "pong" (get_opt data "type")
  then emit "pong" [VStr accountId]
  else ret tt.

(** [set accountId(id)]; [id in this.#sockets] throws while [#sockets] is
    [undefined], and [#sockets] is the object that [getAllSpotifySockets]
    builds from [{}]. *)
Definition set_accountId (id : string) : M unit :=
  a <- gets accountId ;;
  if String.eqb a id then ret tt
  else
    sockets <- gets (fun w => Priv.sockets (this w)) ;;
    match sockets with
    | None => throw TypeError
    | Some sockets =>
        if in_object id sockets then
          modify_this (Priv.set_accountId id) ;;
          SPOTIFY_UPDATE id
        else ret tt
    end.

Definition removeSocketEvent : M unit :=
  s <- gets socket ;;
  match Socket.ws s with
  | None => ret tt
  | Some ws => removeEventListener ws hSPOTIFY_WEBSOCKET_MESSAGE
  end.

Definition addPongEvent : M unit :=
  modify (fun w =>
    set_this (Priv.set_sockets (getAllSpotifySockets (Host.store (host w))) (this w)) w) ;;
  sockets <- gets (fun w => Priv.sockets (this w)) ;;
  match sockets with
  | Some sockets =>
      forEach sockets (fun '(accountId, socket) =>
        handlers <- gets (fun w => Priv.socketsPongHandlers (this w)) ;;
        match handlers !! accountId with
        | None =>
            (* the table is built from [{}]: under the name of a member of
               [Object.prototype] it reads that member, not [undefined] *)
            if ordinary accountId then
              n <- gets closures ;;
              modify (set_closures (S n)) ;;
              modify_this (fun p =>
                Priv.set_socketsPongHandlers
                  (<[accountId := hPong accountId n]> (Priv.socketsPongHandlers p)) p) ;;
              addEventListener socket (hPong accountId n)
            else ret tt
        | Some _ => ret tt
        end)
  | None =>
      flag <- gets (fun w => Priv.pongListenerRegistered (this w)) ;;
      if negb flag then
        dispatcher_subscribe "SPOTIFY_PROFILE_UPDATE" hREGISTER_PONG_EVENT ;;
        modify_this (Priv.set_pongListenerRegistered true)
      else ret tt
  end.

(** Under the name of a member of [Object.prototype] the table reads that
    member: it is attached to no connection and is not the table's own, so
    removing it from the connection and deleting it change nothing. *)
Definition removePongEvent : M unit :=
  sockets <- gets (fun w => Priv.sockets (this w)) ;;
  match sockets with
  | None => ret tt
  | Some sockets =>
      forEach sockets (fun '(accountId, socket) =>
        handlers <- gets (fun w => Priv.socketsPongHandlers (this w)) ;;
        match handlers !! accountId with
        | Some h =>
            removeEventListener socket h ;;
            modify_this (fun p =>
              Priv.set_socketsPongHandlers (delete accountId (Priv.socketsPongHandlers p)) p)
        | None => ret tt
        end)
  end.

(** [addPongEvent] is called first and not awaited: it suspends at its
    first [await], before it has done anything, and the handler goes on. *)
Definition REGISTER_PONG_EVENT : M unit :=
  unawaited addPongEvent
    (dispatcher_unsubscribe "GAMES_DATABASE_UPDATE" hREGISTER_PONG_EVENT).

Definition flux_events : list string :=
  ["SPOTIFY_PROFILE_UPDATE"; "SPOTIFY_SET_DEVICES"; "SPOTIFY_ACCOUNT_ACCESS_TOKEN";
   "SPOTIFY_SET_ACTIVE_DEVICES"; "SPOTIFY_PLAYER_STATE"].

Definition registerFlux : M unit :=
  modify (fun w =>
    set_this
      (Priv.set_dispatcher
         (if Host.common_fluxDispatcher (host w) then Some CommonFlux
          else if Host.webpack_fluxDispatcher (host w) then Some WebpackFlux
          else None)
         (this w)) w) ;;
  d <- gets (fun w => Priv.dispatcher (this w)) ;;
  match d with
  | None => log_error "SpotifyWatcher@registerFlux" "FluxDispatcher not found"
  | Some _ =>
      r <- gets registered ;;
      if r then log_warn "SpotifyWatcher@registerFlux" "Already registered"
      else
        forEach flux_events (fun event => dispatcher_subscribe event hSPOTIFY_UPDATE) ;;
        modify_this (Priv.set_registered true) ;;
        emit "registered" []
  end.

Definition removeFlux : M unit :=
  d <- gets (fun w => Priv.dispatcher (this w)) ;;
  r <- gets registered ;;
  if negb (bool_decide (is_Some d)) || negb r then
    log_error "SpotifyWatcher@removeFlux" "Already removed"
  else
    forEach flux_events (fun event => dispatcher_unsubscribe event hSPOTIFY_UPDATE) ;;
    modify_this (Priv.set_registered false) ;;
    emit "unregistered" [].

Definition load : M unit :=
  registerFlux ;;
  addPongEvent ;;
  n <- gets closures ;;
  modify (set_closures (S n)) ;;
  on "pong" (PongRelay n).

Definition unload : M unit :=
  removeFlux ;;
  removePongEvent ;;
  removeAllListeners (Some "pong") ;;
  removeSocketEvent.

End Emitter.

(** Calling a registered function.  A consumer's callback returns or
    throws; the relay runs the update handler on the account it is given
    (its parameter is declared a string, and the model covers the calls at
    that type).  [depth] bounds the nesting of relay calls, as the call
    stack does. *)
Fixpoint invoke (depth : nat) (f : Callback) (args : list value) : M unit :=
  match f with
  | Subscriber id raises => if raises then throw (Raised id) else ret tt
  | PongRelay _ =>
      match depth with
      | O => throw RangeError
      | S depth' =>
          match args with
          | VStr accountId :: _ => SPOTIFY_UPDATE (invoke depth') accountId
          | _ => ret tt
          end
      end
  end.

(** ** The environment of a watcher *)

(** A [message] event on a connection runs the listeners attached to it, in
    the order they were attached; an exception of a listener is reported by
    the runtime and does not reach the others. *)
Definition run_listener (depth : nat) (h : SocketListener) (message_data : string) : M unit :=
  match h with
  | hSPOTIFY_WEBSOCKET_MESSAGE => SPOTIFY_WEBSOCKET_MESSAGE (invoke depth) message_data
  | hPong accountId _ => pong_handler (invoke depth) accountId message_data
  end.

Definition message_event (depth : nat) (ws : WebSocket) (message_data : string) : M unit :=
  attached <- gets (fun w => filter (fun l => l.1 = ws) (listeners w)) ;;
  forEach attached (fun l => detached (run_listener depth l.2 message_data)).

(** What can happen to a watcher: a call of a public method or of a member
    of [handlers] (by a consumer, or by the dispatch bus the member is
    subscribed on), a message on a connection, a change of the host. *)
Inductive Op : Type :=
  | op_on (name : string) (callback : Callback)
  | op_emit (name : string) (data : list value)
  | op_removeAllListeners (name : option string)
  | op_set_accountId (id : string)
  | op_registerFlux
  | op_removeFlux
  | op_addPongEvent
  | op_removePongEvent
  | op_removeSocketEvent
  | op_load
  | op_unload
  | op_REGISTER_PONG_EVENT
  | op_SPOTIFY_UPDATE (data_accountId : string)
  | op_SPOTIFY_WEBSOCKET_MESSAGE (message_data : string)
  | op_message_event (ws : WebSocket) (message_data : string)
  | op_host (h : Host.t).

Definition run_op (depth : nat) (op : Op) : M unit :=
  match op with
  | op_on name callback => on name callback
  | op_emit name data => emit (invoke depth) name data
  | op_removeAllListeners name => removeAllListeners name
  | op_set_accountId id => set_accountId (invoke depth) id
  | op_registerFlux => registerFlux (invoke depth)
  | op_removeFlux => removeFlux (invoke depth)
  | op_addPongEvent => addPongEvent
  | op_removePongEvent => removePongEvent
  | op_removeSocketEvent => removeSocketEvent
  | op_load => load (invoke depth)
  | op_unload => unload (invoke depth)
  | op_REGISTER_PONG_EVENT => REGISTER_PONG_EVENT
  | op_SPOTIFY_UPDATE data_accountId => SPOTIFY_UPDATE (invoke depth) data_accountId
  | op_SPOTIFY_WEBSOCKET_MESSAGE message_data =>
      SPOTIFY_WEBSOCKET_MESSAGE (invoke depth) message_data
  | op_message_event ws message_data => message_event depth ws message_data
  | op_host h => modify (set_host h)
  end.

(** The world after a history of operations; an operation that throws
    leaves the world as it was at the throw. *)
Fixpoint after (depth : nat) (history : list Op) (w : World) : World :=
  match history with
  | [] => w
  | op :: rest => after depth rest (world_of (run_op depth op w))
  end.

(** A message that reaches one of the two assignments of the message
    handler: it decodes, passes the guard, and its first event is a
    player-state or device-state change. *)
Definition state_message (message_data : string) : bool :=
  match JSON_parse message_data with
  | Some data =>
      truthy (get_opt data "type") && truthy (get_opt data "payloads")
      && negb (is_string "pong" (get_opt data "type"))
      && match first_event_type data with
         | Some ty => is_string "PLAYER_STATE_CHANGED" ty || is_string "DEVICE_STATE_CHANGED" ty
         | None => false
         end
  | None => false
  end.

Definition carries_state (op : Op) : bool :=
  match op with
  | op_SPOTIFY_WEBSOCKET_MESSAGE message_data => state_message message_data
  | op_message_event _ message_data => state_message message_data
  | _ => false
  end.

(** [n] calls in a row. *)
Fixpoint times (n : nat) (m : M unit) : M unit :=
  match n with
  | O => ret tt
  | S n' => m ;; times n' m
  end.

(** The world with more entries at the end of its trace. *)
Definition records (es : list Event) (w : World) : World :=
  mkWorld (_events w) (this w) (host w) (listeners w) (closures w) (trace w ++ es).

(** The three tiers as the specification words them, to compare with
    [getSpotifySocket]: the first two tiers as above; the third looks at
    the active socket only when no [accountId] is asked for, and at the
    first entry of the registry otherwise. *)
Definition resolveSocket_as_specified (accountId : option string) (store : option Store.t) :
    option WebSocket :=
  match store with
  | None => None
  | Some store =>
      let active := Store.getActiveSocketAndDevice store in
      let filtered :=
        match active with
        | Some a =>
            if bool_decide (Some (Account.accountId a) = accountId)
            then Some (Account.socket a)
            else None
        | None => None
        end in
      match filtered with
      | Some socket => Some socket
      | None =>
          match own (property_key accountId) (Store.accounts store) with
          | Some account => Some (Account.socket account)
          | None =>
              match accountId with
              | None => option_map Account.socket active
              | Some _ =>
                  match Store.accounts store with
                  | (_, first) :: _ => Some (Account.socket first)
                  | [] => None
                  end
              end
          end
      end
  end.

(** [m] moves every world to an [R]-related one, whether it returns or
    throws. *)
Definition preserves {A : Type} (R : World -> World -> Prop) (m : M A) : Prop :=
  forall w, R w (world_of (m w)).

(** The two worlds agree on an observation. *)
Definition keeps {X : Type} (f : World -> X) : World -> World -> Prop :=
  fun w w' => f w' = f w.

(** The trace of the second world extends the trace of the first. *)
Definition extends (w w' : World) : Prop :=
  exists es, trace w' = trace w ++ es.

(** What the two public getters read. *)
Definition stored (w : World) : value * value :=
  (Priv.state (this w), Priv.devices (this w)).

(** No connection is bound: [#socket.ws] is [undefined] and the message
    handler is attached to no connection. *)
Definition unbound (w : World) : Prop :=
  Socket.ws (Priv.socket (this w)) = None
  /\ Forall (fun l => l.2 <> hSPOTIFY_WEBSOCKET_MESSAGE) (listeners w).

Definition stays_unbound (w w' : World) : Prop := unbound w -> unbound w'.

(** Worlds and texts for the examples. *)
Definition account_A : Account.t := Account.mk "A" "token-A" 1.
Definition account_C : Account.t := Account.mk "C" "token-C" 3.

Definition two_accounts : Store.t :=
  Store.mk (Some account_A) [("C", account_C); ("A", account_A)].

Definition ready_host : Host.t := Host.mk (Some two_accounts) true false.
Definition starting_host : Host.t := Host.mk None true false.

Definition player_state_text : string :=
  js "{'type':'message','payloads':[{'events':[{'type':'PLAYER_STATE_CHANGED','event':{'state':{'progress_ms':1234,'duration_ms':9999,'repeat_state':'track','shuffle_state':true}}}]}]}".

Definition player_state_payload : value :=
  VObj [("progress_ms", VNum 1234 0); ("duration_ms", VNum 9999 0);
        ("repeat_state", VStr "track"); ("shuffle_state", VBool true)].

Definition bound_to_A : World :=
  set_this (Priv.set_accountId "A" new_SpotifyWatcher) (new_World ready_host).

(** An account that is bound stays the bound one. *)
Definition stays_bound (w w' : World) : Prop :=
  accountId w <> "" -> accountId w' = accountId w.

(** The operation is an assignment to [accountId]. *)
Definition assigns_accountId (op : Op) : bool :=
  match op with
  | op_set_accountId _ => true
  | _ => false
  end.

(** ** The account resolver and the remote controls *)

(** [getSpotifyAccount(accountId)]: [!accountId] holds for [undefined] and
    for the empty string, and both take the first entry of the registry. *)
Definition getSpotifyAccount (accountId : option string) (store : option Store.t) :
    option Account.t :=
  match store with
  | None => None
  | Some store =>
      let accounts := Store.accounts store in
      match accountId with
      | None | Some "" =>
          match accounts with
          | (_, first) :: _ => Some first
          | [] => None
          end
      | Some id => own id accounts
      end
  end.

(** The characters [encodeURIComponent] keeps. *)
Definition unreserved (c : ascii) : bool :=
  let n := nat_of_ascii c in
  ((48 <=? n)%nat && (n <=? 57)%nat) || ((65 <=? n)%nat && (n <=? 90)%nat)
  || ((97 <=? n)%nat && (n <=? 122)%nat)
  || existsb (Ascii.eqb c) (list_ascii_of_string "-_.!~*'()").

Definition hex_digit (n : nat) : ascii :=
  if (n <? 10)%nat then ascii_of_nat (48 + n) else ascii_of_nat (55 + n).

(** [%XX] for a byte. *)
Definition percent (c : ascii) : string :=
  String "%" (String (hex_digit (nat_of_ascii c / 16))
                (String (hex_digit (nat_of_ascii c mod 16)) EmptyString)).

(** [encodeURIComponent(s)] on the UTF-8 bytes of a well-formed string: the
    unreserved characters are kept, every other byte is escaped. *)
Fixpoint encodeURIComponent (s : string) : string :=
  match s with
  | EmptyString => EmptyString
  | String c rest =>
      (if unreserved c then String c EmptyString else percent c)
      +:+ encodeURIComponent rest
  end.

(** [uri.match(/\?/)] as a condition. *)
Fixpoint has_question_mark (uri : string) : bool :=
  match uri with
  | EmptyString => false
  | String c rest => Ascii.eqb c "?" || has_question_mark rest
  end.

Module Request.
(** What [sendSpotifyAPI] hands to [fetch]: the address, and of the options
    the method, the [Authorization] header and the body (the mode and the
    content type are constants). *)
Record t : Type := mk {
  uri : string;
  method : string;
  Authorization : string;
  body : option value
}.
End Request.

(** One step of the [forEach] over [Object.entries(query)]. *)
Definition append_query (uri : string) (entry : string * string) : string :=
  uri +:+ (if has_question_mark uri then "&" else "?")
      +:+ encodeURIComponent entry.1 +:+ "=" +:+ encodeURIComponent entry.2.

(** [sendSpotifyAPI(endpoint, accountId, method, query, body)]: the request
    it fetches, or [None] when it returns without fetching.  An omitted
    [method] is ["PUT"]; [query] lists the entries of the object given. *)
Definition sendSpotifyAPI (endpoint : string) (accountId : option string)
    (method : option string) (query : option (list (string * string)))
    (body : option value) (store : option Store.t) : option Request.t :=
  match getSpotifyAccount accountId store with
  | None => None
  | Some account =>
      let uri := "https://api.spotify.com/v1/" +:+ endpoint in
      let uri :=
        match query with
        | Some entries => fold_left append_query entries uri
        | None => uri
        end in
      Some (Request.mk uri (default "PUT" method)
              ("Bearer " +:+ Account.accessToken account) body)
  end.

(** [SpotifyControls.setPlaybackState(state, accountId)] *)
Definition setPlaybackState (state : bool) (accountId : option string)
    (store : option Store.t) : option Request.t :=
  sendSpotifyAPI ("me/player/" +:+ (if state then "play" else "pause"))
    accountId None None None store.

(** [SpotifyControls.setRepeatMode(mode, accountId)]: the early return is
    taken when [modes.includes(mode)]. *)
Definition setRepeatMode (mode : string) (accountId : option string)
    (store : option Store.t) : option Request.t :=
  let modes := ["off"; "context"; "track"] in
  if existsb (String.eqb mode) modes then None
  else sendSpotifyAPI "me/player/repeat" accountId None (Some [("state", mode)]) None store.

(** ** SpotifyModal.parseTime *)

(** The civil date of a day number, day 0 being 1 January 1970: the year,
    the month from 1 and the day of the month from 1. *)
Definition civil_from_days (day : Z) : Z * Z * Z :=
  let z := (day + 719468)%Z in
  let era := (z / 146097)%Z in
  let doe := (z - era * 146097)%Z in
  let yoe := ((doe - doe / 1460 + doe / 36524 - doe / 146096) / 365)%Z in
  let doy := (doe - (365 * yoe + yoe / 4 - yoe / 100))%Z in
  let mp := ((5 * doy + 2) / 153)%Z in
  let d := (doy - (153 * mp + 2) / 5 + 1)%Z in
  let m := (if mp <? 10 then mp + 3 else mp - 9)%Z in
  ((if m <=? 2 then yoe + era * 400 + 1 else yoe + era * 400)%Z, m, d).

(** The UTC fields of [new Date(ms)] that [parseTime] reads. *)
Definition getUTCMonth (ms : Z) : Z := ((civil_from_days (ms / 86400000)).1.2 - 1)%Z.
Definition getUTCDate (ms : Z) : Z := (civil_from_days (ms / 86400000)).2.
Definition getUTCHours (ms : Z) : Z := ((ms mod 86400000) / 3600000)%Z.
Definition getUTCMinutes (ms : Z) : Z := ((ms mod 3600000) / 60000)%Z.
Definition getUTCSeconds (ms : Z) : Z := ((ms mod 60000) / 1000)%Z.

(** The decimal text of a number that is a non-negative integer. *)
Definition decimal (n : Z) : string := NilEmpty.string_of_uint (N.to_uint (Z.to_N n)).

(** [SpotifyModal.parseTime(ms)] for a whole number of milliseconds.  Beyond
    8.64e15 in absolute value the date is invalid and every field is
    [NaN]. *)
Definition parseTime (ms : Z) : string :=
  if (8640000000000000 <? Z.abs ms)%Z then "NaN:NaN"
  else
    let parsedHours :=
      (getUTCHours ms + (getUTCDate ms - 1) * 24 + getUTCMonth ms * 30 * 24)%Z in
    (if (0 <? parsedHours)%Z then decimal parsedHours +:+ ":" else "")
    +:+ (if (getUTCMinutes ms <? 10)%Z && (0 <? parsedHours)%Z
         then "0" +:+ decimal (getUTCMinutes ms)
         else decimal (getUTCMinutes ms))
    +:+ ":"
    +:+ (if (getUTCSeconds ms <? 10)%Z
         then "0" +:+ decimal (getUTCSeconds ms)
         else decimal (getUTCSeconds ms)).

(** The text [parseTime] is meant to show for a duration: the hours when
    there are any, the minutes (on two digits after hours), the seconds on
    two digits. *)
Definition two_digits (n : Z) : string :=
  if (n <? 10)%Z then "0" +:+ decimal n else decimal n.

Definition clock (hours minutes seconds : Z) : string :=
  (if (0 <? hours)%Z then decimal hours +:+ ":" +:+ two_digits minutes else decimal minutes)
  +:+ ":" +:+ two_digits seconds.

(** ** SpotifyModal.parseArtists *)

Module DOM.

(** The nodes [parseArtists] creates: a text node, or an anchor with the
    properties the code sets on it and the nodes appended to it. *)
Inductive Node : Type :=
  | Text (nodeValue : string)
  | Anchor (target href color : string) (classList : list string) (title : option string)
      (childNodes : list Node).

Inductive Exception : Type :=
  | SyntaxError
  | InvalidCharacterError.

Fixpoint textContent (n : Node) : string :=
  match n with
  | Text s => s
  | Anchor _ _ _ _ _ children => String.concat "" (map textContent children)
  end.

(** ASCII whitespace: tab, line feed, form feed, carriage return, space. *)
Definition whitespace (c : ascii) : bool :=
  existsb (Ascii.eqb c) ["009"; "010"; "012"; "013"; " "]%char.

(** [classList.add(...tokens)] on a token list: an empty token is a
    [SyntaxError], a token with whitespace an [InvalidCharacterError], and
    nothing is added unless every token is valid; a token already present
    is not added again. *)
Fixpoint validate (tokens : list string) : option Exception :=
  match tokens with
  | [] => None
  | token :: rest =>
      if String.eqb token "" then Some SyntaxError
      else if existsb whitespace (list_ascii_of_string token) then Some InvalidCharacterError
      else validate rest
  end.

Definition classList_add (tokens : list string) (classList : list string) :
    Exception + list string :=
  match validate tokens with
  | Some e => inl e
  | None =>
      inr (fold_left (fun set token => if existsb (String.eqb token) set then set
                                        else set ++ [token]) tokens classList)
  end.

End DOM.

(** [s.split(" ")] *)
Fixpoint split_spaces (s : string) : list string :=
  match s with
  | EmptyString => [EmptyString]
  | String c rest =>
      if Ascii.eqb c " " then EmptyString :: split_spaces rest
      else
        match split_spaces rest with
        | first :: others => String c first :: others
        | [] => [String c EmptyString]
        end
  end.

Module Artist.
(** An entry of [track.artists]; [id] is [None] when it is not a string. *)
Record t : Type := mk {
  name : string;
  id : option string
}.
End Artist.

(** The element made for one artist in the [forEach] of [parseArtists]. *)
Definition artist_element (additionalLinkElementClasses : option string)
    (enableTooltip : bool) (artist : Artist.t) : DOM.Exception + DOM.Node :=
  match Artist.id artist with
  | Some id =>
      match DOM.classList_add (match additionalLinkElementClasses with
                               | Some classes => split_spaces classes
                               | None => []
                               end) [] with
      | inl e => inl e
      | inr classList =>
          inr (DOM.Anchor "_blank" ("https://open.spotify.com/artist/" +:+ id)
                 "var(--header-secondary)" classList
                 (if enableTooltip then Some (Artist.name artist) else None)
                 [DOM.Text (Artist.name artist)])
      end
  | None => inr (DOM.Text (Artist.name artist))
  end.

(** The [forEach] over [track.artists]: what it pushes to [res], or the
    exception that ends it. *)
Fixpoint push_artists (additionalLinkElementClasses : option string) (enableTooltip : bool)
    (artists : list Artist.t) : DOM.Exception + list DOM.Node :=
  match artists with
  | [] => inr []
  | artist :: rest =>
      match artist_element additionalLinkElementClasses enableTooltip artist with
      | inl e => inl e
      | inr element =>
          match push_artists additionalLinkElementClasses enableTooltip rest with
          | inl e => inl e
          | inr res =>
              inr (match rest with
                   | [] => element :: res
                   | _ :: _ => element :: DOM.Text ", " :: res
                   end)
          end
      end
  end.

(** [SpotifyModal.parseArtists(track, additionalLinkElementClasses,
    enableTooltip)] on [track.artists]. *)
Definition parseArtists (artists : list Artist.t) (additionalLinkElementClasses : option string)
    (enableTooltip : bool) : DOM.Exception + list DOM.Node :=
  match push_artists additionalLinkElementClasses enableTooltip artists with
  | inl e => inl e
  | inr [] => inr [DOM.Text "Unknown"]
  | inr res => inr res
  end.

(** ** EventEmitter with one-shot registrations

    [once] registers a closure that calls the callback and then removes
    itself, which [on] and [emit] above have no value for: the emitter of
    [utils.ts] again, over functions that are a consumer's callback or such
    a closure.  A consumer's callback returns or throws and is recorded in
    [called]. *)
Module Once.

Inductive Fn : Type :=
  | callback (id : nat) (raises : bool)
  | replacedFunction (name : string) (id : nat) (raises : bool) (serial : nat).

#[global] Instance Fn_eq_dec : EqDecision Fn.
Proof. solve_decision. Defined.

(** What [_events[name]] holds: a function, or a [Set] in insertion order. *)
Inductive Bucket : Type :=
  | function (f : Fn)
  | SetOf (fs : list Fn).

Record Emitter : Type := mk {
  events : gmap string Bucket;
  created : nat;
  called : list (nat * list value)
}.

Inductive Outcome : Type :=
  | Done (e : Emitter)
  | Threw (id : nat) (e : Emitter).

Definition new_EventEmitter : Emitter := mk ∅ 0 [].

Definition emitter_of (o : Outcome) : Emitter :=
  match o with
  | Done e => e
  | Threw _ e => e
  end.

(** [#fixSets()]: a [Set] has no [length], so the first test never holds
    and the second holds for every [Set]: each bucket that is a [Set] is
    deleted, each bucket that is a function is kept. *)
Definition fixSets (ev : gmap string Bucket) : gmap string Bucket :=
  omap (fun b => match b with
                 | function f => Some (function f)
                 | SetOf _ => None
                 end) ev.

Definition register (name : string) (f : Fn) (ev : gmap string Bucket) : gmap string Bucket :=
  match ev !! name with
  | Some (function g) => <[name := SetOf (if decide (f ∈ [g]) then [g] else [g] ++ [f])]> ev
  | _ => <[name := function f]> ev
  end.

(** [on(name, callback)] *)
Definition on (name : string) (id : nat) (raises : bool) (e : Emitter) : Emitter :=
  mk (register name (callback id raises) (events e)) (created e) (called e).

(** [once(name, callback)] *)
Definition once (name : string) (id : nat) (raises : bool) (e : Emitter) : Emitter :=
  mk (register name (replacedFunction name id raises (created e)) (events e))
     (S (created e)) (called e).

(** [removeAllListeners(name)] *)
Definition removeAllListeners (name : option string) (e : Emitter) : Emitter :=
  match name with
  | Some name =>
      if decide (is_Some (events e !! name))
      then mk (delete name (events e)) (created e) (called e)
      else mk ∅ (created e) (called e)
  | None => mk ∅ (created e) (called e)
  end.

(** A call of a registered function with the emitted arguments. *)
Definition call (f : Fn) (data : list value) (e : Emitter) : Outcome :=
  let e' := mk (events e) (created e) (called e ++ [(match f with
                                                      | callback id _ => id
                                                      | replacedFunction _ id _ _ => id
                                                      end, data)]) in
  match f with
  | callback id raises => if raises then Threw id e' else Done e'
  | replacedFunction name id raises _ =>
      if raises then Threw id e'
      else
        match events e' !! name with
        | Some (SetOf fs) =>
            Done (mk (fixSets (<[name := SetOf (filter (fun g => g ≠ f) fs)]> (events e')))
                    (created e') (called e'))
        | _ => Done (mk (delete name (events e')) (created e') (called e'))
        end
  end.

Fixpoint forEach (fs : list Fn) (data : list value) (e : Emitter) : Outcome :=
  match fs with
  | [] => Done e
  | f :: rest =>
      match call f data e with
      | Done e' => forEach rest data e'
      | Threw id e' => Threw id e'
      end
  end.

(** [emit(name, ...data)] *)
Definition emit (name : string) (data : list value) (e : Emitter) : Outcome :=
  match events e !! name with
  | Some (function f) => call f data e
  | Some (SetOf fs) => forEach fs data e
  | None => Done e
  end.

End Once.

(** * Properties *)

(** ** Traces and the sequencing of computations *)

Lemma records_nil (w : World) : records [] w = w.
Proof. destruct w; unfold records; simpl. by rewrite app_nil_r. Qed.

Lemma records_record (e : Event) (es : list Event) (w : World) :
  records es (record e w) = records (e :: es) w.
Proof. unfold records, record; simpl. by rewrite <- app_assoc. Qed.

(** ** The decoder on the texts of the examples *)

Example JSON_parse_garbage :
  JSON_parse (js "{'type':'garbage'}") = Some (VObj [("type", VStr "garbage")]).
Proof. vm_compute. reflexivity. Qed.

Example JSON_parse_pong :
  JSON_parse (js "{ 'type' : 'pong' }") = Some (VObj [("type", VStr "pong")]).
Proof. vm_compute. reflexivity. Qed.

Example JSON_parse_values :
  JSON_parse (js "[1, -2.50e3, 'a', null, true, {}, [], {'k':{'k':0}}]")
  = Some (VArr [VNum 1 0; VNum (-250) 1; VStr "a"; VNull; VBool true; VObj []; VArr [];
                VObj [("k", VObj [("k", VNum 0 0)])]]).
Proof. vm_compute. reflexivity. Qed.

Example JSON_parse_rejects :
  JSON_parse "not json" = None /\ JSON_parse "" = None /\ JSON_parse "[1,]" = None
  /\ JSON_parse "01" = None /\ JSON_parse "{}x" = None.
Proof. repeat split; vm_compute; reflexivity. Qed.

Example JSON_parse_player_state :
  (data ← JSON_parse player_state_text; first_event_payload data "state")
  = Some player_state_payload.
Proof. vm_compute. reflexivity. Qed.

(** ** The socket resolver (C6) *)

(** C6, as stated, fails: asked for account B, which the registry does not
    hold, while the host's active socket is the one of account A, the
    resolver answers with the active socket (connection 1) and not with the
    first entry of the registry (connection 3, of account C). *)
Lemma C6_third_tier_prefers_the_active_socket :
  getSpotifySocket (Some "B") (Some two_accounts) = Some 1
  /\ resolveSocket_as_specified (Some "B") (Some two_accounts) = Some 3.
Proof. split; reflexivity. Qed.

(** C6, amended: the resolver answers by the first tier that succeeds.
    (1) the host's active socket when it belongs to the requested account;
    (2) else the registry entry under the requested key; (3) else, whether
    or not an account was asked for, the host's active socket; and only
    when the host has no active socket, the first entry of the registry
    (absent when the registry is empty).  Without the host module the
    answer is absent. *)
Theorem C6_three_tier_fallback (accountId : option string) (store : Store.t) :
  let active := Store.getActiveSocketAndDevice store in
  let accounts := Store.accounts store in
  let answer := getSpotifySocket accountId (Some store) in
  (forall a, active = Some a -> Some (Account.accountId a) = accountId ->
     answer = Some (Account.socket a))
  /\ (forall account,
        (forall a, active = Some a -> Some (Account.accountId a) <> accountId) ->
        own (property_key accountId) accounts = Some account ->
        answer = Some (Account.socket account))
  /\ (forall a,
        Some (Account.accountId a) <> accountId ->
        own (property_key accountId) accounts = None ->
        active = Some a ->
        answer = Some (Account.socket a))
  /\ (active = None ->
      own (property_key accountId) accounts = None ->
      answer = option_map (fun entry => Account.socket entry.2) (head accounts))
  /\ getSpotifySocket accountId None = None.
Proof.
  destruct store as [active accounts]; simpl.
  unfold getSpotifySocket; simpl.
  repeat split.
  - intros a -> Heq. by rewrite bool_decide_eq_true_2.
  - intros account Hno Hown.
    destruct active as [a|]; [|by rewrite Hown].
    rewrite bool_decide_eq_false_2 by (by apply Hno). by rewrite Hown.
  - intros a Hne Hown ->.
    rewrite bool_decide_eq_false_2 by done. by rewrite Hown.
  - intros -> Hown. rewrite Hown. by destruct accounts as [|[k first] rest].
Qed.

Lemma C6_three_tier_fallback_witness :
  getSpotifySocket (Some "A") (Some two_accounts) = Some 1
  /\ getSpotifySocket (Some "C") (Some two_accounts) = Some 3
  /\ getSpotifySocket (Some "B") (Some two_accounts) = Some 1
  /\ getSpotifySocket None (Some (Store.mk None [("C", account_C); ("A", account_A)])) = Some 3.
Proof.
  split; [|split; [|split]].
  - destruct (C6_three_tier_fallback (Some "A") two_accounts) as (T1 & _).
    by apply (T1 account_A).
  - destruct (C6_three_tier_fallback (Some "C") two_accounts) as (_ & T2 & _).
    apply (T2 account_C); [|reflexivity].
    intros a [= <-]. discriminate.
  - destruct (C6_three_tier_fallback (Some "B") two_accounts) as (_ & _ & T3 & _).
    by apply (T3 account_A).
  - destruct (C6_three_tier_fallback None
                (Store.mk None [("C", account_C); ("A", account_A)])) as (_ & _ & _ & T4 & _).
    by apply T4.
Defined.

(** ** EventEmitter (C2, C5) *)

Lemma on_lookup (name : string) (f : Callback) (w : World) :
  _events (world_of (on name f w)) !! name
  = Some (match _events w !! name with
          | Some (Single g) => Many (Set_add f [g])
          | _ => Single f
          end).
Proof.
  unfold on, modify; simpl.
  destruct (_events w !! name) as [[g|fs]|]; simpl; by rewrite lookup_insert_eq.
Qed.

(** A registration on a name that holds a [Set] replaces the [Set]. *)
Lemma on_replaces_a_set (name : string) (f : Callback) (fs : list Callback) (w : World) :
  _events w !! name = Some (Many fs) ->
  _events (world_of (on name f w)) !! name = Some (Single f).
Proof. intros H. by rewrite on_lookup, H. Qed.

Lemma invoke_subscriber (d : nat) (id : nat) (raises : bool) (args : list value) :
  invoke d (Subscriber id raises) args = if raises then throw (Raised id) else ret tt.
Proof. by destruct d. Qed.

(** On a name with no bucket, the third of three registrations in a row
    is the only one left, whatever the three functions are. *)
Lemma on_three_times (name : string) (h1 h2 h3 : Callback) (w : World) :
  _events w !! name = None ->
  _events (world_of ((on name h1 ;; on name h2 ;; on name h3)%js w)) !! name
  = Some (Single h3).
Proof.
  intros Hnone. unfold on, bind, modify. simpl.
  rewrite Hnone. simpl. rewrite lookup_insert_eq. simpl.
  rewrite lookup_insert_eq. simpl. by rewrite lookup_insert_eq.
Qed.

(** Two distinct handlers fan out, in registration order. *)
Lemma on_twice_then_emit (d : nat) (name : string) (i j : nat) (data : list value) (w : World) :
  _events w !! name = None ->
  i <> j ->
  (on name (Subscriber i false) ;; on name (Subscriber j false) ;;
   emit (invoke d) name data)%js w
  = Returned tt
      (records [Emitted name data; Invoked (Subscriber i false) data;
                Invoked (Subscriber j false) data]
         (set_events (<[name := Many [Subscriber i false; Subscriber j false]]> (_events w)) w)).
Proof.
  intros Hnone Hij.
  unfold on, emit, bind, modify, gets; simpl.
  rewrite Hnone; simpl. rewrite lookup_insert_eq; simpl.
  rewrite lookup_insert_eq; simpl.
  unfold Set_add. rewrite decide_False by (rewrite list_elem_of_singleton; congruence).
  simpl. unfold bind. rewrite !invoke_subscriber.
  unfold ret, records, record, set_events; simpl.
  rewrite insert_insert_eq. rewrite <- !app_assoc. reflexivity.
Qed.

(** C2 on the code: three handlers registered on one name.  The third
    registration finds a [Set], which is not a function, and overwrites it:
    the emission calls the third handler only. *)
Theorem C2_third_registration_drops_the_first_two :
  let h1 := Subscriber 1 false in
  let h2 := Subscriber 2 false in
  let h3 := Subscriber 3 false in
  let w := world_of ((on "track" h1 ;; on "track" h2 ;; on "track" h3)%js
                       (new_World ready_host)) in
  _events w !! "track" = Some (Single h3)
  /\ emit (invoke 0) "track" [VStr "x"] w
     = Returned tt (records [Emitted "track" [VStr "x"]; Invoked h3 [VStr "x"]] w).
Proof. split; vm_compute; reflexivity. Qed.

Lemma forEach_stops_at_the_throw (d : nat) (data : list value) (id : nat)
    (before rest : list Callback) (w : World) :
  Forall (fun f => exists i, f = Subscriber i false) before ->
  forEach (before ++ Subscriber id true :: rest)
    (fun func => modify (record (Invoked func data)) ;; invoke d func data)%js w
  = Thrown (Raised id)
      (records (map (fun f => Invoked f data) (before ++ [Subscriber id true])) w).
Proof.
  intros Hbefore. revert w.
  induction Hbefore as [|f before [i ->] _ IH]; intros w.
  - simpl. unfold bind at 1. unfold bind at 1. simpl.
    by rewrite invoke_subscriber.
  - simpl. unfold bind at 1. unfold bind at 1. simpl.
    rewrite invoke_subscriber. unfold ret.
    rewrite IH. by rewrite records_record.
Qed.

(** C5, as stated, fails: of two handlers on one name, the first throws;
    the emission ends with that exception and the second handler is never
    called. *)
Lemma C5_a_throwing_handler_ends_the_emission :
  let w := world_of ((on "track" (Subscriber 1 true) ;; on "track" (Subscriber 2 false))%js
                       (new_World ready_host)) in
  _events w !! "track" = Some (Many [Subscriber 1 true; Subscriber 2 false])
  /\ emit (invoke 0) "track" [] w
     = Thrown (Raised 1) (records [Emitted "track" []; Invoked (Subscriber 1 true) []] w).
Proof. split; vm_compute; reflexivity. Qed.

(** C5, amended: [emit] calls the handlers of a name in order with nothing
    between a handler and its caller.  When a handler throws after the
    handlers before it have returned, the exception leaves [emit]: the
    handlers before it and the throwing one have been called, once each and
    in order, and no handler after it is called in that emission. *)
Theorem C5_emit_propagates_the_first_throw (d : nat) (name : string) (data : list value)
    (id : nat) (before rest : list Callback) (w : World) :
  ordinary name = true ->
  _events w !! name = Some (Many (before ++ Subscriber id true :: rest)) ->
  Forall (fun f => exists i, f = Subscriber i false) before ->
  emit (invoke d) name data w
  = Thrown (Raised id)
      (records (Emitted name data
                  :: map (fun f => Invoked f data) (before ++ [Subscriber id true])) w).
Proof.
  intros _ Hset Hbefore.
  unfold emit. unfold bind at 1, modify at 1. unfold bind at 1, gets at 1.
  change (_events (record (Emitted name data) w)) with (_events w).
  rewrite Hset.
  rewrite forEach_stops_at_the_throw by done.
  by rewrite records_record.
Qed.

Lemma C5_emit_propagates_the_first_throw_witness :
  let w := world_of ((on "track" (Subscriber 1 true) ;; on "track" (Subscriber 2 false))%js
                       (new_World ready_host)) in
  emit (invoke 0) "track" [] w
  = Thrown (Raised 1) (records [Emitted "track" []; Invoked (Subscriber 1 true) []] w).
Proof.
  apply (C5_emit_propagates_the_first_throw 0 "track" [] 1 [] [Subscriber 2 false]).
  - reflexivity.
  - vm_compute. reflexivity.
  - constructor.
Defined.

(** ** The update handler (C1, C3) *)

(** C1: an update event for another account than the bound, non-empty one
    is only logged: the handler returns, the world is the same but for one
    error line in the trace, so the bound account, the socket binding and
    the attached listeners are unchanged and nothing is emitted. *)
Theorem C1_mismatched_update_is_rejected (call : Callback -> list value -> M unit)
    (w : World) (incoming : string) :
  accountId w <> "" ->
  incoming <> accountId w ->
  exists line w',
    SPOTIFY_UPDATE call incoming w = Returned tt w'
    /\ w' = record (Logged Error "SpotifyWatcher@SPOTIFY_UPDATE" line) w
    /\ accountId w' = accountId w
    /\ socket w' = socket w
    /\ listeners w' = listeners w
    /\ _events w' = _events w.
Proof.
  intros Hbound Hdiff.
  apply String.eqb_neq in Hbound. apply not_eq_sym, String.eqb_neq in Hdiff.
  unfold SPOTIFY_UPDATE.
  unfold bind at 1, gets at 1. rewrite Hbound.
  unfold bind at 1, ret at 1. unfold bind at 1, gets at 1. rewrite Hdiff. simpl.
  unfold log_error, modify.
  eexists _, _. split; [reflexivity|]. repeat split.
Qed.

Lemma C1_mismatched_update_is_rejected_witness :
  exists line w',
    SPOTIFY_UPDATE (invoke 0) "B" bound_to_A = Returned tt w'
    /\ w' = record (Logged Error "SpotifyWatcher@SPOTIFY_UPDATE" line) bound_to_A
    /\ accountId w' = accountId bound_to_A
    /\ socket w' = socket bound_to_A
    /\ listeners w' = listeners bound_to_A
    /\ _events w' = _events bound_to_A.
Proof.
  apply (C1_mismatched_update_is_rejected (invoke 0) bound_to_A "B").
  - vm_compute. discriminate.
  - vm_compute. discriminate.
Defined.

(** With no connection in [#socket], the rebinding ends in the [error]
    emission whatever the resolver finds: what it finds is written to an
    object that the [socket] getter has just built, and read from another. *)
Lemma afterSpotifyUpdate_unbound (call : Callback -> list value -> M unit) (w : World) :
  Socket.ws (Priv.socket (this w)) = None ->
  afterSpotifyUpdate call w = emit call "error" [VStr "websocket"] w.
Proof.
  intros Hws. unfold afterSpotifyUpdate.
  unfold bind at 1, gets at 1. unfold bind at 1, gets at 1.
  unfold socket at 1. simpl. rewrite Hws.
  unfold bind at 1, gets at 1. unfold bind at 1, gets at 1.
  unfold bind at 1, gets at 1. unfold bind at 1, gets at 1.
  unfold bind at 1, gets at 1. unfold socket at 1. simpl. by rewrite Hws.
Qed.

(** C3 on the code: a new watcher, a host whose active socket is the one of
    account A (connection 1), and an update event for A.  A socket is
    resolvable, and yet the handler emits [error("websocket")], attaches no
    listener and leaves [#socket] empty. *)
Theorem C3_update_never_binds_the_resolved_socket :
  let w' := world_of (SPOTIFY_UPDATE (invoke 0) "A" (new_World ready_host)) in
  getSpotifySocket (Some "A") (Host.store ready_host) = Some 1
  /\ SPOTIFY_UPDATE (invoke 0) "A" (new_World ready_host)
     = Returned tt
         (records [Emitted "update" [VStr "A"; VStr "A"]; Emitted "error" [VStr "websocket"]]
            bound_to_A)
  /\ listeners w' = []
  /\ socket w' = Socket.mk "" None.
Proof. repeat split; vm_compute; reflexivity. Qed.

(** ** The message handlers (C4, C9) *)

Lemma undecodable_message_throws (call : Callback -> list value -> M unit)
    (account : string) (text : string) (w : World) :
  JSON_parse text = None ->
  SPOTIFY_WEBSOCKET_MESSAGE call text w = Thrown SyntaxError w
  /\ pong_handler call account text w = Thrown SyntaxError w.
Proof.
  intros H. unfold SPOTIFY_WEBSOCKET_MESSAGE, pong_handler, JSON_parse_or_throw.
  rewrite H. by split.
Qed.

(** C4, as stated, fails: a text that is not JSON makes the handler throw
    the decoder's [SyntaxError], and a decoded message with [type] and
    [payloads] but no event inside makes it throw a [TypeError]. *)
Lemma C4_malformed_messages_that_throw :
  JSON_parse "not json" = None
  /\ SPOTIFY_WEBSOCKET_MESSAGE (invoke 0) "not json" (new_World ready_host)
     = Thrown SyntaxError (new_World ready_host)
  /\ JSON_parse (js "{'type':'garbage','payloads':[]}")
     = Some (VObj [("type", VStr "garbage"); ("payloads", VArr [])])
  /\ SPOTIFY_WEBSOCKET_MESSAGE (invoke 0) (js "{'type':'garbage','payloads':[]}")
       (new_World ready_host)
     = Thrown TypeError (new_World ready_host).
Proof. repeat split; vm_compute; reflexivity. Qed.

(** C4, amended: a message that decodes as JSON to a value without a
    truthy top-level [type] or [payloads] is dropped: the message handler
    returns, and the world, its trace included, is unchanged.  The
    heartbeat listener of an account does the same unless the decoded type
    is ["pong"]. *)
Theorem C4_message_without_type_or_payloads_is_dropped
    (call : Callback -> list value -> M unit) (account text : string) (data : value)
    (w : World) :
  JSON_parse text = Some data ->
  truthy (get_opt data "type") = false \/ truthy (get_opt data "payloads") = false ->
  SPOTIFY_WEBSOCKET_MESSAGE call text w = Returned tt w
  /\ (is_string "pong" (get_opt data "type") = false ->
      pong_handler call account text w = Returned tt w).
Proof.
  intros Hparse Hlacks. split.
  - unfold SPOTIFY_WEBSOCKET_MESSAGE, JSON_parse_or_throw.
    rewrite Hparse. unfold bind at 1, ret at 1.
    destruct Hlacks as [-> | ->]; [reflexivity|].
    by rewrite andb_false_r.
  - intros Hpong. unfold pong_handler, JSON_parse_or_throw.
    rewrite Hparse. unfold bind at 1, ret at 1.
    rewrite Hpong. by rewrite andb_false_r.
Qed.

Lemma C4_message_without_type_or_payloads_is_dropped_witness :
  SPOTIFY_WEBSOCKET_MESSAGE (invoke 0) (js "{'type':'garbage'}") bound_to_A
  = Returned tt bound_to_A
  /\ pong_handler (invoke 0) "A" (js "{'type':'garbage'}") bound_to_A = Returned tt bound_to_A.
Proof.
  destruct (C4_message_without_type_or_payloads_is_dropped (invoke 0) "A"
              (js "{'type':'garbage'}") (VObj [("type", VStr "garbage")]) bound_to_A)
    as [Hmessage Hpong].
  - vm_compute. reflexivity.
  - right. vm_compute. reflexivity.
  - split; [exact Hmessage|]. apply Hpong. vm_compute. reflexivity.
Defined.

(** ** What a computation leaves alone *)

Section Preservation.

Context (R : World -> World -> Prop).
Context (R_refl : forall w, R w w).
Context (R_trans : forall a b c, R a b -> R b c -> R a c).

Lemma preserves_ret {A : Type} (a : A) : preserves R (ret a).
Proof. intros w. apply R_refl. Qed.

Lemma preserves_throw {A : Type} (e : Exn) : preserves R (@throw A e).
Proof. intros w. apply R_refl. Qed.

Lemma preserves_gets {A : Type} (f : World -> A) : preserves R (gets f).
Proof. intros w. apply R_refl. Qed.

Lemma preserves_attempt {A : Type} (o : option A) : preserves R (attempt o).
Proof. destruct o; [apply preserves_ret | apply preserves_throw]. Qed.

Lemma preserves_modify (f : World -> World) :
  (forall w, R w (f w)) -> preserves R (modify f).
Proof. intros H w. apply H. Qed.

Lemma preserves_bind {A B : Type} (m : M A) (k : A -> M B) :
  preserves R m -> (forall a, preserves R (k a)) -> preserves R (bind m k).
Proof.
  intros Hm Hk w. unfold bind. specialize (Hm w).
  destruct (m w) as [a w' | e w']; simpl in *; [|done].
  eapply R_trans; [exact Hm | apply Hk].
Qed.

Lemma preserves_forEach {A : Type} (l : list A) (f : A -> M unit) :
  (forall x, preserves R (f x)) -> preserves R (forEach l f).
Proof.
  intros Hf. induction l as [|x l IH]; simpl.
  - apply preserves_ret.
  - apply preserves_bind; [apply Hf | intros _; apply IH].
Qed.

Lemma preserves_times (n : nat) (m : M unit) :
  preserves R m -> preserves R (times n m).
Proof.
  intros Hm. induction n as [|n IH]; simpl.
  - apply preserves_ret.
  - apply preserves_bind; [apply Hm | intros _; apply IH].
Qed.

Context (R_record : forall e w, R w (record e w)).

Lemma preserves_detached (m : M unit) : preserves R m -> preserves R (detached m).
Proof.
  intros Hm w. unfold detached. specialize (Hm w).
  destruct (m w) as [a w' | e w']; simpl in *; [done|].
  eapply R_trans; [exact Hm | apply R_record].
Qed.

Lemma preserves_unawaited (m rest : M unit) :
  preserves R m -> preserves R rest -> preserves R (unawaited m rest).
Proof.
  intros Hm Hrest w. unfold unawaited. specialize (Hrest w).
  pose proof (preserves_detached m Hm) as Hdetached.
  destruct (rest w) as [a w' | e w']; simpl in *;
    (eapply R_trans; [exact Hrest | apply Hdetached]).
Qed.

Lemma preserves_log_error (origin message : string) :
  preserves R (log_error origin message).
Proof. apply preserves_modify. intros w. apply R_record. Qed.

(** An emission does what recording and the calls do. *)
Lemma preserves_emit (call : Callback -> list value -> M unit)
    (name : string) (data : list value) :
  (forall f args, preserves R (call f args)) ->
  preserves R (emit call name data).
Proof.
  intros Hcall. unfold emit.
  apply preserves_bind; [apply preserves_modify; intros w; apply R_record|].
  intros _. apply preserves_bind; [apply preserves_gets|].
  intros [[f|fs]|].
  - apply preserves_bind; [apply preserves_modify; intros w; apply R_record|].
    intros _. apply Hcall.
  - apply preserves_forEach. intros f.
    apply preserves_bind; [apply preserves_modify; intros w; apply R_record|].
    intros _. apply Hcall.
  - apply preserves_ret.
Qed.

(** What follows the record of an emission is the calls. *)
Lemma emit_from_its_record (call : Callback -> list value -> M unit)
    (name : string) (data : list value) (w : World) :
  (forall f args, preserves R (call f args)) ->
  R (record (Emitted name data) w) (world_of (emit call name data w)).
Proof.
  intros Hcall. unfold emit. unfold bind at 1, modify at 1.
  match goal with |- R ?w0 (world_of (?k ?w0)) => assert (Hk : preserves R k) end.
  { apply preserves_bind; [apply preserves_gets|].
    intros [[f|fs]|].
    - apply preserves_bind; [apply preserves_modify; intros w0; apply R_record|].
      intros _. apply Hcall.
    - apply preserves_forEach. intros f.
      apply preserves_bind; [apply preserves_modify; intros w0; apply R_record|].
      intros _. apply Hcall.
    - apply preserves_ret. }
  apply Hk.
Qed.

Context (R_listeners : forall l w, R w (set_listeners l w)).

Lemma preserves_addEventListener (ws : WebSocket) (h : SocketListener) :
  preserves R (addEventListener ws h).
Proof.
  apply preserves_modify. intros w.
  destruct (decide ((ws, h) ∈ listeners w)); [apply R_refl | apply R_listeners].
Qed.

Lemma preserves_removeEventListener (ws : WebSocket) (h : SocketListener) :
  preserves R (removeEventListener ws h).
Proof. apply preserves_modify. intros w. apply R_listeners. Qed.

Lemma preserves_afterSpotifyUpdate (call : Callback -> list value -> M unit) :
  (forall f args, preserves R (call f args)) ->
  preserves R (afterSpotifyUpdate call).
Proof.
  intros Hcall. unfold afterSpotifyUpdate.
  apply preserves_bind; [apply preserves_gets|]. intros s.
  apply preserves_bind; [apply preserves_gets|]. intros a.
  assert (Hrebind : forall s', preserves R
            match Socket.ws s' with
            | Some ws =>
                (addEventListener ws hSPOTIFY_WEBSOCKET_MESSAGE ;;
                 emit call "websocket" [VSocket ws])%js
            | None => emit call "error" [VStr "websocket"]
            end).
  { intros s'. destruct (Socket.ws s').
    - apply preserves_bind; [apply preserves_addEventListener|].
      intros _. by apply preserves_emit.
    - by apply preserves_emit. }
  destruct (Socket.ws s) as [ws|].
  - destruct (negb (String.eqb (Socket.accountId s) a)); [|apply preserves_ret].
    apply preserves_bind; [apply preserves_removeEventListener|]. intros _.
    repeat (apply preserves_bind; [apply preserves_gets|]; intros ?).
    apply Hrebind.
  - repeat (apply preserves_bind; [apply preserves_gets|]; intros ?).
    apply Hrebind.
Qed.

End Preservation.

(** The update handler and the functions that reach it, given what the
    rebinding leaves alone. *)
Section Relay.

Context (R : World -> World -> Prop).
Context (R_refl : forall w, R w w).
Context (R_trans : forall a b c, R a b -> R b c -> R a c).
Context (R_record : forall e w, R w (record e w)).
Context (R_accountId : forall x w, R w (set_this (Priv.set_accountId x (this w)) w)).
Context (R_rebinding : forall call : Callback -> list value -> M unit,
           (forall f args, preserves R (call f args)) ->
           preserves R (afterSpotifyUpdate call)).

Lemma preserves_SPOTIFY_UPDATE (call : Callback -> list value -> M unit) (id : string) :
  (forall f args, preserves R (call f args)) ->
  preserves R (SPOTIFY_UPDATE call id).
Proof.
  intros Hcall. unfold SPOTIFY_UPDATE.
  apply preserves_bind; [done | by apply preserves_gets|]. intros a.
  apply preserves_bind; [done | |].
  { destruct (String.eqb a ""); [|by apply preserves_ret].
    apply preserves_modify. intros w. apply R_accountId. }
  intros _. apply preserves_bind; [done | by apply preserves_gets|]. intros a'.
  destruct (negb (String.eqb a' id)); [by apply preserves_log_error|].
  apply preserves_bind; [done | by apply preserves_emit|]. intros _.
  apply preserves_detached; [done | done |]. by apply R_rebinding.
Qed.

(** A call of a registered function changes what recording, adopting an
    account and rebinding change, and nothing else. *)
Lemma preserves_invoke (d : nat) (f : Callback) (args : list value) :
  preserves R (invoke d f args).
Proof.
  revert f args. induction d as [|d IH]; intros [id raises|serial] args; simpl.
  - destruct raises; [by apply preserves_throw | by apply preserves_ret].
  - by apply preserves_throw.
  - destruct raises; [by apply preserves_throw | by apply preserves_ret].
  - destruct args as [|[| | | |a| | |] rest]; try (by apply preserves_ret).
    by apply preserves_SPOTIFY_UPDATE.
Qed.

Lemma preserves_pong_handler (d : nat) (account text : string) :
  preserves R (pong_handler (invoke d) account text).
Proof.
  unfold pong_handler, JSON_parse_or_throw.
  apply preserves_bind; [done | |].
  { destruct (JSON_parse text); [by apply preserves_ret | by apply preserves_throw]. }
  intros data. destruct (_ && _); [|by apply preserves_ret].
  apply preserves_emit; [done..|]. intros f args. apply preserves_invoke.
Qed.

End Relay.

Lemma extends_refl (w : World) : extends w w.
Proof. exists []. by rewrite app_nil_r. Qed.

Lemma extends_trans (a b c : World) : extends a b -> extends b c -> extends a c.
Proof.
  intros [es Hb] [es' Hc]. exists (es ++ es'). by rewrite Hc, Hb, app_assoc.
Qed.

Lemma extends_record (e : Event) (w : World) : extends w (record e w).
Proof. by exists [e]. Qed.

Lemma extends_listeners (l : list (WebSocket * SocketListener)) (w : World) :
  extends w (set_listeners l w).
Proof. exists []. simpl. by rewrite app_nil_r. Qed.

Lemma extends_accountId (x : string) (w : World) :
  extends w (set_this (Priv.set_accountId x (this w)) w).
Proof. exists []. simpl. by rewrite app_nil_r. Qed.

(** Goals on [keeps] for an observation that computes. *)
Ltac keeps_atom :=
  first
    [ solve [ intros; unfold keeps in *; simpl in *; repeat case_match; simpl in *;
              first [reflexivity | congruence] ]
    | solve [ intros; apply preserves_afterSpotifyUpdate;
              first [ assumption
                    | intros; unfold keeps in *; simpl in *; first [reflexivity | congruence] ] ] ].

(** Consumers and the relay leave alone what the update handler leaves
    alone. *)
Ltac keeps_invoke :=
  apply preserves_invoke; keeps_atom.

Ltac frame_step atom :=
  lazymatch goal with
  | |- preserves _ (ret _) => apply preserves_ret; atom
  | |- preserves _ (throw _) => apply preserves_throw; atom
  | |- preserves _ (gets _) => apply preserves_gets; atom
  | |- preserves _ (attempt _) => apply preserves_attempt; atom
  | |- preserves _ (modify _) => apply preserves_modify; atom
  | |- preserves _ (bind _ _) => apply preserves_bind; [atom | | intros ?]
  | |- preserves _ (forEach _ _) => apply preserves_forEach; [atom | atom | intros ?]
  | |- preserves _ (times _ _) => apply preserves_times; [atom | atom |]
  | |- preserves _ (detached _) => apply preserves_detached; [atom | atom |]
  | |- preserves _ (unawaited _ _) => apply preserves_unawaited; [atom | atom | |]
  | |- preserves _ (emit _ _ _) =>
      apply preserves_emit; [atom | atom | atom | intros ? ?]
  | |- preserves _ (invoke _ _ _) => apply preserves_invoke; atom
  | |- preserves _ (SPOTIFY_UPDATE _ _) =>
      apply preserves_SPOTIFY_UPDATE; [atom .. | intros ? ?]
  | |- preserves _ (pong_handler (invoke _) _ _) => apply preserves_pong_handler; atom
  | |- preserves _ (match ?x with _ => _ end) => destruct x
  end.

Ltac unfold_watcher :=
  unfold on, removeAllListeners, set_accountId, registerFlux, removeFlux, addPongEvent,
    removePongEvent, removeSocketEvent, load, unload, REGISTER_PONG_EVENT,
    SPOTIFY_WEBSOCKET_MESSAGE, message_event, run_listener, JSON_parse_or_throw,
    addEventListener, removeEventListener, dispatcher_subscribe, dispatcher_unsubscribe,
    log_error, log_warn, modify_this.

Ltac frame_with atom := repeat first [frame_step atom | progress unfold_watcher].
Ltac frame := frame_with keeps_atom.

(** ** The message handlers, continued (C9) *)

(** C9: a decoded message that passes the guard and whose first event is
    [PLAYER_STATE_CHANGED] with a state payload of [progress_ms = 1234],
    [duration_ms = 9999], [repeat_state = "track"], [shuffle_state = true]:
    the handler stores the payload in [#state] and then emits
    [message("PLAYER_STATE_CHANGED", payload)], so that record follows at
    once in the trace; the [state] getter reads the payload back, with
    those four fields, also after the consumers of the emission have run. *)
Theorem C9_player_state_round_trip (call : Callback -> list value -> M unit)
    (text : string) (data st : value) (w : World) :
  JSON_parse text = Some data ->
  truthy (get_opt data "type") = true ->
  truthy (get_opt data "payloads") = true ->
  is_string "pong" (get_opt data "type") = false ->
  first_event_type data = Some (VStr "PLAYER_STATE_CHANGED") ->
  first_event_payload data "state" = Some st ->
  get st "progress_ms" = Some (VNum 1234 0) ->
  get st "duration_ms" = Some (VNum 9999 0) ->
  get st "repeat_state" = Some (VStr "track") ->
  get st "shuffle_state" = Some (VBool true) ->
  let stored := set_this (Priv.set_state st (this w)) w in
  let message := Emitted "message" [VStr "PLAYER_STATE_CHANGED"; st] in
  SPOTIFY_WEBSOCKET_MESSAGE call text w
  = emit call "message" [VStr "PLAYER_STATE_CHANGED"; st] stored
  /\ (_events w !! "message" = None ->
      SPOTIFY_WEBSOCKET_MESSAGE call text w = Returned tt (record message stored))
  /\ (forall d,
        let final := world_of (SPOTIFY_WEBSOCKET_MESSAGE (invoke d) text w) in
        (exists rest, trace final = trace w ++ message :: rest)
        /\ state final = st)
  /\ state stored = st
  /\ get (state stored) "progress_ms" = Some (VNum 1234 0)
  /\ get (state stored) "duration_ms" = Some (VNum 9999 0)
  /\ get (state stored) "repeat_state" = Some (VStr "track")
  /\ get (state stored) "shuffle_state" = Some (VBool true).
Proof.
  intros Hparse Htype Hpayloads Hpong Hev Hst Hp Hd Hr Hs stored message.
  assert (Hstate : forall w0, Priv.state (this w0) = st -> state w0 = st).
  { intros w0 Hw0. unfold state. rewrite Hw0. by destruct st. }
  assert (Hrun : SPOTIFY_WEBSOCKET_MESSAGE call text w
                 = emit call "message" [VStr "PLAYER_STATE_CHANGED"; st] stored).
  { unfold SPOTIFY_WEBSOCKET_MESSAGE, JSON_parse_or_throw.
    rewrite Hparse. unfold bind at 1, ret at 1.
    rewrite Htype, Hpayloads, Hpong. simpl.
    rewrite Hev, Hst. reflexivity. }
  assert (Hrun' : forall d, SPOTIFY_WEBSOCKET_MESSAGE (invoke d) text w
                 = emit (invoke d) "message" [VStr "PLAYER_STATE_CHANGED"; st] stored).
  { intros d. unfold SPOTIFY_WEBSOCKET_MESSAGE, JSON_parse_or_throw.
    rewrite Hparse. unfold bind at 1, ret at 1.
    rewrite Htype, Hpayloads, Hpong. simpl.
    rewrite Hev, Hst. reflexivity. }
  rewrite (Hstate stored) by reflexivity.
  split; [exact Hrun|]. split; [|split; [|done]].
  - intros Hnone. rewrite Hrun. unfold emit, bind, modify, gets. simpl.
    by rewrite Hnone.
  - intros d final. subst final. rewrite Hrun'. split.
    + destruct (emit_from_its_record extends extends_refl extends_trans extends_record
                  (invoke d) "message" [VStr "PLAYER_STATE_CHANGED"; st] stored) as [es Hes].
      { intros f args.
        apply (preserves_invoke extends extends_refl extends_trans extends_record
                 extends_accountId).
        intros call0 Hcall0.
        by apply (preserves_afterSpotifyUpdate extends extends_refl extends_trans
                    extends_record extends_listeners). }
      exists es. rewrite Hes. simpl. by rewrite <- app_assoc.
    + apply Hstate.
      pose proof (emit_from_its_record (keeps (fun w0 => Priv.state (this w0)))) as Hkeep.
      unfold keeps in Hkeep at 4. rewrite Hkeep; [reflexivity | keeps_atom ..|].
      intros f args. keeps_invoke.
Qed.

Lemma C9_player_state_round_trip_witness :
  let stored := set_this (Priv.set_state player_state_payload (this bound_to_A)) bound_to_A in
  SPOTIFY_WEBSOCKET_MESSAGE (invoke 0) player_state_text bound_to_A
  = Returned tt
      (record (Emitted "message" [VStr "PLAYER_STATE_CHANGED"; player_state_payload]) stored)
  /\ state stored = player_state_payload.
Proof.
  intros stored.
  destruct (C9_player_state_round_trip (invoke 0) player_state_text
              (VObj [("type", VStr "message");
                     ("payloads",
                      VArr [VObj [("events",
                        VArr [VObj [("type", VStr "PLAYER_STATE_CHANGED");
                                    ("event", VObj [("state", player_state_payload)])]])]])])
              player_state_payload bound_to_A)
    as (_ & Hquiet & _ & Hstate & _);
    try (vm_compute; reflexivity).
  split; [apply Hquiet; vm_compute; reflexivity | exact Hstate].
Defined.

(** ** The heartbeat installation (C8) *)

(** The world after the fallback subscription. *)
Lemma addPongEvent_installs_the_fallback (bus : Dispatcher) (w : World) :
  getAllSpotifySockets (Host.store (host w)) = None ->
  Priv.dispatcher (this w) = Some bus ->
  Priv.pongListenerRegistered (this w) = false ->
  addPongEvent w
  = Returned tt
      (set_this
         (Priv.set_pongListenerRegistered true (Priv.set_sockets None (this w)))
         (record (Subscribed bus "SPOTIFY_PROFILE_UPDATE" hREGISTER_PONG_EVENT) w)).
Proof.
  intros Hnone Hbus Hflag.
  unfold addPongEvent, dispatcher_subscribe, bind, modify, modify_this, gets. simpl.
  rewrite Hnone. simpl. rewrite Hflag. simpl. rewrite Hbus. reflexivity.
Qed.

(** With the flag set, a call while no socket is listed changes nothing. *)
Lemma addPongEvent_guarded (w : World) :
  getAllSpotifySockets (Host.store (host w)) = None ->
  Priv.sockets (this w) = None ->
  Priv.pongListenerRegistered (this w) = true ->
  addPongEvent w = Returned tt w.
Proof.
  intros Hnone Hsockets Hflag.
  unfold addPongEvent, bind, modify, gets. simpl.
  rewrite Hnone. simpl. rewrite Hflag. simpl.
  destruct w as [ev [a dp dv st sk hs so rg fl] h ls n tr]. simpl in *. by subst.
Qed.

Lemma times_addPongEvent_guarded (n : nat) (w : World) :
  getAllSpotifySockets (Host.store (host w)) = None ->
  Priv.sockets (this w) = None ->
  Priv.pongListenerRegistered (this w) = true ->
  times n addPongEvent w = Returned tt w.
Proof.
  intros Hnone Hsockets Hflag. induction n as [|n IH]; [reflexivity|].
  simpl. unfold bind. by rewrite addPongEvent_guarded.
Qed.

(** Before a dispatch bus is found the fallback cannot be subscribed: the
    call throws, with the flag still unset. *)
Lemma addPongEvent_without_a_bus (w : World) :
  getAllSpotifySockets (Host.store (host w)) = None ->
  Priv.dispatcher (this w) = None ->
  Priv.pongListenerRegistered (this w) = false ->
  addPongEvent w = Thrown TypeError (set_this (Priv.set_sockets None (this w)) w).
Proof.
  intros Hnone Hbus Hflag.
  unfold addPongEvent, dispatcher_subscribe, bind, modify, modify_this, gets. simpl.
  rewrite Hnone. simpl. rewrite Hflag. simpl. rewrite Hbus. reflexivity.
Qed.

(** C8, as stated, fails: on a watcher that holds no dispatch bus (a new
    one here), while no socket is listed, every call of the installation
    throws a [TypeError] at the subscription and leaves the flag unset:
    after three calls the fallback is installed not once but never. *)
Lemma C8_no_fallback_without_a_bus :
  let w := new_World starting_host in
  getAllSpotifySockets (Host.store (host w)) = None
  /\ addPongEvent w = Thrown TypeError w
  /\ after 0 [op_addPongEvent; op_addPongEvent; op_addPongEvent] w = w
  /\ trace w = []
  /\ Priv.pongListenerRegistered (this w) = false.
Proof.
  split; [|split; [|split; [|split]]]; vm_compute; reflexivity.
Qed.

(** C8, amended: while the resolver lists no socket, from a watcher whose
    flag is not yet set.  With a dispatch bus held, any number of calls of
    [addPongEvent] in a row, one at least, subscribes the readiness
    fallback exactly once: the trace gains that one subscription and
    nothing else, the flag is set, and every further run of calls leaves
    the world as it is.  With no bus held, the first call throws a
    [TypeError] at the subscription, which ends the run, and so does every
    later call: nothing is subscribed and the flag stays unset. *)
Theorem C8_readiness_fallback_is_installed_once_given_a_bus (n : nat) (w : World) :
  getAllSpotifySockets (Host.store (host w)) = None ->
  Priv.pongListenerRegistered (this w) = false ->
  (forall bus, Priv.dispatcher (this w) = Some bus ->
     exists w',
       times (S n) addPongEvent w = Returned tt w'
       /\ trace w' = trace w ++ [Subscribed bus "SPOTIFY_PROFILE_UPDATE" hREGISTER_PONG_EVENT]
       /\ Priv.pongListenerRegistered (this w') = true
       /\ forall m, times m addPongEvent w' = Returned tt w')
  /\ (Priv.dispatcher (this w) = None ->
      exists w',
        addPongEvent w = Thrown TypeError w'
        /\ times (S n) addPongEvent w = Thrown TypeError w'
        /\ (forall m, times (S m) addPongEvent w' = Thrown TypeError w')
        /\ trace w' = trace w
        /\ Priv.pongListenerRegistered (this w') = false).
Proof.
  intros Hnone Hflag. split.
  - intros bus Hbus. eexists. split; [|split; [|split]].
    + simpl. unfold bind at 1.
      rewrite (addPongEvent_installs_the_fallback bus) by done.
      by apply times_addPongEvent_guarded.
    + reflexivity.
    + reflexivity.
    + intros m. by apply times_addPongEvent_guarded.
  - intros Hbus. exists (set_this (Priv.set_sockets None (this w)) w).
    assert (Hfirst : addPongEvent w
                     = Thrown TypeError (set_this (Priv.set_sockets None (this w)) w))
      by by apply addPongEvent_without_a_bus.
    assert (Hlater : addPongEvent (set_this (Priv.set_sockets None (this w)) w)
                     = Thrown TypeError (set_this (Priv.set_sockets None (this w)) w)).
    { by rewrite addPongEvent_without_a_bus. }
    split; [exact Hfirst|]. split; [|split; [|by split]].
    + simpl. unfold bind. by rewrite Hfirst.
    + intros m. simpl. unfold bind. by rewrite Hlater.
Qed.

Lemma C8_readiness_fallback_is_installed_once_given_a_bus_witness :
  (exists w',
     times 3 addPongEvent (world_of (registerFlux (invoke 0) (new_World starting_host)))
     = Returned tt w'
     /\ trace w'
        = trace (world_of (registerFlux (invoke 0) (new_World starting_host)))
          ++ [Subscribed CommonFlux "SPOTIFY_PROFILE_UPDATE" hREGISTER_PONG_EVENT]
     /\ Priv.pongListenerRegistered (this w') = true
     /\ forall m, times m addPongEvent w' = Returned tt w')
  /\ (exists w',
        times 3 addPongEvent (new_World starting_host) = Thrown TypeError w'
        /\ trace w' = []
        /\ Priv.pongListenerRegistered (this w') = false).
Proof.
  destruct (C8_readiness_fallback_is_installed_once_given_a_bus 2
              (world_of (registerFlux (invoke 0) (new_World starting_host))))
    as [Hbus _]; [reflexivity | reflexivity |].
  destruct (C8_readiness_fallback_is_installed_once_given_a_bus 2 (new_World starting_host))
    as [_ Hnone]; [reflexivity | reflexivity |].
  split; [apply (Hbus CommonFlux); reflexivity|].
  destruct (Hnone eq_refl) as (w' & _ & Hrun & _ & Htrace & Hflag).
  exists w'. by split; [|split].
Defined.

(** The readiness handler unsubscribes itself from another event than the
    one it was subscribed on, and the installation it has started makes no
    second subscription. *)
Lemma REGISTER_PONG_EVENT_after_the_fallback (bus : Dispatcher) (w : World) :
  getAllSpotifySockets (Host.store (host w)) = None ->
  Priv.sockets (this w) = None ->
  Priv.dispatcher (this w) = Some bus ->
  Priv.pongListenerRegistered (this w) = true ->
  REGISTER_PONG_EVENT w
  = Returned tt (record (Unsubscribed bus "GAMES_DATABASE_UPDATE" hREGISTER_PONG_EVENT) w).
Proof.
  intros Hnone Hsockets Hbus Hflag.
  unfold REGISTER_PONG_EVENT, unawaited.
  unfold dispatcher_unsubscribe, bind, gets, modify. rewrite Hbus.
  unfold detached. by rewrite addPongEvent_guarded.
Qed.

(** ** Unloading (C7) *)

Lemma world_of_bind {A B : Type} (m : M A) (k : A -> M B) (w : World) :
  world_of (bind m k w)
  = match m w with
    | Returned a w' => world_of (k a w')
    | Thrown _ w' => w'
    end.
Proof. unfold bind. by destruct (m w). Qed.

Lemma returns_bind {A B : Type} (m : M A) (k : A -> M B) (w : World) :
  returns (m w) = true ->
  (forall a w', returns (k a w') = true) ->
  returns (bind m k w) = true.
Proof. intros Hm Hk. unfold bind. destruct (m w); [apply Hk | done]. Qed.

Lemma returns_forEach {A : Type} (l : list A) (f : A -> M unit) (w : World) :
  (forall x w', returns (f x w') = true) ->
  returns (forEach l f w) = true.
Proof.
  intros Hf. revert w. induction l as [|x l IH]; intros w; [reflexivity|].
  simpl. apply returns_bind; [apply Hf | intros _ w'; apply IH].
Qed.









Lemma forEach_unsubscribe (bus : Dispatcher) (h : FluxHandler) (events : list string)
    (w : World) :
  Priv.dispatcher (this w) = Some bus ->
  forEach events (fun event => dispatcher_unsubscribe event h) w
  = Returned tt (records (map (fun event => Unsubscribed bus event h) events) w).
Proof.
  revert w. induction events as [|event events IH]; intros w Hbus; simpl.
  - by rewrite records_nil.
  - unfold bind at 1. unfold dispatcher_unsubscribe at 1, bind at 1, gets at 1.
    rewrite Hbus. unfold modify. rewrite IH by done. by rewrite records_record.
Qed.

(** With the five subscriptions in place, [removeFlux] unsubscribes them,
    clears the flag and emits [unregistered]. *)
Lemma removeFlux_registered (call : Callback -> list value -> M unit) (bus : Dispatcher)
    (w : World) :
  Priv.dispatcher (this w) = Some bus ->
  registered w = true ->
  removeFlux call w
  = emit call "unregistered" []
      (set_this (Priv.set_registered false (this w))
         (records (map (fun event => Unsubscribed bus event hSPOTIFY_UPDATE) flux_events) w)).
Proof.
  intros Hbus Hreg. unfold removeFlux.
  unfold bind at 1, gets at 1. unfold bind at 1, gets at 1. rewrite Hbus, Hreg.
  rewrite bool_decide_eq_true_2 by (by eexists).
  change (negb true || negb true) with false. cbv iota.
  unfold bind at 1.
  rewrite (forEach_unsubscribe bus) by done.
  unfold bind at 1, modify_this, modify. reflexivity.
Qed.








(** ** The stored state and the getters (C10) *)

(** No operation writes [#socket]. *)
Lemma run_op_keeps_the_socket (d : nat) (op : Op) :
  preserves (keeps (fun w => Priv.socket (this w))) (run_op d op).
Proof. destruct op; simpl; frame. Qed.

Lemma after_keeps_the_socket (d : nat) (history : list Op) (w : World) :
  Priv.socket (this (after d history w)) = Priv.socket (this w).
Proof.
  revert w. induction history as [|op history IH]; intros w; [reflexivity|].
  simpl. rewrite IH. apply run_op_keeps_the_socket.
Qed.

Lemma bind_ret_l {A B : Type} (a : A) (k : A -> M B) : bind (ret a) k = k a.
Proof. reflexivity. Qed.

Lemma bind_throw_l {A B : Type} (e : Exn) (k : A -> M B) : bind (throw e) k = throw e.
Proof. reflexivity. Qed.

(** The message handler writes [#state] or [#devices] for a state message
    only. *)
Lemma SPOTIFY_WEBSOCKET_MESSAGE_keeps_the_store (d : nat) (text : string) :
  state_message text = false ->
  preserves (keeps stored) (SPOTIFY_WEBSOCKET_MESSAGE (invoke d) text).
Proof.
  unfold state_message, SPOTIFY_WEBSOCKET_MESSAGE, JSON_parse_or_throw.
  destruct (JSON_parse text) as [data|];
    [|intros _; rewrite bind_throw_l; frame].
  intros Hstate. rewrite bind_ret_l.
  destruct (truthy _ && truthy _ && negb _); [|frame].
  simpl in Hstate.
  destruct (first_event_type data) as [ty|];
    [|simpl attempt; rewrite bind_throw_l; frame].
  apply orb_false_elim in Hstate as [Hplayer Hdevice].
  simpl attempt. rewrite !bind_ret_l, Hplayer, Hdevice.
  frame.
Qed.

Lemma run_op_keeps_the_store (d : nat) (op : Op) :
  carries_state op = false ->
  preserves (keeps stored) (run_op d op).
Proof.
  destruct op; simpl; intros Hop;
    try (by apply SPOTIFY_WEBSOCKET_MESSAGE_keeps_the_store);
    try (frame; fail).
  unfold message_event.
  apply preserves_bind; [keeps_atom | frame | intros attached].
  apply preserves_forEach; [keeps_atom | keeps_atom | intros [ws' [|account serial]]];
    simpl; apply preserves_detached; try keeps_atom.
  - by apply SPOTIFY_WEBSOCKET_MESSAGE_keeps_the_store.
  - frame.
Qed.

Lemma after_keeps_the_store (d : nat) (history : list Op) (w : World) :
  Forall (fun op => carries_state op = false) history ->
  stored (after d history w) = stored w.
Proof.
  intros Hquiet. revert w.
  induction Hquiet as [|op history Hop _ IH]; intros w; [reflexivity|].
  simpl. rewrite IH. by apply run_op_keeps_the_store.
Qed.

(** C10: after any history of operations none of which is a player-state
    or device-state message, on a watcher built by the constructor, the
    [state] getter returns the empty object and the [devices] getter the
    empty list; and in no world does a getter return [undefined] or
    [null]. *)
Theorem C10_getters_default_to_empty (d : nat) (h : Host.t) (history : list Op) (w : World) :
  (Forall (fun op => carries_state op = false) history ->
   state (after d history (new_World h)) = VObj []
   /\ devices (after d history (new_World h)) = VArr [])
  /\ state w <> VUndefined /\ state w <> VNull
  /\ devices w <> VUndefined /\ devices w <> VNull.
Proof.
  split.
  - intros Hquiet.
    pose proof (after_keeps_the_store d history (new_World h) Hquiet) as Hstored.
    unfold stored in Hstored. injection Hstored as Hstate Hdevices.
    unfold state, devices. by rewrite Hstate, Hdevices.
  - unfold state, devices.
    by destruct (Priv.state (this w)), (Priv.devices (this w)).
Qed.

Lemma C10_getters_default_to_empty_witness :
  let history :=
    [op_load; op_SPOTIFY_UPDATE "A"; op_SPOTIFY_WEBSOCKET_MESSAGE (js "{'type':'pong'}");
     op_message_event 1 (js "{'type':'pong'}"); op_unload] in
  state (after 1 history (new_World ready_host)) = VObj []
  /\ devices (after 1 history (new_World ready_host)) = VArr [].
Proof.
  intros history.
  apply (C10_getters_default_to_empty 1 ready_host history (new_World ready_host)).
  repeat constructor.
Defined.

(** ** No connection is ever bound (C3, continued) *)

Lemma stays_unbound_refl (w : World) : stays_unbound w w.
Proof. by intros H. Qed.

Lemma stays_unbound_trans (a b c : World) :
  stays_unbound a b -> stays_unbound b c -> stays_unbound a c.
Proof. unfold stays_unbound. tauto. Qed.

Lemma stays_unbound_record (e : Event) (w : World) : stays_unbound w (record e w).
Proof. by intros H. Qed.

(** From an unbound world the rebinding attaches nothing: it is the [error]
    emission. *)
Lemma stays_unbound_rebinding (call : Callback -> list value -> M unit) :
  (forall f args, preserves stays_unbound (call f args)) ->
  preserves stays_unbound (afterSpotifyUpdate call).
Proof.
  intros Hcall w Hw.
  rewrite afterSpotifyUpdate_unbound by apply Hw.
  by apply (preserves_emit stays_unbound stays_unbound_refl stays_unbound_trans
              stays_unbound_record call "error" [VStr "websocket"] Hcall w).
Qed.

Lemma pong_listeners_attached (ls : list (WebSocket * SocketListener)) (ws : WebSocket)
    (account : string) (n : nat) :
  Forall (fun l => l.2 <> hSPOTIFY_WEBSOCKET_MESSAGE) ls ->
  Forall (fun l => l.2 <> hSPOTIFY_WEBSOCKET_MESSAGE) (ls ++ [(ws, hPong account n)]).
Proof. intros H. apply Forall_app_2; [done|]. by repeat constructor. Qed.

Lemma listeners_detached (ls : list (WebSocket * SocketListener))
    (gone : WebSocket * SocketListener) :
  Forall (fun l => l.2 <> hSPOTIFY_WEBSOCKET_MESSAGE) ls ->
  Forall (fun l => l.2 <> hSPOTIFY_WEBSOCKET_MESSAGE) (filter (fun l => l ≠ gone) ls).
Proof.
  rewrite !Forall_forall. intros H l Hl.
  apply list_elem_of_filter in Hl as [_ Hl]. by apply H.
Qed.

Ltac unbound_atom :=
  first
    [ solve [ intros; apply stays_unbound_rebinding; assumption ]
    | solve [ intros ? [? ?]; split; [assumption | by apply listeners_detached] ]
    | solve [ intros; unfold stays_unbound, unbound in *; simpl in *;
              repeat case_match; simpl in *;
              intuition (auto using pong_listeners_attached, listeners_detached) ] ].

Lemma run_op_stays_unbound (d : nat) (op : Op) :
  preserves stays_unbound (run_op d op).
Proof. destruct op; simpl; frame_with unbound_atom. Qed.

Lemma after_stays_unbound (d : nat) (history : list Op) (w : World) :
  unbound w -> unbound (after d history w).
Proof.
  revert w. induction history as [|op history IH]; intros w Hw; [done|].
  simpl. apply IH. by apply run_op_stays_unbound.
Qed.

(** X12: Whatever happens to a watcher built by the constructor, [#socket.ws]
    stays [undefined], the message handler is attached to no connection,
    and the rebinding after an update is the [error] emission. *)
Lemma no_history_binds_a_connection (call : Callback -> list value -> M unit)
    (d : nat) (h : Host.t) (history : list Op) :
  let w := after d history (new_World h) in
  unbound w
  /\ afterSpotifyUpdate call w = emit call "error" [VStr "websocket"] w.
Proof.
  assert (Hw : unbound (after d history (new_World h))).
  { apply after_stays_unbound. by split. }
  split; [exact Hw|]. apply afterSpotifyUpdate_unbound, Hw.
Qed.

(** * Further properties of the code *)

(** ** The resolvers *)

Lemma own_In (key : string) (accounts : list (string * Account.t)) (a : Account.t) :
  own key accounts = Some a -> In (key, a) accounts.
Proof.
  induction accounts as [|[k b] rest IH]; simpl; [done|].
  destruct (String.eqb_spec k key) as [->|_].
  - intros [= ->]. by left.
  - intros H. right. by apply IH.
Qed.

(** X1: [getSpotifyAccount] answers from the registry only: an account it
    returns is an entry of the registry.  The empty string is treated as an
    omitted id; with the id omitted the answer is absent only without the
    host module or with an empty registry, and a non-empty id is looked up
    under its own key. *)
Theorem getSpotifyAccount_answers_from_the_registry (accountId : option string)
    (store : option Store.t) :
  (forall account, getSpotifyAccount accountId store = Some account ->
     exists st key, store = Some st /\ In (key, account) (Store.accounts st))
  /\ getSpotifyAccount (Some "") store = getSpotifyAccount None store
  /\ (getSpotifyAccount None store = None <->
      store = None \/ exists st, store = Some st /\ Store.accounts st = [])
  /\ (forall id st, id <> "" ->
        getSpotifyAccount (Some id) (Some st) = own id (Store.accounts st)).
Proof.
  split; [|split; [|split]].
  - intros account. destruct store as [[active accounts]|]; [|done]. simpl.
    intros H. exists (Store.mk active accounts). simpl.
    assert (Hfirst : match accounts with
                     | (_, first) :: _ => Some first
                     | [] => None
                     end = Some account -> exists key, In (key, account) accounts).
    { destruct accounts as [|[k first] rest]; [done|]. intros [= ->]. exists k. by left. }
    destruct accountId as [[|c id]|].
    + destruct (Hfirst H) as [key Hkey]. by exists key.
    + exists (String c id). split; [done|]. by apply own_In.
    + destruct (Hfirst H) as [key Hkey]. by exists key.
  - by destruct store.
  - destruct store as [[active accounts]|]; simpl.
    + destruct accounts as [|[k first] rest]; split.
      * intros _. right. by eexists.
      * done.
      * done.
      * intros [|[st [[= <-] Hst]]]; done.
    + split; [by left | done].
  - intros id st Hid. by destruct id.
Qed.

(** X2: [getSpotifySocket] is absent only without the host module, or when the
    host has neither an active socket nor an account; a connection it
    returns is the active one or the one of an entry of the registry. *)
Theorem getSpotifySocket_absent_only_without_accounts (accountId : option string)
    (store : option Store.t) :
  (getSpotifySocket accountId store = None <->
   store = None
   \/ exists st, store = Some st /\ Store.getActiveSocketAndDevice st = None
                 /\ Store.accounts st = [])
  /\ (forall ws, getSpotifySocket accountId store = Some ws ->
        exists st, store = Some st
          /\ ((exists a, Store.getActiveSocketAndDevice st = Some a /\ Account.socket a = ws)
              \/ exists key a, In (key, a) (Store.accounts st) /\ Account.socket a = ws)).
Proof.
  destruct store as [[active accounts]|]; simpl.
  2: { split; [split; [by left | done] | done]. }
  split.
  - split.
    + intros H. right. exists (Store.mk active accounts). simpl.
      destruct active as [a|].
      * destruct (bool_decide _); [done|].
        by destruct (own (property_key accountId) accounts).
      * destruct (own (property_key accountId) accounts); [done|].
        by destruct accounts as [|[k first] rest].
    + intros [|[st [[= <-] [Ha Hl]]]]; [done|]. simpl in *. by subst.
  - intros ws H. exists (Store.mk active accounts). split; [done|]. simpl.
    destruct active as [a|].
    + destruct (bool_decide _).
      * injection H as <-. left. by exists a.
      * destruct (own (property_key accountId) accounts) as [account|] eqn:Hown.
        -- injection H as <-. right. exists (property_key accountId), account.
           split; [by apply own_In | done].
        -- injection H as <-. left. by exists a.
    + destruct (own (property_key accountId) accounts) as [account|] eqn:Hown.
      * injection H as <-. right. exists (property_key accountId), account.
        split; [by apply own_In | done].
      * destruct accounts as [|[k first] rest]; [done|].
        injection H as <-. right. exists k, first. split; [by left | done].
Qed.


(** ** The remote controls *)

Lemma append_cons (c : ascii) (a b : string) : String c a +:+ b = String c (a +:+ b).
Proof. reflexivity. Qed.

Lemma append_empty_l (a : string) : "" +:+ a = a.
Proof. reflexivity. Qed.

Lemma append_assoc (a b c : string) : (a +:+ b) +:+ c = a +:+ (b +:+ c).
Proof.
  induction a as [|x a IH]; [done|]. by rewrite !append_cons, IH.
Qed.

Lemma append_empty_r (a : string) : a +:+ "" = a.
Proof. induction a as [|x a IH]; [done|]. by rewrite append_cons, IH. Qed.

Lemma list_ascii_of_append (a b : string) :
  list_ascii_of_string (a +:+ b) = list_ascii_of_string a ++ list_ascii_of_string b.
Proof.
  induction a as [|x a IH]; [done|]. rewrite append_cons. simpl. by rewrite IH.
Qed.

Lemma has_question_mark_append (a b : string) :
  has_question_mark (a +:+ b) = has_question_mark a || has_question_mark b.
Proof.
  induction a as [|x a IH]; [done|]. rewrite append_cons. simpl.
  by rewrite IH, orb_assoc.
Qed.

Lemma percent_alphabet (c : ascii) :
  Forall (fun x => unreserved x = true \/ x = "%"%char) (list_ascii_of_string (percent c)).
Proof.
  assert (H : forallb (fun x => unreserved x || Ascii.eqb x "%")
                (list_ascii_of_string (percent c)) = true).
  { destruct c as [[] [] [] [] [] [] [] []]; vm_compute; reflexivity. }
  rewrite forallb_forall in H. apply List.Forall_forall. intros x Hx.
  specialize (H x Hx). apply orb_true_iff in H as [H|H]; [by left|].
  right. by apply Ascii.eqb_eq.
Qed.

(** X4: The text [encodeURIComponent] returns is made of unreserved characters
    and percent signs, so it holds no [?], [&], [=], [/], [#] or space; and
    a text of unreserved characters is returned as it is. *)
Theorem encodeURIComponent_is_safe (s : string) :
  Forall (fun x => unreserved x = true \/ x = "%"%char)
    (list_ascii_of_string (encodeURIComponent s))
  /\ has_question_mark (encodeURIComponent s) = false
  /\ Forall (fun x => ~ In x (list_ascii_of_string "?&=/# "))
       (list_ascii_of_string (encodeURIComponent s))
  /\ (Forall (fun x => unreserved x = true) (list_ascii_of_string s) ->
      encodeURIComponent s = s).
Proof.
  assert (Halphabet : Forall (fun x => unreserved x = true \/ x = "%"%char)
                        (list_ascii_of_string (encodeURIComponent s))).
  { induction s as [|c s IH]; simpl; [constructor|].
    rewrite list_ascii_of_append. apply Forall_app_2; [|exact IH].
    destruct (unreserved c) eqn:Hc; [|apply percent_alphabet].
    simpl. constructor; [by left | constructor]. }
  split; [exact Halphabet|]. split; [|split].
  - induction (encodeURIComponent s) as [|c t IH]; simpl; [done|].
    simpl in Halphabet. inversion Halphabet as [|? ? Hc Ht]; subst.
    rewrite (IH Ht), orb_false_r.
    destruct Hc as [Hc | ->]; [|done].
    destruct (Ascii.eqb_spec c "?") as [->|]; [|done]. by vm_compute in Hc.
  - eapply Forall_impl; [exact Halphabet|].
    intros c [Hc | ->] Hin.
    + simpl in Hin.
      destruct Hin as [<-|[<-|[<-|[<-|[<-|[<-|[]]]]]]]; by vm_compute in Hc.
    + simpl in Hin. destruct Hin as [H|[H|[H|[H|[H|[H|[]]]]]]]; discriminate H.
  - clear Halphabet. induction s as [|c s IH]; simpl; [done|].
    intros H. inversion H as [|? ? Hc Hs]; subst.
    rewrite Hc, (IH Hs). reflexivity.
Qed.

Lemma encodeURIComponent_is_safe_witness :
  encodeURIComponent "track_1.mp3" = "track_1.mp3".
Proof.
  apply (encodeURIComponent_is_safe "track_1.mp3").
  vm_compute. repeat constructor.
Defined.

Lemma append_query_marked (uri : string) (entry : string * string) :
  has_question_mark (append_query uri entry) = true.
Proof.
  unfold append_query. rewrite !has_question_mark_append.
  by destruct (has_question_mark uri).
Qed.

Lemma concat_empty_cons (x : string) (l : list string) :
  String.concat "" (x :: l) = x +:+ String.concat "" l.
Proof. destruct l; simpl; [by rewrite append_empty_r | reflexivity]. Qed.

Lemma concat_cons (sep x : string) (l : list string) :
  String.concat sep (x :: l) = x +:+ String.concat "" (map (String.append sep) l).
Proof.
  revert x. induction l as [|y l IH]; intros x.
  - simpl. by rewrite append_empty_r.
  - change (String.concat sep (x :: y :: l)) with (x +:+ sep +:+ String.concat sep (y :: l)).
    rewrite IH. simpl map. rewrite concat_empty_cons. by rewrite !append_assoc.
Qed.

Lemma fold_append_query_marked (entries : list (string * string)) (uri : string) :
  has_question_mark uri = true ->
  fold_left append_query entries uri
  = uri +:+ String.concat ""
              (map (String.append "&")
                 (map (fun entry => encodeURIComponent entry.1 +:+ "="
                                    +:+ encodeURIComponent entry.2) entries)).
Proof.
  revert uri. induction entries as [|entry entries IH]; intros uri Huri.
  - simpl. by rewrite append_empty_r.
  - simpl fold_left. rewrite IH by apply append_query_marked.
    simpl map. rewrite concat_empty_cons.
    unfold append_query. rewrite Huri. by rewrite !append_assoc.
Qed.

(** X5: The address [sendSpotifyAPI] fetches: the endpoint under the API root,
    then the entries of the query as [key=value], both encoded, the first
    after [?] (after [&] if the endpoint has a [?] already) and the others
    after [&]; without entries, the endpoint alone. *)
Theorem sendSpotifyAPI_address (endpoint : string) (accountId : option string)
    (method : option string) (entries : list (string * string)) (body : option value)
    (store : option Store.t) (request : Request.t) :
  sendSpotifyAPI endpoint accountId method (Some entries) body store = Some request ->
  Request.uri request
  = "https://api.spotify.com/v1/" +:+ endpoint
    +:+ match entries with
        | [] => ""
        | _ :: _ =>
            (if has_question_mark endpoint then "&" else "?")
            +:+ String.concat "&"
                  (map (fun entry => encodeURIComponent entry.1 +:+ "="
                                     +:+ encodeURIComponent entry.2) entries)
        end.
Proof.
  unfold sendSpotifyAPI.
  destruct (getSpotifyAccount accountId store) as [account|]; [|done].
  intros [= <-]. simpl Request.uri.
  destruct entries as [|entry entries].
  - simpl. by rewrite append_empty_r.
  - simpl fold_left. rewrite fold_append_query_marked by apply append_query_marked.
    simpl map. rewrite concat_cons. unfold append_query.
    change (has_question_mark ("https://api.spotify.com/v1/" +:+ endpoint))
      with (has_question_mark endpoint).
    by rewrite !append_assoc.
Qed.

Lemma sendSpotifyAPI_address_witness :
  Request.uri
    (Request.mk "https://api.spotify.com/v1/me/player/seek?position_ms=1234&device_id=a%20b"
       "PUT" "Bearer token-A" None)
  = "https://api.spotify.com/v1/" +:+ "me/player/seek"
    +:+ ("?" +:+ String.concat "&" ["position_ms=1234"; "device_id=a%20b"]).
Proof.
  apply (sendSpotifyAPI_address "me/player/seek" (Some "A") None
           [("position_ms", "1234"); ("device_id", "a b")] None (Some two_accounts)).
  vm_compute. reflexivity.
Defined.

(** X6: [setRepeatMode] as the code has it: for the three repeat modes of the
    API it returns at once and no request is made, whatever the host holds;
    for any other text, with an account at hand, it makes the request with
    that text as [state]. *)
Theorem setRepeatMode_skips_the_valid_modes (mode : string) (accountId : option string)
    (store : option Store.t) :
  (mode = "off" \/ mode = "context" \/ mode = "track" ->
   setRepeatMode mode accountId store = None)
  /\ (mode <> "off" -> mode <> "context" -> mode <> "track" ->
      forall account, getSpotifyAccount accountId store = Some account ->
      setRepeatMode mode accountId store
      = Some (Request.mk
                ("https://api.spotify.com/v1/me/player/repeat?state=" +:+ encodeURIComponent mode)
                "PUT" ("Bearer " +:+ Account.accessToken account) None)).
Proof.
  split.
  - by intros [-> | [-> | ->]].
  - intros Hoff Hcontext Htrack account Haccount.
    unfold setRepeatMode, sendSpotifyAPI. simpl existsb.
    apply String.eqb_neq in Hoff, Hcontext, Htrack.
    rewrite Hoff, Hcontext, Htrack, Haccount. reflexivity.
Qed.

Lemma setRepeatMode_skips_the_valid_modes_witness :
  setRepeatMode "track" (Some "A") (Some two_accounts) = None
  /\ setRepeatMode "shuffle" (Some "A") (Some two_accounts)
     = Some (Request.mk "https://api.spotify.com/v1/me/player/repeat?state=shuffle"
               "PUT" "Bearer token-A" None).
Proof.
  destruct (setRepeatMode_skips_the_valid_modes "track" (Some "A") (Some two_accounts))
    as [Hvalid _].
  destruct (setRepeatMode_skips_the_valid_modes "shuffle" (Some "A") (Some two_accounts))
    as [_ Hother].
  split; [apply Hvalid; auto|].
  by apply (Hother ltac:(discriminate) ltac:(discriminate) ltac:(discriminate) account_A).
Defined.

(** X7: No control makes a request without an account: without the host
    module, with an empty registry, or for an id the registry does not
    hold.  With an account, [setPlaybackState] makes a [PUT] on
    [me/player/play] or [me/player/pause], with no query and no body, under
    the token of that account. *)
Theorem controls_need_an_account (accountId : option string) (store : option Store.t) :
  (getSpotifyAccount accountId store = None ->
   (forall endpoint method query body,
      sendSpotifyAPI endpoint accountId method query body store = None)
   /\ (forall state, setPlaybackState state accountId store = None)
   /\ (forall mode, setRepeatMode mode accountId store = None))
  /\ (forall account state, getSpotifyAccount accountId store = Some account ->
        setPlaybackState state accountId store
        = Some (Request.mk
                  (if state then "https://api.spotify.com/v1/me/player/play"
                   else "https://api.spotify.com/v1/me/player/pause")
                  "PUT" ("Bearer " +:+ Account.accessToken account) None)).
Proof.
  split.
  - intros Hnone. split; [|split].
    + intros. unfold sendSpotifyAPI. by rewrite Hnone.
    + intros. unfold setPlaybackState, sendSpotifyAPI. by rewrite Hnone.
    + intros. unfold setRepeatMode, sendSpotifyAPI. rewrite Hnone.
      by destruct (existsb _ _).
  - intros account state Haccount. unfold setPlaybackState, sendSpotifyAPI.
    rewrite Haccount. by destruct state.
Qed.

Lemma controls_need_an_account_witness :
  setPlaybackState true (Some "B") (Some two_accounts) = None
  /\ setPlaybackState false None (Some two_accounts)
     = Some (Request.mk "https://api.spotify.com/v1/me/player/pause" "PUT"
               "Bearer token-C" None).
Proof.
  destruct (controls_need_an_account (Some "B") (Some two_accounts)) as [Hnone _].
  destruct (controls_need_an_account None (Some two_accounts)) as [_ Hsome].
  split.
  - apply Hnone. vm_compute. reflexivity.
  - apply (Hsome account_C false). vm_compute. reflexivity.
Defined.

(** ** SpotifyModal.parseTime *)

Lemma civil_from_days_january (day : Z) :
  (0 <= day < 31)%Z -> civil_from_days day = (1970, 1, day + 1)%Z.
Proof.
  intros Hday.
  assert (H : exists n : nat, (n < 31)%nat /\ day = Z.of_nat n)
    by (exists (Z.to_nat day); lia).
  destruct H as (n & Hn & ->). clear Hday.
  do 31 (destruct n as [|n]; [vm_compute; reflexivity|]). lia.
Qed.

(** X8: For a duration from zero to under 31 days, [parseTime] shows the whole
    hours of the duration when there are any, then the minutes (on two
    digits after hours) and the seconds on two digits: the calendar fields
    it reads from the date add up to the hours. *)
Theorem parseTime_of_a_duration (ms : Z) :
  (0 <= ms < 31 * 86400000)%Z ->
  parseTime ms = clock (ms / 3600000) ((ms / 60000) mod 60) ((ms / 1000) mod 60).
Proof.
  intros Hms. unfold parseTime.
  replace (8640000000000000 <? Z.abs ms)%Z with false by (symmetry; apply Z.ltb_ge; lia).
  unfold getUTCMonth, getUTCDate.
  rewrite civil_from_days_january by (Z.div_mod_to_equations; lia).
  simpl fst. simpl snd.
  replace (getUTCHours ms + (ms / 86400000 + 1 - 1) * 24 + (1 - 1) * 30 * 24)%Z
    with (ms / 3600000)%Z by (unfold getUTCHours; Z.div_mod_to_equations; lia).
  replace (getUTCMinutes ms) with ((ms / 60000) mod 60)%Z
    by (unfold getUTCMinutes; Z.div_mod_to_equations; lia).
  replace (getUTCSeconds ms) with ((ms / 1000) mod 60)%Z
    by (unfold getUTCSeconds; Z.div_mod_to_equations; lia).
  unfold clock, two_digits.
  destruct (0 <? ms / 3600000)%Z, ((ms / 60000) mod 60 <? 10)%Z; simpl andb; cbv iota;
    rewrite ?append_assoc, ?append_empty_l; reflexivity.
Qed.

Lemma parseTime_of_a_duration_witness :
  parseTime 3661000 = clock (3661000 / 3600000) ((3661000 / 60000) mod 60)
                        ((3661000 / 1000) mod 60).
Proof. apply (parseTime_of_a_duration 3661000). lia. Defined.

Lemma civil_from_days_february (day : Z) :
  (31 <= day < 59)%Z -> civil_from_days day = (1970, 2, day - 30)%Z.
Proof.
  intros Hday.
  assert (H : exists n : nat, (n < 28)%nat /\ day = (31 + Z.of_nat n)%Z)
    by (exists (Z.to_nat (day - 31)); lia).
  destruct H as (n & Hn & ->). clear Hday.
  do 28 (destruct n as [|n]; [vm_compute; reflexivity|]). lia.
Qed.

(** X9: From 31 days on the hours are no longer those of the duration: the
    month of the date counts for 30 days, so a duration of 31 days to under
    59 days is shown with 24 hours less than it has. *)
Theorem parseTime_loses_a_day_after_a_month (ms : Z) :
  (31 * 86400000 <= ms < 59 * 86400000)%Z ->
  parseTime ms = clock (ms / 3600000 - 24) ((ms / 60000) mod 60) ((ms / 1000) mod 60).
Proof.
  intros Hms. unfold parseTime.
  replace (8640000000000000 <? Z.abs ms)%Z with false by (symmetry; apply Z.ltb_ge; lia).
  unfold getUTCMonth, getUTCDate.
  rewrite civil_from_days_february by (Z.div_mod_to_equations; lia).
  simpl fst. simpl snd.
  replace (getUTCHours ms + (ms / 86400000 - 30 - 1) * 24 + (2 - 1) * 30 * 24)%Z
    with (ms / 3600000 - 24)%Z by (unfold getUTCHours; Z.div_mod_to_equations; lia).
  replace (getUTCMinutes ms) with ((ms / 60000) mod 60)%Z
    by (unfold getUTCMinutes; Z.div_mod_to_equations; lia).
  replace (getUTCSeconds ms) with ((ms / 1000) mod 60)%Z
    by (unfold getUTCSeconds; Z.div_mod_to_equations; lia).
  unfold clock, two_digits.
  destruct (0 <? ms / 3600000 - 24)%Z, ((ms / 60000) mod 60 <? 10)%Z; simpl andb; cbv iota;
    rewrite ?append_assoc, ?append_empty_l; reflexivity.
Qed.

Lemma parseTime_loses_a_day_after_a_month_witness :
  parseTime (31 * 86400000) = "720:00:00"
  /\ (31 * 86400000 / 3600000 = 744)%Z.
Proof.
  split; [|reflexivity].
  rewrite (parseTime_loses_a_day_after_a_month (31 * 86400000)) by lia.
  vm_compute. reflexivity.
Defined.

Example parseTime_examples :
  parseTime 0 = "0:00" /\ parseTime 61000 = "1:01" /\ parseTime 3661000 = "1:01:01"
  /\ parseTime (31 * 86400000) = "720:00:00".
Proof. repeat split; vm_compute; reflexivity. Qed.

(** ** One-shot registrations *)

Lemma fixSets_lookup (ev : gmap string Once.Bucket) (k : string) :
  Once.fixSets ev !! k
  = match ev !! k with
    | Some (Once.function f) => Some (Once.function f)
    | _ => None
    end.
Proof. unfold Once.fixSets. rewrite lookup_omap. by destruct (ev !! k) as [[f|fs]|]. Qed.

Lemma emit_function (name : string) (f : Once.Fn) (data : list value) (e : Once.Emitter) :
  Once.events e !! name = Some (Once.function f) ->
  Once.emit name data e = Once.call f data e.
Proof. intros H. unfold Once.emit. by rewrite H. Qed.

Lemma emit_SetOf (name : string) (fs : list Once.Fn) (data : list value) (e : Once.Emitter) :
  Once.events e !! name = Some (Once.SetOf fs) ->
  Once.emit name data e = Once.forEach fs data e.
Proof. intros H. unfold Once.emit. by rewrite H. Qed.

Lemma emit_nothing (name : string) (data : list value) (e : Once.Emitter) :
  Once.events e !! name = None -> Once.emit name data e = Once.Done e.
Proof. intros H. unfold Once.emit. by rewrite H. Qed.

(** X10: A one-shot registration on a name without listeners: the emission calls
    the callback with the emitted arguments.  When the callback returns the
    registration is removed, so the emitter holds what it held before and a
    second emission calls nothing; when the callback throws, the exception
    leaves [emit] and the registration stays. *)
Theorem once_fires_once_unless_it_throws (name : string) (id : nat) (raises : bool)
    (data data' : list value) (e : Once.Emitter) :
  ordinary name = true ->
  Once.events e !! name = None ->
  let armed := Once.once name id raises e in
  let fired := Once.emit name data armed in
  Once.called (Once.emitter_of fired) = Once.called e ++ [(id, data)]
  /\ (raises = false ->
      fired = Once.Done (Once.mk (Once.events e) (S (Once.created e))
                           (Once.called e ++ [(id, data)]))
      /\ Once.emit name data' (Once.emitter_of fired) = Once.Done (Once.emitter_of fired))
  /\ (raises = true ->
      fired = Once.Threw id (Once.mk (Once.events armed) (S (Once.created e))
                          (Once.called e ++ [(id, data)]))
      /\ Once.called (Once.emitter_of (Once.emit name data' (Once.emitter_of fired)))
         = Once.called e ++ [(id, data); (id, data')]).
Proof.
  intros _ Hnone armed fired. subst armed fired.
  unfold Once.once, Once.register. rewrite Hnone.
  rewrite (emit_function name (Once.replacedFunction name id raises (Once.created e)))
    by apply lookup_insert_eq.
  destruct raises; simpl.
  - split; [done|]. split; [done|]. intros _. split; [done|].
    rewrite (emit_function name (Once.replacedFunction name id true (Once.created e)))
      by apply lookup_insert_eq.
    simpl. by rewrite <- app_assoc.
  - rewrite lookup_insert_eq. simpl. split; [done|]. split; [|done]. intros _.
    rewrite delete_insert_id by done. split; [done|].
    by apply emit_nothing.
Qed.

Lemma fixSets_drops_a_set (name : string) (fs : list Once.Fn) (ev : gmap string Once.Bucket) :
  Once.fixSets (<[name := Once.SetOf fs]> ev) = Once.fixSets (delete name ev).
Proof.
  apply map_eq. intros k. rewrite !fixSets_lookup.
  destruct (decide (k = name)) as [->|Hk].
  - by rewrite lookup_insert_eq, lookup_delete_eq.
  - by rewrite lookup_insert_ne, lookup_delete_ne.
Qed.

(** X11: A one-shot registration beside a listener registered with [on]: the
    bucket becomes a [Set] of the two, the emission calls the listener and
    then the callback, and the removal that follows deletes every bucket
    that is a [Set].  So the listener registered with [on] is removed with
    the one-shot one, a later emission calls nothing, and the listeners of
    any other name that has two of them are removed as well; only buckets
    that hold a single function stay. *)
Theorem once_beside_a_listener_removes_both (name : string) (gid id : nat)
    (data : list value) (e : Once.Emitter) :
  ordinary name = true ->
  Once.events e !! name = Some (Once.function (Once.callback gid false)) ->
  let armed := Once.once name id false e in
  let fired := Once.emit name data armed in
  Once.events armed !! name
  = Some (Once.SetOf [Once.callback gid false;
                      Once.replacedFunction name id false (Once.created e)])
  /\ fired = Once.Done (Once.mk (Once.fixSets (delete name (Once.events e)))
                          (S (Once.created e))
                          (Once.called e ++ [(gid, data); (id, data)]))
  /\ (forall k, Once.events (Once.emitter_of fired) !! k
                = match Once.events e !! k with
                  | Some (Once.function f) =>
                      if decide (k = name) then None else Some (Once.function f)
                  | _ => None
                  end)
  /\ (forall data', Once.emit name data' (Once.emitter_of fired)
                    = Once.Done (Once.emitter_of fired)).
Proof.
  intros _ Hlistener armed fired.
  assert (Harmed : Once.events armed !! name
                   = Some (Once.SetOf [Once.callback gid false;
                                       Once.replacedFunction name id false (Once.created e)])).
  { subst armed. unfold Once.once, Once.register. cbn [Once.events]. rewrite Hlistener.
    rewrite lookup_insert_eq. destruct (decide _) as [Hin|_]; [|done].
    apply list_elem_of_singleton in Hin. discriminate Hin. }
  assert (Hfired : fired = Once.Done (Once.mk (Once.fixSets (delete name (Once.events e)))
                                        (S (Once.created e))
                                        (Once.called e ++ [(gid, data); (id, data)]))).
  { subst fired. rewrite (emit_SetOf _ _ _ _ Harmed).
    cbn [Once.forEach]. unfold Once.call at 2. cbv iota. cbn [Once.events Once.created Once.called].
    unfold Once.call. cbv iota. cbn [Once.events Once.created Once.called].
    rewrite Harmed. rewrite fixSets_drops_a_set.
    subst armed. unfold Once.once, Once.register. cbn [Once.events Once.created Once.called].
    rewrite Hlistener. rewrite delete_insert_eq. by rewrite <- app_assoc. }
  split; [exact Harmed|]. split; [exact Hfired|].
  rewrite Hfired. cbn [Once.emitter_of Once.events]. split.
  - intros k. rewrite fixSets_lookup.
    destruct (decide (k = name)) as [->|Hk].
    + rewrite lookup_delete_eq. by rewrite Hlistener.
    + rewrite lookup_delete_ne by done. by destruct (Once.events e !! k) as [[f|fs]|].
  - intros data'. apply emit_nothing. cbn [Once.events].
    by rewrite fixSets_lookup, lookup_delete_eq.
Qed.

Lemma once_beside_a_listener_removes_both_witness :
  let e := Once.on "b" 3 false (Once.on "b" 2 false (Once.on "a" 1 false Once.new_EventEmitter)) in
  Once.emit "a" [VStr "x"] (Once.once "a" 4 false e)
  = Once.Done (Once.mk (Once.fixSets (delete "a" (Once.events e))) 1
                 [(1, [VStr "x"]); (4, [VStr "x"])])
  /\ Once.fixSets (delete "a" (Once.events e)) = ∅.
Proof.
  intros e.
  destruct (once_beside_a_listener_removes_both "a" 1 4 [VStr "x"] e) as (_ & Hfired & _).
  - reflexivity.
  - vm_compute. reflexivity.
  - split; [exact Hfired|]. vm_compute. reflexivity.
Defined.

Lemma once_fires_once_unless_it_throws_witness :
  Once.emit "a" [VStr "x"] (Once.once "a" 1 false Once.new_EventEmitter)
  = Once.Done (Once.mk ∅ 1 [(1, [VStr "x"])]).
Proof.
  destruct (once_fires_once_unless_it_throws "a" 1 false [VStr "x"] [] Once.new_EventEmitter)
    as (_ & Hreturns & _).
  - reflexivity.
  - reflexivity.
  - by destruct (Hreturns eq_refl) as [Hfired _].
Defined.

(** ** The bound account *)

Lemma stays_bound_refl (w : World) : stays_bound w w.
Proof. by intros H. Qed.

Lemma stays_bound_trans (a b c : World) :
  stays_bound a b -> stays_bound b c -> stays_bound a c.
Proof.
  unfold stays_bound. intros Hab Hbc Ha.
  rewrite Hbc; [by apply Hab|]. by rewrite Hab.
Qed.

Lemma stays_bound_record (e : Event) (w : World) : stays_bound w (record e w).
Proof. by intros H. Qed.

Lemma stays_bound_listeners (l : list (WebSocket * SocketListener)) (w : World) :
  stays_bound w (set_listeners l w).
Proof. by intros H. Qed.

Ltac bound_atom :=
  first
    [ solve [ auto using stays_bound_refl, stays_bound_trans, stays_bound_record,
                stays_bound_listeners ]
    | solve [ intros; eapply stays_bound_trans; eassumption ]
    | solve [ intros; unfold stays_bound, accountId in *; simpl in *;
              repeat case_match; simpl in *; first [reflexivity | congruence | tauto] ] ].

(** The update handler adopts an account only when none is bound. *)
Lemma stays_bound_SPOTIFY_UPDATE (call : Callback -> list value -> M unit) (id : string) :
  (forall f args, preserves stays_bound (call f args)) ->
  preserves stays_bound (SPOTIFY_UPDATE call id).
Proof.
  intros Hcall w. unfold SPOTIFY_UPDATE. unfold bind at 1, gets at 1.
  destruct (String.eqb_spec (accountId w) "") as [Hempty|Hbound]; [by intros H|].
  unfold bind at 1, ret at 1.
  match goal with |- stays_bound w (world_of (?k w)) => assert (Hk : preserves stays_bound k) end.
  { apply preserves_bind; [bound_atom | apply preserves_gets; bound_atom |].
    intros a. destruct (negb (String.eqb a id)).
    - apply preserves_log_error; bound_atom.
    - apply preserves_bind; [bound_atom | |].
      + apply preserves_emit; [bound_atom ..|done].
      + intros _. apply preserves_detached; [bound_atom ..|].
        apply preserves_afterSpotifyUpdate; [bound_atom ..|done]. }
  apply Hk.
Qed.

Lemma stays_bound_invoke (d : nat) (f : Callback) (args : list value) :
  preserves stays_bound (invoke d f args).
Proof.
  revert f args. induction d as [|d IH]; intros [id raises|serial] args; simpl.
  - destruct raises; [apply preserves_throw | apply preserves_ret]; bound_atom.
  - apply preserves_throw; bound_atom.
  - destruct raises; [apply preserves_throw | apply preserves_ret]; bound_atom.
  - destruct args as [|[| | | |a| | |] rest]; try (apply preserves_ret; bound_atom).
    by apply stays_bound_SPOTIFY_UPDATE.
Qed.

Ltac bound_frame :=
  repeat first
    [ apply stays_bound_invoke
    | apply stays_bound_SPOTIFY_UPDATE; intros ? ?
    | apply preserves_afterSpotifyUpdate; [bound_atom ..| intros ? ?]
    | frame_step bound_atom
    | progress unfold_watcher
    | progress unfold pong_handler ].

Lemma run_op_stays_bound (d : nat) (op : Op) :
  assigns_accountId op = false ->
  preserves stays_bound (run_op d op).
Proof. destruct op; simpl; intros Hop; try discriminate Hop; bound_frame. Qed.

(** X13: An account that is bound stays bound to the watcher whatever happens
    but an assignment to [accountId]: updates for other accounts, messages,
    heartbeats, emissions, loading and unloading leave it as it is. *)
Theorem bound_account_changes_only_through_the_setter (d : nat) (history : list Op)
    (w : World) :
  accountId w <> "" ->
  Forall (fun op => assigns_accountId op = false) history ->
  accountId (after d history w) = accountId w.
Proof.
  intros Hbound Hhistory. revert w Hbound.
  induction Hhistory as [|op history Hop _ IH]; intros w Hbound; [done|].
  simpl. pose proof (run_op_stays_bound d op Hop w Hbound) as Hstep.
  rewrite IH; [done|]. by rewrite Hstep.
Qed.

Lemma bound_account_changes_only_through_the_setter_witness :
  accountId
    (after 2 [op_load; op_SPOTIFY_UPDATE "C"; op_message_event 3 (js "{'type':'pong'}");
              op_emit "pong" [VStr "C"]; op_unload] bound_to_A)
  = "A".
Proof.
  apply (bound_account_changes_only_through_the_setter 2 _ bound_to_A).
  - vm_compute. discriminate.
  - repeat constructor.
Defined.

(** ** The [accountId] setter *)

(** X14: An assignment to [accountId]: the bound id assigned again changes
    nothing; another id throws a [TypeError] while [#sockets] is
    [undefined], that is before the heartbeat installation has found
    accounts; an id that is not [in] [#sockets], neither as an account
    listed nor as a member of [Object.prototype], changes nothing (no
    account being keyed [__proto__]: stored under that key, a connection
    would become the prototype of [#sockets] and lend it its members); and
    an id that is [in] it, in one way or the other, replaces the bound
    account, whatever was bound, and is announced by an [update]
    emission. *)
Theorem accountId_setter (d : nat) (id : string) (w : World) :
  (accountId w = id -> set_accountId (invoke d) id w = Returned tt w)
  /\ (accountId w <> id -> Priv.sockets (this w) = None ->
      set_accountId (invoke d) id w = Thrown TypeError w)
  /\ (forall sockets, accountId w <> id -> Priv.sockets (this w) = Some sockets ->
      "__proto__" ∉ map fst sockets ->
      id ∉ map fst sockets -> ordinary id = true ->
      set_accountId (invoke d) id w = Returned tt w)
  /\ (forall sockets, id <> "" -> Priv.sockets (this w) = Some sockets ->
      id ∈ map fst sockets \/ ordinary id = false ->
      let final := world_of (set_accountId (invoke d) id w) in
      accountId final = id
      /\ (accountId w <> id ->
          exists rest, trace final = trace w ++ Emitted "update" [VStr id; VStr id] :: rest)).
Proof.
  assert (Hlisted : forall sockets : list (string * WebSocket),
            in_object id sockets = true
            <-> id ∈ map fst sockets \/ ordinary id = false).
  { intros sockets. unfold in_object.
    rewrite orb_true_iff, negb_true_iff, existsb_exists, list_elem_of_fmap.
    apply or_iff_compat_r. split.
    - intros ([k ws] & Hin & Heq). apply String.eqb_eq in Heq. simpl in Heq. subst k.
      exists (id, ws). split; [done|]. by apply list_elem_of_In.
    - intros ([k ws] & -> & Hin). exists (k, ws). split; [by apply list_elem_of_In|].
      apply String.eqb_refl. }
  split; [|split; [|split]].
  - intros Hsame. unfold set_accountId, bind, gets. rewrite Hsame.
    by rewrite String.eqb_refl.
  - intros Hother Hnone. apply String.eqb_neq in Hother.
    unfold set_accountId, bind, gets. by rewrite Hother, Hnone.
  - intros sockets Hother Hsome _ Hnot Hordinary. apply String.eqb_neq in Hother.
    unfold set_accountId. unfold bind at 1, gets at 1. rewrite Hother.
    unfold bind at 1, gets at 1. rewrite Hsome.
    destruct (in_object id sockets) eqn:Hin; [|done].
    apply Hlisted in Hin as [Hin|Hin]; [done | congruence].
  - intros sockets Hid Hsome Hin final. subst final.
    destruct (String.eqb_spec (accountId w) id) as [Hsame|Hother].
    { split; [|done]. unfold set_accountId, bind, gets.
      by rewrite Hsame, String.eqb_refl. }
    set (w1 := set_this (Priv.set_accountId id (this w)) w).
    assert (Hw1 : accountId w1 = id) by reflexivity.
    assert (Hrun : set_accountId (invoke d) id w = SPOTIFY_UPDATE (invoke d) id w1).
    { unfold set_accountId. unfold bind at 1, gets at 1.
      apply String.eqb_neq in Hother. rewrite Hother.
      unfold bind at 1, gets at 1. rewrite Hsome.
      apply Hlisted in Hin. by rewrite Hin. }
    rewrite Hrun.
    split.
    + pose proof (stays_bound_SPOTIFY_UPDATE (invoke d) id (stays_bound_invoke d) w1) as Hkeep.
      rewrite Hkeep; [done|]. by rewrite Hw1.
    + intros _. unfold SPOTIFY_UPDATE. unfold bind at 1, gets at 1. rewrite Hw1.
      apply String.eqb_neq in Hid. rewrite Hid.
      unfold bind at 1, ret at 1. unfold bind at 1, gets at 1. rewrite Hw1.
      rewrite String.eqb_refl. cbv [negb]. cbv iota.
      rewrite world_of_bind.
      pose proof (emit_from_its_record extends extends_refl extends_trans extends_record
                    (invoke d) "update" [VStr id; VStr id] w1) as Hemit.
      assert (Hcall : forall f args, preserves extends (invoke d f args)).
      { intros f args.
        apply (preserves_invoke extends extends_refl extends_trans extends_record
                 extends_accountId).
        intros call0 Hcall0.
        by apply (preserves_afterSpotifyUpdate extends extends_refl extends_trans
                    extends_record extends_listeners). }
      specialize (Hemit Hcall).
      destruct (emit (invoke d) "update" [VStr id; VStr id] w1) as [[] w2|e w2];
        simpl in Hemit; destruct Hemit as [es Hes].
      * assert (Hafter : preserves extends (detached (afterSpotifyUpdate (invoke d)))).
        { apply preserves_detached; [apply extends_trans | apply extends_record |].
          by apply (preserves_afterSpotifyUpdate extends extends_refl extends_trans
                      extends_record extends_listeners). }
        destruct (Hafter w2) as [es' Hes'].
        exists (es ++ es'). rewrite Hes', Hes. simpl. by rewrite <- !app_assoc.
      * exists es. rewrite Hes. simpl. by rewrite <- app_assoc.
Qed.

Lemma accountId_setter_witness :
  let loaded := world_of (load (invoke 1) bound_to_A) in
  set_accountId (invoke 1) "C" bound_to_A = Thrown TypeError bound_to_A
  /\ accountId loaded = "A"
  /\ set_accountId (invoke 1) "B" loaded = Returned tt loaded
  /\ accountId (world_of (set_accountId (invoke 1) "C" loaded)) = "C"
  /\ accountId (world_of (set_accountId (invoke 1) "constructor" loaded)) = "constructor".
Proof.
  intros loaded.
  destruct (accountId_setter 1 "C" bound_to_A) as (_ & Hthrows & _).
  destruct (accountId_setter 1 "B" loaded) as (_ & _ & Hunlisted & _).
  destruct (accountId_setter 1 "C" loaded) as (_ & _ & _ & Hlisted).
  destruct (accountId_setter 1 "constructor" loaded) as (_ & _ & _ & Hinherited).
  split; [apply Hthrows; [vm_compute; discriminate | reflexivity]|].
  split; [vm_compute; reflexivity|].
  split.
  { apply (Hunlisted [("C", 3); ("A", 1)]).
    - vm_compute. discriminate.
    - vm_compute. reflexivity.
    - intros Hin. simpl in Hin.
      apply elem_of_cons in Hin as [Hin|Hin]; [discriminate Hin|].
      apply list_elem_of_singleton in Hin. discriminate Hin.
    - intros Hin. simpl in Hin.
      apply elem_of_cons in Hin as [Hin|Hin]; [discriminate Hin|].
      apply list_elem_of_singleton in Hin. discriminate Hin.
    - reflexivity. }
  split.
  - apply (Hlisted [("C", 3); ("A", 1)]).
    + discriminate.
    + vm_compute. reflexivity.
    + left. apply list_elem_of_here.
  - apply (Hinherited [("C", 3); ("A", 1)]).
    + discriminate.
    + vm_compute. reflexivity.
    + by right.
Defined.

(** ** Registration on the dispatch bus *)

Lemma forEach_subscribe (bus : Dispatcher) (h : FluxHandler) (events : list string)
    (w : World) :
  Priv.dispatcher (this w) = Some bus ->
  forEach events (fun event => dispatcher_subscribe event h) w
  = Returned tt (records (map (fun event => Subscribed bus event h) events) w).
Proof.
  revert w. induction events as [|event events IH]; intros w Hbus; simpl.
  - by rewrite records_nil.
  - unfold bind at 1. unfold dispatcher_subscribe at 1, bind at 1, gets at 1.
    rewrite Hbus. unfold modify. rewrite IH by done. by rewrite records_record.
Qed.

(** X15: Without a dispatch bus and before the host lists accounts, [load]
    fails: [registerFlux] logs that the bus was not found, the heartbeat
    installation then subscribes its fallback on the bus that is
    [undefined], and the [TypeError] ends [load] before the [pong] relay is
    registered.  Nothing is subscribed, and the fallback flag is not set. *)
Theorem load_without_a_bus (call : Callback -> list value -> M unit) (w : World) :
  Host.common_fluxDispatcher (host w) = false ->
  Host.webpack_fluxDispatcher (host w) = false ->
  getAllSpotifySockets (Host.store (host w)) = None ->
  Priv.pongListenerRegistered (this w) = false ->
  exists w',
    load call w = Thrown TypeError w'
    /\ trace w' = trace w ++ [Logged Error "SpotifyWatcher@registerFlux" "FluxDispatcher not found"]
    /\ _events w' = _events w
    /\ registered w' = registered w
    /\ Priv.pongListenerRegistered (this w') = false
    /\ listeners w' = listeners w.
Proof.
  intros Hcommon Hwebpack Hnone Hflag.
  unfold load, registerFlux, addPongEvent, dispatcher_subscribe, log_error,
    bind, modify, modify_this, gets.
  simpl. rewrite Hcommon, Hwebpack. simpl. rewrite Hnone. simpl. rewrite Hflag. simpl.
  eexists. split; [reflexivity|]. by repeat split.
Qed.

Lemma load_without_a_bus_witness :
  exists w',
    load (invoke 0) (new_World (Host.mk None false false)) = Thrown TypeError w'
    /\ trace w' = [Logged Error "SpotifyWatcher@registerFlux" "FluxDispatcher not found"]
    /\ _events w' = ∅.
Proof.
  destruct (load_without_a_bus (invoke 0) (new_World (Host.mk None false false)))
    as (w' & Hload & Htrace & Hevents & _); try reflexivity.
  exists w'. by split; [|split].
Defined.

(** The world after the five subscriptions. *)
Lemma registerFlux_subscribes (call : Callback -> list value -> M unit) (w : World) :
  Host.common_fluxDispatcher (host w) = true \/ Host.webpack_fluxDispatcher (host w) = true ->
  registered w = false ->
  _events w !! "registered" = None ->
  let bus := if Host.common_fluxDispatcher (host w) then CommonFlux else WebpackFlux in
  let found := set_this (Priv.set_dispatcher (Some bus) (this w)) w in
  registerFlux call w
  = Returned tt
      (records (map (fun event => Subscribed bus event hSPOTIFY_UPDATE) flux_events
                  ++ [Emitted "registered" []])
         (set_this (Priv.set_registered true (this found)) found)).
Proof.
  intros Hbus Hreg Hon bus found.
  assert (Hfound : (if Host.common_fluxDispatcher (host w) then Some CommonFlux
                    else if Host.webpack_fluxDispatcher (host w) then Some WebpackFlux
                    else None) = Some bus).
  { subst bus. destruct (Host.common_fluxDispatcher (host w)); [done|].
    destruct Hbus as [Hbus|Hbus]; [done|]. by rewrite Hbus. }
  unfold registerFlux. unfold bind at 1, modify at 1. rewrite Hfound.
  fold found. unfold bind at 1, gets at 1.
  change (Priv.dispatcher (this found)) with (Some bus). cbv iota.
  unfold bind at 1, gets at 1.
  assert (Hreg' : registered found = false) by exact Hreg. rewrite Hreg'.
  unfold bind at 1. rewrite (forEach_subscribe bus) by done.
  unfold bind at 1, modify_this, modify.
  unfold emit, bind, modify, gets. simpl. rewrite Hon.
  unfold records, record, ret. simpl. by rewrite <- app_assoc.
Qed.

(** X16: [registerFlux] and then [removeFlux], on a watcher that is not
    registered and has no listener on [registered] and [unregistered]:
    both return; the five events subscribed with the update handler are the
    five unsubscribed, on the same bus and in the same order, with
    [registered] emitted between and [unregistered] after; and the watcher
    is again as it was but for the bus it has found. *)
Theorem registerFlux_then_removeFlux (call : Callback -> list value -> M unit) (w : World) :
  Host.common_fluxDispatcher (host w) = true \/ Host.webpack_fluxDispatcher (host w) = true ->
  registered w = false ->
  _events w !! "registered" = None ->
  _events w !! "unregistered" = None ->
  let bus := if Host.common_fluxDispatcher (host w) then CommonFlux else WebpackFlux in
  let found := set_this (Priv.set_dispatcher (Some bus) (this w)) w in
  let subscribed :=
    records (map (fun event => Subscribed bus event hSPOTIFY_UPDATE) flux_events
               ++ [Emitted "registered" []])
      (set_this (Priv.set_registered true (this found)) found) in
  registerFlux call w = Returned tt subscribed
  /\ registered subscribed = true
  /\ removeFlux call subscribed
     = Returned tt
         (records (map (fun event => Subscribed bus event hSPOTIFY_UPDATE) flux_events
                     ++ [Emitted "registered" []]
                     ++ map (fun event => Unsubscribed bus event hSPOTIFY_UPDATE) flux_events
                     ++ [Emitted "unregistered" []])
            found).
Proof.
  intros Hbus Hreg Hon Hoff bus found subscribed.
  assert (Hregister : registerFlux call w = Returned tt subscribed)
    by by apply registerFlux_subscribes.
  split; [exact Hregister|]. split; [reflexivity|].
  rewrite (removeFlux_registered call bus) by reflexivity.
  unfold emit, bind, modify, gets. simpl. rewrite Hoff.
  unfold records, record, ret, found, registered in *. simpl.
  destruct w as [ev [a dsp dev st so ha sk reg pl] ho li cl tr]. simpl in *. subst reg.
  by rewrite <- !app_assoc.
Qed.

Lemma registerFlux_then_removeFlux_witness :
  exists w',
    (registerFlux (invoke 0) ;; removeFlux (invoke 0)) (new_World starting_host) = Returned tt w'
    /\ trace w'
       = map (fun event => Subscribed CommonFlux event hSPOTIFY_UPDATE) flux_events
         ++ [Emitted "registered" []]
         ++ map (fun event => Unsubscribed CommonFlux event hSPOTIFY_UPDATE) flux_events
         ++ [Emitted "unregistered" []]
    /\ registered w' = false.
Proof.
  destruct (registerFlux_then_removeFlux (invoke 0) (new_World starting_host))
    as (Hregister & _ & Hremove); try reflexivity; [by left|].
  eexists. unfold bind. rewrite Hregister, Hremove. by split; [|split].
Defined.

(** X17: A watcher that is registered is not subscribed again: [registerFlux]
    logs a warning, makes no call on the bus and emits nothing. *)
Theorem registerFlux_when_registered_only_warns (call : Callback -> list value -> M unit)
    (w : World) :
  Host.common_fluxDispatcher (host w) = true \/ Host.webpack_fluxDispatcher (host w) = true ->
  registered w = true ->
  let bus := if Host.common_fluxDispatcher (host w) then CommonFlux else WebpackFlux in
  registerFlux call w
  = Returned tt
      (record (Logged Warn "SpotifyWatcher@registerFlux" "Already registered")
         (set_this (Priv.set_dispatcher (Some bus) (this w)) w)).
Proof.
  intros Hbus Hreg bus.
  unfold registerFlux, log_warn, bind, modify, gets. simpl.
  subst bus. destruct (Host.common_fluxDispatcher (host w)); simpl.
  - unfold registered in *. simpl. by rewrite Hreg.
  - destruct Hbus as [Hbus|Hbus]; [done|]. rewrite Hbus. simpl.
    unfold registered in *. simpl. by rewrite Hreg.
Qed.

Lemma registerFlux_when_registered_only_warns_witness :
  let once := world_of (registerFlux (invoke 0) (new_World starting_host)) in
  registerFlux (invoke 0) once
  = Returned tt (record (Logged Warn "SpotifyWatcher@registerFlux" "Already registered") once).
Proof.
  intros once.
  rewrite (registerFlux_when_registered_only_warns (invoke 0) once);
    [reflexivity | by left | reflexivity].
Defined.

(** ** The message handler on device lists and on other events *)

(** X18: A decoded message that passes the guard and whose first event is
    [DEVICE_STATE_CHANGED]: the handler stores the device list of the event
    in [#devices] and emits [message("DEVICE_STATE_CHANGED", list)]; the
    [devices] getter reads the list back, also after the consumers of the
    emission have run, and the stored player state is not touched. *)
Theorem device_state_round_trip (call : Callback -> list value -> M unit)
    (text : string) (data ds : value) (w : World) :
  JSON_parse text = Some data ->
  truthy (get_opt data "type") = true ->
  truthy (get_opt data "payloads") = true ->
  is_string "pong" (get_opt data "type") = false ->
  first_event_type data = Some (VStr "DEVICE_STATE_CHANGED") ->
  first_event_payload data "devices" = Some ds ->
  ds <> VUndefined -> ds <> VNull ->
  let stored := set_this (Priv.set_devices ds (this w)) w in
  let message := Emitted "message" [VStr "DEVICE_STATE_CHANGED"; ds] in
  SPOTIFY_WEBSOCKET_MESSAGE call text w
  = emit call "message" [VStr "DEVICE_STATE_CHANGED"; ds] stored
  /\ (_events w !! "message" = None ->
      SPOTIFY_WEBSOCKET_MESSAGE call text w = Returned tt (record message stored))
  /\ (forall d,
        let final := world_of (SPOTIFY_WEBSOCKET_MESSAGE (invoke d) text w) in
        (exists rest, trace final = trace w ++ message :: rest)
        /\ devices final = ds
        /\ state final = state w).
Proof.
  intros Hparse Htype Hpayloads Hpong Hev Hds Hundefined Hnull stored message.
  assert (Hrun : forall call0, SPOTIFY_WEBSOCKET_MESSAGE call0 text w
                 = emit call0 "message" [VStr "DEVICE_STATE_CHANGED"; ds] stored).
  { intros call0. unfold SPOTIFY_WEBSOCKET_MESSAGE, JSON_parse_or_throw.
    rewrite Hparse. unfold bind at 1, ret at 1.
    rewrite Htype, Hpayloads, Hpong. simpl.
    rewrite Hev, Hds. reflexivity. }
  split; [apply Hrun|]. split.
  - intros Hnone. rewrite Hrun. unfold emit, bind, modify, gets. simpl.
    by rewrite Hnone.
  - intros d final. subst final. rewrite Hrun. split; [|split].
    + destruct (emit_from_its_record extends extends_refl extends_trans extends_record
                  (invoke d) "message" [VStr "DEVICE_STATE_CHANGED"; ds] stored) as [es Hes].
      { intros f args.
        apply (preserves_invoke extends extends_refl extends_trans extends_record
                 extends_accountId).
        intros call0 Hcall0.
        by apply (preserves_afterSpotifyUpdate extends extends_refl extends_trans
                    extends_record extends_listeners). }
      exists es. rewrite Hes. simpl. by rewrite <- app_assoc.
    + pose proof (emit_from_its_record (keeps (fun w0 => Priv.devices (this w0)))) as Hkeep.
      unfold keeps in Hkeep at 4. unfold devices.
      rewrite Hkeep; [by destruct ds | keeps_atom ..|].
      intros f args. keeps_invoke.
    + pose proof (emit_from_its_record (keeps (fun w0 => Priv.state (this w0)))) as Hkeep.
      unfold keeps in Hkeep at 4. unfold state.
      rewrite Hkeep; [reflexivity | keeps_atom ..|].
      intros f args. keeps_invoke.
Qed.

Lemma device_state_round_trip_witness :
  let text := js "{'type':'message','payloads':[{'events':[{'type':'DEVICE_STATE_CHANGED','event':{'devices':[{'id':'d1','is_active':true}]}}]}]}" in
  let list := VArr [VObj [("id", VStr "d1"); ("is_active", VBool true)]] in
  let stored := set_this (Priv.set_devices list (this bound_to_A)) bound_to_A in
  SPOTIFY_WEBSOCKET_MESSAGE (invoke 0) text bound_to_A
  = Returned tt (record (Emitted "message" [VStr "DEVICE_STATE_CHANGED"; list]) stored)
  /\ devices stored = list.
Proof.
  intros text list stored.
  destruct (device_state_round_trip (invoke 0) text
              (VObj [("type", VStr "message");
                     ("payloads",
                      VArr [VObj [("events",
                        VArr [VObj [("type", VStr "DEVICE_STATE_CHANGED");
                                    ("event", VObj [("devices", list)])]])]])])
              list bound_to_A)
    as (_ & Hquiet & _);
    try (vm_compute; reflexivity); try discriminate.
  split; [apply Hquiet; vm_compute; reflexivity | reflexivity].
Defined.

(** X19: A decoded message that passes the guard and whose first event is of any
    other type: nothing is stored, and the event is still announced, as
    [message(type, #devices)] with the device list as it is stored at that
    time ([undefined] before any device event). *)
Theorem other_events_are_announced_with_the_devices (call : Callback -> list value -> M unit)
    (text : string) (data ty : value) (w : World) :
  JSON_parse text = Some data ->
  truthy (get_opt data "type") = true ->
  truthy (get_opt data "payloads") = true ->
  is_string "pong" (get_opt data "type") = false ->
  first_event_type data = Some ty ->
  is_string "PLAYER_STATE_CHANGED" ty = false ->
  is_string "DEVICE_STATE_CHANGED" ty = false ->
  SPOTIFY_WEBSOCKET_MESSAGE call text w
  = emit call "message" [ty; Priv.devices (this w)] w
  /\ (forall d, stored (world_of (SPOTIFY_WEBSOCKET_MESSAGE (invoke d) text w)) = stored w).
Proof.
  intros Hparse Htype Hpayloads Hpong Hev Hplayer Hdevice.
  assert (Hrun : forall call0, SPOTIFY_WEBSOCKET_MESSAGE call0 text w
                 = emit call0 "message" [ty; Priv.devices (this w)] w).
  { intros call0. unfold SPOTIFY_WEBSOCKET_MESSAGE, JSON_parse_or_throw.
    rewrite Hparse. unfold bind at 1, ret at 1.
    rewrite Htype, Hpayloads, Hpong. simpl.
    rewrite Hev. unfold bind at 1, attempt at 1, ret at 1.
    rewrite Hplayer. unfold bind at 1. unfold bind at 1, attempt at 1, ret at 1.
    rewrite Hdevice. unfold ret at 1.
    unfold bind at 1, attempt at 1, ret at 1. unfold bind at 1, attempt at 1, ret at 1.
    unfold bind at 1, gets at 1. by rewrite Hplayer. }
  split; [apply Hrun|].
  intros d. rewrite Hrun.
  pose proof (preserves_emit (keeps stored)) as Hkeep.
  apply Hkeep; [keeps_atom ..|]. intros f args. keeps_invoke.
Qed.

Lemma other_events_are_announced_with_the_devices_witness :
  let text := js "{'type':'message','payloads':[{'events':[{'type':'BROADCAST_UNAVAILABLE','event':{}}]}]}" in
  SPOTIFY_WEBSOCKET_MESSAGE (invoke 0) text bound_to_A
  = emit (invoke 0) "message" [VStr "BROADCAST_UNAVAILABLE"; VUndefined] bound_to_A.
Proof.
  intros text.
  destruct (other_events_are_announced_with_the_devices (invoke 0) text
              (VObj [("type", VStr "message");
                     ("payloads",
                      VArr [VObj [("events",
                        VArr [VObj [("type", VStr "BROADCAST_UNAVAILABLE");
                                    ("event", VObj [])]])]])])
              (VStr "BROADCAST_UNAVAILABLE") bound_to_A)
    as [Hrun _]; [vm_compute; reflexivity ..|].
  exact Hrun.
Defined.

(** ** What [unload] does to the listeners of consumers *)

Lemma invoke_keeps_the_listeners_of_consumers (d : nat) (f : Callback) (args : list value) :
  preserves (keeps _events) (invoke d f args).
Proof. keeps_invoke. Qed.

(** X20: [unload] removes the listeners on [pong] when there are any, and
    otherwise the listeners of every event: on a watcher that was not
    loaded, or was unloaded already, a call of [unload] that returns leaves
    no listener of any consumer registered. *)
Theorem unload_removes_pong_or_every_listener (d : nat) (w : World) :
  returns (unload (invoke d) w) = true ->
  _events (world_of (unload (invoke d) w))
  = if decide (is_Some (_events w !! "pong")) then delete "pong" (_events w) else ∅.
Proof.
  unfold unload. intros Hreturns.
  assert (Hflux : preserves (keeps _events) (removeFlux (invoke d))) by frame.
  assert (Hpong : preserves (keeps _events) removePongEvent) by frame.
  assert (Hsocket : preserves (keeps _events) removeSocketEvent) by frame.
  specialize (Hflux w). unfold keeps in Hflux.
  unfold bind at 1. unfold bind at 1 in Hreturns.
  destruct (removeFlux (invoke d) w) as [[] w1|e w1]; [|done]. simpl in Hflux.
  specialize (Hpong w1). unfold keeps in Hpong.
  unfold bind at 1. unfold bind at 1 in Hreturns.
  destruct (removePongEvent w1) as [[] w2|e w2]; [|done]. simpl in Hpong.
  unfold bind at 1, removeAllListeners, modify.
  match goal with |- _events (world_of (removeSocketEvent ?w3)) = _ =>
    specialize (Hsocket w3); unfold keeps in Hsocket; rewrite Hsocket
  end.
  rewrite Hpong, Hflux. clear Hsocket. by destruct (decide (is_Some (_events w !! "pong"))).
Qed.

Lemma unload_removes_pong_or_every_listener_witness :
  let w := world_of (on "message" (Subscriber 1 false) (new_World ready_host)) in
  _events w !! "message" = Some (Single (Subscriber 1 false))
  /\ _events (world_of (unload (invoke 0) w)) = ∅.
Proof.
  intros w. split; [reflexivity|].
  rewrite (unload_removes_pong_or_every_listener 0 w); reflexivity.
Defined.

(** ** The readiness handler *)

Lemma addPongEvent_with_sockets_is_quiet (w : World)
    (sockets : list (string * WebSocket)) :
  getAllSpotifySockets (Host.store (host w)) = Some sockets ->
  exists w', addPongEvent w = Returned tt w'
    /\ trace w' = trace w
    /\ _events w' = _events w
    /\ Priv.dispatcher (this w') = Priv.dispatcher (this w)
    /\ registered w' = registered w
    /\ Priv.socket (this w') = Priv.socket (this w).
Proof.
  intros Hsome.
  unfold addPongEvent. unfold bind at 1, modify at 1. unfold bind at 1, gets at 1.
  rewrite Hsome. cbn [Priv.sockets this set_this Priv.set_sockets].
  match goal with |- exists w', forEach sockets ?body ?w0 = _ /\ _ =>
    assert (Hkeep : preserves
                      (keeps (fun w1 => (trace w1, _events w1, Priv.dispatcher (this w1),
                                         registered w1, Priv.socket (this w1))))
                      (forEach sockets body)) by frame;
    assert (Hreturns : returns (forEach sockets body w0) = true);
    [|specialize (Hkeep w0); unfold keeps in Hkeep;
      destruct (forEach sockets body w0) as [[] w'|e w']; [|done]]
  end.
  { apply returns_forEach. intros [account ws] w'. unfold bind at 1, gets at 1.
    destruct (_ !! account); [done|]. by destruct (ordinary account). }
  simpl in Hkeep. injection Hkeep as Htrace Hevents Hbus Hreg Hsocket. by exists w'.
Qed.

(** With a bus at hand the installation returns, and the only call it can
    make on the bus is the first subscription of the readiness handler. *)
Lemma addPongEvent_with_a_bus (bus : Dispatcher) (w : World) :
  Priv.dispatcher (this w) = Some bus ->
  exists w' es,
    addPongEvent w = Returned tt w'
    /\ trace w' = trace w ++ es
    /\ (es = [] \/ es = [Subscribed bus "SPOTIFY_PROFILE_UPDATE" hREGISTER_PONG_EVENT]).
Proof.
  intros Hbus.
  destruct (getAllSpotifySockets (Host.store (host w))) as [sockets|] eqn:Hsockets.
  - destruct (addPongEvent_with_sockets_is_quiet w sockets Hsockets)
      as (w1 & Hrun & Htrace & _).
    exists w1, []. rewrite app_nil_r. by repeat split; [| |left].
  - destruct (Priv.pongListenerRegistered (this w)) eqn:Hflag.
    + exists (set_this (Priv.set_sockets None (this w)) w), [].
      rewrite app_nil_r. split; [|by split; [|left]].
      unfold addPongEvent, bind, modify, gets. rewrite Hsockets. simpl.
      by rewrite Hflag.
    + eexists _, [_]. split; [by apply (addPongEvent_installs_the_fallback bus)|].
      simpl. split; [reflexivity|]. by right.
Qed.

(** X21: The readiness handler, which the heartbeat installation subscribes on
    [SPOTIFY_PROFILE_UPDATE], starts the installation again without
    awaiting it and unsubscribes itself from [GAMES_DATABASE_UPDATE].  With
    a bus, that unsubscription is the only call the handler makes on the
    bus before it returns; the installation it has started runs after it
    and can only add the first subscription of the handler.  So the handler
    is never unsubscribed from the event it is subscribed on.  Without a
    bus the handler throws a [TypeError]. *)
Theorem REGISTER_PONG_EVENT_stays_subscribed (w : World) :
  (forall bus, Priv.dispatcher (this w) = Some bus ->
     exists returned settled es,
       dispatcher_unsubscribe "GAMES_DATABASE_UPDATE" hREGISTER_PONG_EVENT w
       = Returned tt returned
       /\ trace returned
          = trace w ++ [Unsubscribed bus "GAMES_DATABASE_UPDATE" hREGISTER_PONG_EVENT]
       /\ REGISTER_PONG_EVENT w = Returned tt settled
       /\ trace settled = trace returned ++ es
       /\ (es = [] \/ es = [Subscribed bus "SPOTIFY_PROFILE_UPDATE" hREGISTER_PONG_EVENT]))
  /\ (Priv.dispatcher (this w) = None ->
      dispatcher_unsubscribe "GAMES_DATABASE_UPDATE" hREGISTER_PONG_EVENT w
      = Thrown TypeError w
      /\ exists w', REGISTER_PONG_EVENT w = Thrown TypeError w').
Proof.
  split.
  - intros bus Hbus.
    set (returned := record (Unsubscribed bus "GAMES_DATABASE_UPDATE" hREGISTER_PONG_EVENT) w).
    assert (Hunsubscribe : dispatcher_unsubscribe "GAMES_DATABASE_UPDATE"
                             hREGISTER_PONG_EVENT w = Returned tt returned).
    { unfold dispatcher_unsubscribe, bind, gets, modify. by rewrite Hbus. }
    destruct (addPongEvent_with_a_bus bus returned Hbus)
      as (settled & es & Hrun & Htrace & Hes).
    exists returned, settled, es.
    split; [exact Hunsubscribe|]. split; [reflexivity|].
    split; [|by split].
    unfold REGISTER_PONG_EVENT, unawaited. rewrite Hunsubscribe.
    unfold detached. by rewrite Hrun.
  - intros Hnone.
    assert (Hunsubscribe : dispatcher_unsubscribe "GAMES_DATABASE_UPDATE"
                             hREGISTER_PONG_EVENT w = Thrown TypeError w).
    { unfold dispatcher_unsubscribe, bind, gets. by rewrite Hnone. }
    split; [exact Hunsubscribe|].
    unfold REGISTER_PONG_EVENT, unawaited. rewrite Hunsubscribe. by eexists.
Qed.

Lemma REGISTER_PONG_EVENT_stays_subscribed_witness :
  let w := world_of (registerFlux (invoke 0) (new_World starting_host)) in
  exists settled,
    REGISTER_PONG_EVENT w = Returned tt settled
    /\ trace settled
       = trace w ++ [Unsubscribed CommonFlux "GAMES_DATABASE_UPDATE" hREGISTER_PONG_EVENT;
                     Subscribed CommonFlux "SPOTIFY_PROFILE_UPDATE" hREGISTER_PONG_EVENT].
Proof.
  intros w.
  destruct (REGISTER_PONG_EVENT_stays_subscribed w) as [Hbus _].
  destruct (Hbus CommonFlux eq_refl) as (returned & settled & es & _ & Hreturned & Hrun & _).
  exists settled. split; [exact Hrun|].
  assert (Hcomputed : REGISTER_PONG_EVENT w = Returned tt (world_of (REGISTER_PONG_EVENT w)))
    by (vm_compute; reflexivity).
  rewrite Hcomputed in Hrun. injection Hrun as <-. vm_compute. reflexivity.
Defined.

(** ** The heartbeat listeners *)

Lemma forEach_invariant {A : Type} (I : list A -> World -> Prop) (f : A -> M unit)
    (l : list A) (w : World) :
  (forall x rest w0, I (x :: rest) w0 -> exists w1, f x w0 = Returned tt w1 /\ I rest w1) ->
  I l w ->
  exists w', forEach l f w = Returned tt w' /\ I [] w'.
Proof.
  intros Hstep. revert w. induction l as [|x l IH]; intros w Hw.
  - by exists w.
  - destruct (Hstep x l w Hw) as (w1 & Hrun & Hw1).
    destruct (IH w1 Hw1) as (w' & Hrest & Hw').
    exists w'. split; [|done]. simpl. unfold bind. by rewrite Hrun.
Qed.

Lemma filter_all {A : Type} (P : A -> Prop) `{forall x, Decision (P x)} (l : list A) :
  Forall P l -> filter P l = l.
Proof.
  induction 1 as [|x l Hx _ IH]; [done|]. by rewrite filter_cons_True, IH.
Qed.

(** With accounts listed by the host and no heartbeat listener yet, the
    installation gives each account whose id is not the name of a member of
    [Object.prototype] a listener of its own, kept in the table under the
    account and attached to the connection of the account. *)
Lemma addPongEvent_installs (w : World) (sockets : list (string * WebSocket)) :
  getAllSpotifySockets (Host.store (host w)) = Some sockets ->
  NoDup (map fst sockets) ->
  Priv.socketsPongHandlers (this w) = ∅ ->
  Forall (fun l => l.2 = hSPOTIFY_WEBSOCKET_MESSAGE) (listeners w) ->
  exists installed,
    addPongEvent w = Returned tt installed
    /\ host installed = host w
    /\ Priv.sockets (this installed) = Some sockets
    /\ (forall k h, Priv.socketsPongHandlers (this installed) !! k = Some h ->
          exists i, h = hPong k i)
    /\ (forall ws h, (ws, h) ∈ listeners installed ->
          h = hSPOTIFY_WEBSOCKET_MESSAGE
          \/ exists k, (k, ws) ∈ sockets
               /\ Priv.socketsPongHandlers (this installed) !! k = Some h)
    /\ filter (fun l => l.2 = hSPOTIFY_WEBSOCKET_MESSAGE) (listeners installed) = listeners w
    /\ (forall k, is_Some (Priv.socketsPongHandlers (this installed) !! k) ->
          k ∈ map fst sockets)
    /\ (forall k, is_Some (Priv.socketsPongHandlers (this installed) !! k) ->
          ordinary k = true)
    /\ (forall k ws, (k, ws) ∈ sockets -> ordinary k = true ->
          exists i, Priv.socketsPongHandlers (this installed) !! k = Some (hPong k i)
                    /\ (ws, hPong k i) ∈ listeners installed).
Proof.
  intros Hsome Hnodup Hempty Hquiet.
  unfold addPongEvent. unfold bind at 1, modify at 1. unfold bind at 1, gets at 1.
  rewrite Hsome. cbn [Priv.sockets this set_this Priv.set_sockets].
  set (w0 := set_this (Priv.set_sockets (Some sockets) (this w)) w).
  set (I := fun (rest : list (string * WebSocket)) (w1 : World) =>
    host w1 = host w
    /\ Priv.sockets (this w1) = Some sockets
    /\ (forall k h, Priv.socketsPongHandlers (this w1) !! k = Some h -> exists i, h = hPong k i)
    /\ (forall ws h, (ws, h) ∈ listeners w1 ->
          h = hSPOTIFY_WEBSOCKET_MESSAGE
          \/ exists k, (k, ws) ∈ sockets /\ Priv.socketsPongHandlers (this w1) !! k = Some h)
    /\ filter (fun l => l.2 = hSPOTIFY_WEBSOCKET_MESSAGE) (listeners w1) = listeners w
    /\ (forall k, is_Some (Priv.socketsPongHandlers (this w1) !! k) -> k ∈ map fst sockets)
    /\ (forall k, is_Some (Priv.socketsPongHandlers (this w1) !! k) -> ordinary k = true)
    /\ (forall k, is_Some (Priv.socketsPongHandlers (this w1) !! k) -> k ∉ map fst rest)
    /\ NoDup (map fst rest)
    /\ (forall x, x ∈ rest -> x ∈ sockets)
    /\ (forall k ws, (k, ws) ∈ sockets -> ordinary k = true ->
          (k, ws) ∈ rest
          \/ exists i, Priv.socketsPongHandlers (this w1) !! k = Some (hPong k i)
                       /\ (ws, hPong k i) ∈ listeners w1)).
  match goal with |- exists installed, forEach sockets ?body w0 = _ /\ _ =>
    destruct (forEach_invariant I body sockets w0) as (installed & Hrun & Hinstalled)
  end.
  - intros [k ws] rest w1 (Hhost & Hsockets & Hpong & Hlinked & Hothers & Hkeys & Hown
                           & Hfresh & Hnd & Hsub & Hdone).
    unfold bind at 1, gets at 1.
    destruct (Priv.socketsPongHandlers (this w1) !! k) as [h|] eqn:Hk.
    { exfalso. apply (Hfresh k); [by rewrite Hk|]. simpl. apply list_elem_of_here. }
    destruct (ordinary k) eqn:Hordinary.
    2: { exists w1. split; [reflexivity|]. unfold I.
         simpl in Hnd. apply NoDup_cons in Hnd as [Hk_rest Hnd].
         repeat split; try done.
         - intros k' Hheld Hk'. apply (Hfresh k' Hheld). simpl.
           by apply list_elem_of_further.
         - intros x Hx. apply Hsub. by apply list_elem_of_further.
         - intros k' ws' Hin' Hordinary'.
           destruct (Hdone k' ws' Hin' Hordinary') as [Hrest|Hi]; [|by right].
           apply elem_of_cons in Hrest as [[= -> ->]|Hrest]; [congruence | by left]. }
    unfold bind at 1, gets at 1. unfold bind at 1, modify at 1.
    unfold bind at 1, modify_this at 1, modify at 1.
    unfold addEventListener, modify. eexists. split; [reflexivity|].
    simpl in Hnd. apply NoDup_cons in Hnd as [Hk_rest Hnd].
    assert (Hin : (k, ws) ∈ sockets) by (apply Hsub, list_elem_of_here).
    set (h := hPong k (closures w1)).
    assert (Hlookup : forall k' h', <[k := h]> (Priv.socketsPongHandlers (this w1)) !! k'
                                    = Some h' ->
                      (k' = k /\ h' = h) \/ (k' <> k /\
                         Priv.socketsPongHandlers (this w1) !! k' = Some h')).
    { intros k' h' Hl. destruct (decide (k' = k)) as [->|Hne].
      - rewrite lookup_insert_eq in Hl. injection Hl as <-. by left.
      - rewrite lookup_insert_ne in Hl by done. by right. }
    assert (Hkept : forall k' h', Priv.socketsPongHandlers (this w1) !! k' = Some h' ->
                      <[k := h]> (Priv.socketsPongHandlers (this w1)) !! k' = Some h').
    { intros k' h' Hl. rewrite lookup_insert_ne; [done|]. intros <-. by rewrite Hk in Hl. }
    unfold I.
    destruct (decide _) as [Hattached|Hnew]; cbn [host this listeners set_this set_closures
      set_listeners Priv.sockets Priv.socketsPongHandlers Priv.set_socketsPongHandlers].
    + repeat split; try done.
      * intros k' h' Hl. destruct (Hlookup k' h' Hl) as [[-> ->]|[_ Hold]];
          [by eexists | by eapply Hpong].
      * intros ws' h' Hl. destruct (Hlinked ws' h' Hl) as [?|(k' & Hk' & Hh')]; [by left|].
        right. exists k'. split; [done|]. by apply Hkept.
      * intros k' [h' Hl]. destruct (Hlookup k' h' Hl) as [[-> _]|[_ Hold]].
        -- apply list_elem_of_fmap. by exists (k, ws).
        -- apply Hkeys. by eexists.
      * intros k' [h' Hl]. destruct (Hlookup k' h' Hl) as [[-> _]|[_ Hold]]; [done|].
        apply Hown. by eexists.
      * intros k' [h' Hl]. destruct (Hlookup k' h' Hl) as [[-> _]|[_ Hold]]; [done|].
        intros Hk'. apply (Hfresh k'); [by eexists|]. simpl. by apply list_elem_of_further.
      * intros x Hx. apply Hsub. by apply list_elem_of_further.
      * intros k' ws' Hin' Hordinary'.
        destruct (Hdone k' ws' Hin' Hordinary') as [Hrest|(i & Hi & Hl)].
        -- apply elem_of_cons in Hrest as [[= -> ->]|Hrest]; [|by left].
           right. exists (closures w1). split; [apply lookup_insert_eq | exact Hattached].
        -- right. exists i. split; [by apply Hkept | done].
    + repeat split; try done.
      * intros k' h' Hl. destruct (Hlookup k' h' Hl) as [[-> ->]|[_ Hold]];
          [by eexists | by eapply Hpong].
      * intros ws' h' Hl. apply elem_of_app in Hl as [Hl|Hl].
        -- destruct (Hlinked ws' h' Hl) as [?|(k' & Hk' & Hh')]; [by left|].
           right. exists k'. split; [done|]. by apply Hkept.
        -- apply list_elem_of_singleton in Hl. injection Hl as -> ->.
           right. exists k. split; [done|]. apply lookup_insert_eq.
      * rewrite filter_app, Hothers. rewrite filter_cons_False by done.
        by rewrite filter_nil, app_nil_r.
      * intros k' [h' Hl]. destruct (Hlookup k' h' Hl) as [[-> _]|[_ Hold]].
        -- apply list_elem_of_fmap. by exists (k, ws).
        -- apply Hkeys. by eexists.
      * intros k' [h' Hl]. destruct (Hlookup k' h' Hl) as [[-> _]|[_ Hold]]; [done|].
        apply Hown. by eexists.
      * intros k' [h' Hl]. destruct (Hlookup k' h' Hl) as [[-> _]|[_ Hold]]; [done|].
        intros Hk'. apply (Hfresh k'); [by eexists|]. simpl. by apply list_elem_of_further.
      * intros x Hx. apply Hsub. by apply list_elem_of_further.
      * intros k' ws' Hin' Hordinary'.
        destruct (Hdone k' ws' Hin' Hordinary') as [Hrest|(i & Hi & Hl)].
        -- apply elem_of_cons in Hrest as [[= -> ->]|Hrest]; [|by left].
           right. exists (closures w1). split; [apply lookup_insert_eq|].
           apply elem_of_app. right. apply list_elem_of_here.
        -- right. exists i. split; [by apply Hkept|]. apply elem_of_app. by left.
  - subst I w0. cbn [host this listeners set_this Priv.sockets Priv.socketsPongHandlers
      Priv.set_sockets]. rewrite Hempty.
    repeat split; try done.
    + intros ws h Hl. left.
      rewrite List.Forall_forall in Hquiet. apply (Hquiet (ws, h)). by apply list_elem_of_In.
    + by apply filter_all.
    + intros k [h Hl]. by rewrite lookup_empty in Hl.
    + intros k [h Hl]. by rewrite lookup_empty in Hl.
    + intros k [h Hl]. by rewrite lookup_empty in Hl.
    + intros k ws Hin _. by left.
  - exists installed. split; [exact Hrun|].
    destruct Hinstalled as (Hhost & Hsockets & Hpong & Hlinked & Hothers & Hkeys & Hown
                            & _ & _ & _ & Hdone).
    repeat split; try done.
    intros k ws Hin Hordinary. destruct (Hdone k ws Hin Hordinary) as [Hnil|Hi]; [|done].
    by apply elem_of_nil in Hnil.
Qed.

(** The removal detaches every listener of the table from the connection
    it was attached to, and empties the table. *)
Lemma removePongEvent_removes (w : World) (sockets : list (string * WebSocket)) :
  Priv.sockets (this w) = Some sockets ->
  NoDup (map fst sockets) ->
  (forall k h, Priv.socketsPongHandlers (this w) !! k = Some h -> exists i, h = hPong k i) ->
  (forall ws h, (ws, h) ∈ listeners w ->
     h = hSPOTIFY_WEBSOCKET_MESSAGE
     \/ exists k, (k, ws) ∈ sockets /\ Priv.socketsPongHandlers (this w) !! k = Some h) ->
  (forall k, is_Some (Priv.socketsPongHandlers (this w) !! k) -> k ∈ map fst sockets) ->
  exists removed,
    removePongEvent w = Returned tt removed
    /\ listeners removed = filter (fun l => l.2 = hSPOTIFY_WEBSOCKET_MESSAGE) (listeners w)
    /\ Priv.socketsPongHandlers (this removed) = ∅.
Proof.
  intros Hsockets Hnodup Hpong Hlinked Hkeys.
  unfold removePongEvent. unfold bind at 1, gets at 1. rewrite Hsockets.
  set (I := fun (todo : list (string * WebSocket)) (w1 : World) =>
    (forall k h, Priv.socketsPongHandlers (this w1) !! k = Some h -> exists i, h = hPong k i)
    /\ (forall ws h, (ws, h) ∈ listeners w1 ->
          h = hSPOTIFY_WEBSOCKET_MESSAGE
          \/ exists k, (k, ws) ∈ todo /\ Priv.socketsPongHandlers (this w1) !! k = Some h)
    /\ filter (fun l => l.2 = hSPOTIFY_WEBSOCKET_MESSAGE) (listeners w1)
       = filter (fun l => l.2 = hSPOTIFY_WEBSOCKET_MESSAGE) (listeners w)
    /\ (forall k, is_Some (Priv.socketsPongHandlers (this w1) !! k) -> k ∈ map fst todo)
    /\ NoDup (map fst todo)).
  match goal with |- exists removed, forEach sockets ?body w = _ /\ _ =>
    destruct (forEach_invariant I body sockets w) as (removed & Hrun & Hremoved)
  end.
  - intros [k ws] todo w1 (Hpong1 & Hlinked1 & Hothers & Hkeys1 & Hnd).
    simpl in Hnd. apply NoDup_cons in Hnd as [Hk_todo Hnd].
    unfold bind at 1, gets at 1.
    destruct (Priv.socketsPongHandlers (this w1) !! k) as [h|] eqn:Hk.
    + unfold bind at 1, removeEventListener at 1, modify at 1.
      unfold modify_this, modify. eexists. split; [reflexivity|]. unfold I.
      cbn [this listeners set_this set_listeners Priv.socketsPongHandlers
             Priv.set_socketsPongHandlers].
      destruct (Hpong1 k h Hk) as [i ->].
      repeat split; try done.
      * intros k' h' Hl. destruct (decide (k' = k)) as [->|Hne].
        -- by rewrite lookup_delete_eq in Hl.
        -- rewrite lookup_delete_ne in Hl by done. by eapply Hpong1.
      * intros ws' h' Hl. apply list_elem_of_filter in Hl as [Hne Hl].
        destruct (Hlinked1 ws' h' Hl) as [?|(k' & Hk' & Hh')]; [by left|].
        right. exists k'.
        apply elem_of_cons in Hk' as [[= -> ->]|Hk'].
        -- exfalso. apply Hne. rewrite Hk in Hh'. by injection Hh' as <-.
        -- split; [done|]. rewrite lookup_delete_ne; [done|].
           intros <-. apply Hk_todo. apply list_elem_of_fmap. by exists (k, ws').
      * rewrite <- Hothers. rewrite list_filter_filter. apply list_filter_iff.
        intros [ws' h']. simpl. split; [by intros [? _]|].
        intros ->. split; [done|]. by intros [= _ ?].
      * intros k' [h' Hl]. destruct (decide (k' = k)) as [->|Hne].
        -- by rewrite lookup_delete_eq in Hl.
        -- rewrite lookup_delete_ne in Hl by done.
           assert (Hin : k' ∈ map fst ((k, ws) :: todo)) by (apply Hkeys1; by eexists).
           simpl in Hin. by apply elem_of_cons in Hin as [?|?].
    + eexists. split; [reflexivity|]. unfold I. repeat split; try done.
      * intros ws' h' Hl.
        destruct (Hlinked1 ws' h' Hl) as [?|(k' & Hk' & Hh')]; [by left|].
        right. exists k'. split; [|done].
        apply elem_of_cons in Hk' as [[= -> ->]|Hk']; [|done].
        by rewrite Hk in Hh'.
      * intros k' Hsome.
        assert (Hin : k' ∈ map fst ((k, ws) :: todo)) by by apply Hkeys1.
        simpl in Hin. apply elem_of_cons in Hin as [->|?]; [|done].
        rewrite Hk in Hsome. by destruct Hsome.
  - by unfold I.
  - exists removed. split; [exact Hrun|].
    destruct Hremoved as (_ & Hlinked' & Hothers & Hkeys' & _). split.
    + rewrite <- Hothers. symmetry. apply filter_all.
      apply List.Forall_forall. intros [ws h] Hin. apply list_elem_of_In in Hin.
      destruct (Hlinked' ws h Hin) as [?|(k & Hk & _)]; [done|].
      by apply elem_of_nil in Hk.
    + apply map_empty. intros k.
      destruct (Priv.socketsPongHandlers (this removed) !! k) as [h|] eqn:Hk; [|done].
      assert (Hin : k ∈ map fst (@nil (string * WebSocket))) by (apply Hkeys'; by eexists).
      by apply elem_of_nil in Hin.
Qed.

(** With a listener in the table for each account listed that can have
    one, the installation changes nothing. *)
Lemma addPongEvent_again (w : World) (sockets : list (string * WebSocket)) :
  getAllSpotifySockets (Host.store (host w)) = Some sockets ->
  Priv.sockets (this w) = Some sockets ->
  (forall k ws, (k, ws) ∈ sockets -> ordinary k = true ->
     is_Some (Priv.socketsPongHandlers (this w) !! k)) ->
  addPongEvent w = Returned tt w.
Proof.
  intros Hsome Hsockets Hall.
  unfold addPongEvent. unfold bind at 1, modify at 1. unfold bind at 1, gets at 1.
  rewrite Hsome. cbn [Priv.sockets this set_this Priv.set_sockets].
  assert (Hsame : set_this (Priv.set_sockets (Some sockets) (this w)) w = w).
  { destruct w as [ev [a dsp dev st so ha sk reg pl] ho li cl tr]. simpl in *. by subst so. }
  rewrite Hsame. clear Hsame Hsome Hsockets.
  induction sockets as [|[k ws] sockets IH]; [done|].
  simpl. unfold bind at 1. unfold bind at 1, gets at 1.
  assert (Hrest : forall k' ws', (k', ws') ∈ sockets -> ordinary k' = true ->
                     is_Some (Priv.socketsPongHandlers (this w) !! k')).
  { intros k' ws' Hin. apply (Hall k' ws'). by apply list_elem_of_further. }
  destruct (Priv.socketsPongHandlers (this w) !! k) as [h|] eqn:Hk;
    [unfold ret at 1; by apply IH|].
  destruct (ordinary k) eqn:Hordinary; [|unfold ret at 1; by apply IH].
  destruct (Hall k ws (list_elem_of_here _ _) Hordinary) as [h Hh]. congruence.
Qed.

(** X22: The heartbeat listeners, from installation to removal.  With accounts
    listed by the host and no heartbeat listener yet: the installation
    attaches to the connection of each account a listener of its own and
    keeps it in the table under the account, except for an account whose id
    is the name of a member of [Object.prototype], which gets none;
    installing again changes nothing; and the removal detaches what the
    installation attached and empties the table, so the connections have
    the listeners they had before. *)
Theorem heartbeat_listeners_round_trip (w : World) (sockets : list (string * WebSocket)) :
  getAllSpotifySockets (Host.store (host w)) = Some sockets ->
  NoDup (map fst sockets) ->
  Priv.socketsPongHandlers (this w) = ∅ ->
  Forall (fun l => l.2 = hSPOTIFY_WEBSOCKET_MESSAGE) (listeners w) ->
  exists installed removed,
    addPongEvent w = Returned tt installed
    /\ (forall account ws, (account, ws) ∈ sockets -> ordinary account = true ->
          exists serial,
            Priv.socketsPongHandlers (this installed) !! account = Some (hPong account serial)
            /\ (ws, hPong account serial) ∈ listeners installed)
    /\ (forall account, ordinary account = false ->
          Priv.socketsPongHandlers (this installed) !! account = None
          /\ forall ws serial, (ws, hPong account serial) ∉ listeners installed)
    /\ addPongEvent installed = Returned tt installed
    /\ removePongEvent installed = Returned tt removed
    /\ listeners removed = listeners w
    /\ Priv.socketsPongHandlers (this removed) = ∅.
Proof.
  intros Hsome Hnodup Hempty Hquiet.
  destruct (addPongEvent_installs w sockets Hsome Hnodup Hempty Hquiet)
    as (installed & Hrun & Hhost & Hsockets & Hpong & Hlinked & Hothers & Hkeys & Hown
        & Hdone).
  destruct (removePongEvent_removes installed sockets Hsockets Hnodup Hpong Hlinked Hkeys)
    as (removed & Hremove & Hlisteners & Htable).
  assert (Hnone : forall account, ordinary account = false ->
                    Priv.socketsPongHandlers (this installed) !! account = None).
  { intros account Hinherited.
    destruct (Priv.socketsPongHandlers (this installed) !! account) as [h|] eqn:Hh; [|done].
    rewrite (Hown account) in Hinherited; [done | by eexists]. }
  exists installed, removed. split; [exact Hrun|]. split; [exact Hdone|].
  split; [|split; [|split; [exact Hremove|split; [|exact Htable]]]].
  - intros account Hinherited. split; [by apply Hnone|].
    intros ws serial Hin.
    destruct (Hlinked ws (hPong account serial) Hin) as [?|(k & _ & Hk)]; [done|].
    destruct (Hpong k _ Hk) as [i [= -> ->]].
    by rewrite (Hnone k Hinherited) in Hk.
  - apply (addPongEvent_again installed sockets); [by rewrite Hhost | done |].
    intros k ws Hin Hordinary. destruct (Hdone k ws Hin Hordinary) as (i & Hi & _).
    by eexists.
  - by rewrite Hlisteners, Hothers.
Qed.

Lemma heartbeat_listeners_round_trip_witness :
  let h := Host.mk (Some (Store.mk None [("C", account_C); ("toString", account_A)]))
             true false in
  exists installed removed,
    addPongEvent (new_World h) = Returned tt installed
    /\ listeners installed = [(3, hPong "C" 0)]
    /\ removePongEvent installed = Returned tt removed
    /\ listeners removed = [].
Proof.
  intros h.
  destruct (heartbeat_listeners_round_trip (new_World h) [("C", 3); ("toString", 1)])
    as (installed & removed & Hinstall & _ & _ & _ & Hremove & Hlisteners & _).
  - reflexivity.
  - simpl. apply NoDup_cons. split; [|apply NoDup_singleton].
    intros Hin. apply list_elem_of_singleton in Hin. discriminate Hin.
  - reflexivity.
  - constructor.
  - exists installed, removed. split; [exact Hinstall|].
    split; [|split; [exact Hremove | exact Hlisteners]].
    assert (Hrun : addPongEvent (new_World h)
                   = Returned tt (world_of (addPongEvent (new_World h))))
      by (vm_compute; reflexivity).
    rewrite Hrun in Hinstall. injection Hinstall as <-. vm_compute. reflexivity.
Defined.

(** ** From a heartbeat to the bound account *)

(** X23: A heartbeat on the connection of an account, with the relay of [load]
    as the listener on [pong] and no account bound yet: the heartbeat
    listener emits [pong(account)], the relay hands the account to the
    update handler, which adopts it and emits [update]; the watcher ends
    bound to the account of the connection the heartbeat came on. *)
Theorem heartbeat_binds_an_unbound_watcher (d serial : nat) (account text : string)
    (data : value) (w : World) :
  JSON_parse text = Some data ->
  get_opt data "type" = VStr "pong" ->
  account <> "" ->
  accountId w = "" ->
  _events w !! "pong" = Some (Single (PongRelay serial)) ->
  let final := world_of (pong_handler (invoke (S d)) account text w) in
  accountId final = account
  /\ exists rest,
       trace final
       = trace w ++ [Emitted "pong" [VStr account]; Invoked (PongRelay serial) [VStr account];
                     Emitted "update" [VStr account; VStr account]] ++ rest.
Proof.
  intros Hparse Htype Haccount Hunbound Hrelay final.
  set (w0 := record (Invoked (PongRelay serial) [VStr account])
               (record (Emitted "pong" [VStr account]) w)).
  set (w1 := set_this (Priv.set_accountId account (this w0)) w0).
  assert (Htrace : trace w1 = trace w ++ [Emitted "pong" [VStr account];
                                          Invoked (PongRelay serial) [VStr account]]).
  { subst w1 w0. simpl. by rewrite <- app_assoc. }
  assert (Hrun : pong_handler (invoke (S d)) account text w
                 = (emit (invoke d) "update" [VStr account; VStr account] ;;
                    detached (afterSpotifyUpdate (invoke d))) w1).
  { unfold pong_handler, JSON_parse_or_throw. rewrite Hparse.
    unfold bind at 1, ret at 1. rewrite Htype.
    change (truthy (VStr "pong") && is_string "pong" (VStr "pong")) with true. cbv iota.
    unfold emit at 1. unfold bind at 1, modify at 1. unfold bind at 1, gets at 1.
    change (_events (record (Emitted "pong" [VStr account]) w)) with (_events w).
    rewrite Hrelay. unfold bind at 1, modify at 1. fold w0.
    change (invoke (S d) (PongRelay serial) [VStr account])
      with (SPOTIFY_UPDATE (invoke d) account).
    unfold SPOTIFY_UPDATE. unfold bind at 1, gets at 1.
    change (accountId w0) with (accountId w).
    rewrite Hunbound. change ("" =? "")%string with true. cbv iota.
    unfold bind at 1, modify_this at 1, modify at 1. fold w1.
    unfold bind at 1, gets at 1.
    change (accountId w1) with account.
    rewrite String.eqb_refl. reflexivity. }
  assert (Hw1 : accountId w1 = account) by reflexivity.
  subst final. rewrite Hrun. clearbody w1. clear Hrun.
  assert (Hcall : forall f args, preserves extends (invoke d f args)).
  { intros f args.
    apply (preserves_invoke extends extends_refl extends_trans extends_record
             extends_accountId).
    intros call0 Hcall0.
    by apply (preserves_afterSpotifyUpdate extends extends_refl extends_trans
                extends_record extends_listeners). }
  split.
  - assert (Hkeep : preserves stays_bound
                      (emit (invoke d) "update" [VStr account; VStr account] ;;
                       detached (afterSpotifyUpdate (invoke d)))) by bound_frame.
    rewrite (Hkeep w1); [done|]. by rewrite Hw1.
  - rewrite world_of_bind.
    pose proof (emit_from_its_record extends extends_refl extends_trans extends_record
                  (invoke d) "update" [VStr account; VStr account] w1 Hcall) as Hemit.
    destruct (emit (invoke d) "update" [VStr account; VStr account] w1) as [[] w2|e w2];
      simpl in Hemit; destruct Hemit as [es Hes].
    + assert (Hafter : preserves extends (detached (afterSpotifyUpdate (invoke d)))).
      { apply preserves_detached; [apply extends_trans | apply extends_record |].
        by apply (preserves_afterSpotifyUpdate extends extends_refl extends_trans
                    extends_record extends_listeners). }
      destruct (Hafter w2) as [es' Hes'].
      exists (es ++ es'). rewrite Hes', Hes. simpl. rewrite Htrace.
      by rewrite <- !app_assoc.
    + exists es. rewrite Hes. simpl. rewrite Htrace. by rewrite <- !app_assoc.
Qed.

Lemma heartbeat_binds_an_unbound_watcher_witness :
  let loaded := world_of (load (invoke 0) (new_World ready_host)) in
  accountId loaded = ""
  /\ accountId (world_of (pong_handler (invoke 1) "C" (js "{'type':'pong'}") loaded)) = "C".
Proof.
  intros loaded. split; [reflexivity|].
  apply (heartbeat_binds_an_unbound_watcher 0 2 "C" (js "{'type':'pong'}")
           (VObj [("type", VStr "pong")]) loaded).
  - vm_compute. reflexivity.
  - reflexivity.
  - discriminate.
  - reflexivity.
  - vm_compute. reflexivity.
Defined.

(** ** Loading and unloading *)

(** X24: [load] and then [unload] on a new watcher, with a dispatch bus and
    accounts listed by the host: both return.  After [load] the watcher is
    registered, its only listener is the relay on [pong], and every account
    listed whose id is not the name of a member of [Object.prototype] has a
    heartbeat listener on its connection; after [unload] no
    listener is attached to a connection, no listener is registered on the
    watcher, the table of heartbeat listeners is empty, and the calls made
    on the bus are the five subscriptions followed by the five
    unsubscriptions of the same events. *)
Theorem load_then_unload (call : Callback -> list value -> M unit) (h : Host.t)
    (sockets : list (string * WebSocket)) :
  Host.common_fluxDispatcher h = true \/ Host.webpack_fluxDispatcher h = true ->
  getAllSpotifySockets (Host.store h) = Some sockets ->
  NoDup (map fst sockets) ->
  let bus := if Host.common_fluxDispatcher h then CommonFlux else WebpackFlux in
  exists loaded unloaded serial,
    load call (new_World h) = Returned tt loaded
    /\ registered loaded = true
    /\ _events loaded = {[ "pong" := Single (PongRelay serial) ]}
    /\ (forall account ws, (account, ws) ∈ sockets -> ordinary account = true ->
          exists i, (ws, hPong account i) ∈ listeners loaded)
    /\ unload call loaded = Returned tt unloaded
    /\ registered unloaded = false
    /\ _events unloaded = ∅
    /\ listeners unloaded = []
    /\ Priv.socketsPongHandlers (this unloaded) = ∅
    /\ trace unloaded
       = map (fun event => Subscribed bus event hSPOTIFY_UPDATE) flux_events
         ++ [Emitted "registered" []]
         ++ map (fun event => Unsubscribed bus event hSPOTIFY_UPDATE) flux_events
         ++ [Emitted "unregistered" []].
Proof.
  intros Hbus Hsome Hnodup bus.
  pose proof (registerFlux_subscribes call (new_World h) Hbus eq_refl (lookup_empty _))
    as Hregister. cbv zeta in Hregister.
  change (Host.common_fluxDispatcher (host (new_World h)))
    with (Host.common_fluxDispatcher h) in Hregister. fold bus in Hregister.
  match type of Hregister with _ = Returned tt ?w0 => set (subscribed := w0) in * end.
  destruct (addPongEvent_installs subscribed sockets Hsome Hnodup eq_refl (Forall_nil_2 _))
    as (installed & Hinstall & Hhost & Hsockets & Hpong & Hlinked & Hothers & Hkeys & _
        & Hdone).
  destruct (addPongEvent_with_sockets_is_quiet subscribed sockets Hsome)
    as (installed' & Hinstall' & Htrace & Hevents & Hdispatcher & Hreg & Hsocket).
  rewrite Hinstall in Hinstall'. injection Hinstall' as <-.
  set (loaded := set_events (<["pong" := Single (PongRelay (closures installed))]> ∅)
                   (set_closures (S (closures installed)) installed)).
  assert (Hload : load call (new_World h) = Returned tt loaded).
  { unfold load. unfold bind at 1. rewrite Hregister.
    unfold bind at 1. rewrite Hinstall.
    unfold bind at 1, gets at 1. unfold bind at 1, modify at 1.
    unfold on, modify.
    cbn [_events set_closures]. rewrite Hevents.
    change (_events subscribed) with (∅ : gmap string Listeners).
    rewrite lookup_empty. reflexivity. }
  assert (Hremove : removeFlux call loaded
            = Returned tt
                (record (Emitted "unregistered" [])
                   (set_this (Priv.set_registered false (this loaded))
                      (records (map (fun event => Unsubscribed bus event hSPOTIFY_UPDATE)
                                  flux_events) loaded)))).
  { rewrite (removeFlux_registered call bus).
    - unfold emit, bind, modify, gets. cbn [_events record set_this records loaded set_events].
      by rewrite lookup_insert_ne.
    - subst loaded. cbn [this set_events set_closures]. by rewrite Hdispatcher.
    - subst loaded. unfold registered in *. cbn [this set_events set_closures].
      by rewrite Hreg. }
  match type of Hremove with _ = Returned tt ?w0 => set (unsubscribed := w0) in * end.
  destruct (removePongEvent_removes unsubscribed sockets)
    as (removed & Hpongs & Hlisteners & Htable);
    [exact Hsockets | exact Hnodup | exact Hpong | exact Hlinked | exact Hkeys |].
  assert (Hkeep : preserves
                    (keeps (fun w1 => (trace w1, _events w1, registered w1, Priv.socket (this w1))))
                    removePongEvent) by frame.
  specialize (Hkeep unsubscribed). unfold keeps in Hkeep. rewrite Hpongs in Hkeep.
  simpl world_of in Hkeep. injection Hkeep as Htrace' Hevents' Hreg' Hsocket'.
  exists loaded, (set_events ∅ removed), (closures installed).
  split; [exact Hload|]. split; [subst loaded; unfold registered in *; simpl; by rewrite Hreg|].
  split; [reflexivity|]. split.
  { intros account ws Hin Hordinary.
    destruct (Hdone account ws Hin Hordinary) as (i & _ & Hi). by exists i. }
  split.
  { unfold unload. unfold bind at 1. rewrite Hremove.
    unfold bind at 1. rewrite Hpongs.
    unfold bind at 1, removeAllListeners, modify. rewrite Hevents'.
    change (_events unsubscribed) with (<["pong" := Single (PongRelay (closures installed))]> ∅
                                          : gmap string Listeners).
    rewrite lookup_insert_eq. rewrite decide_True by by eexists.
    rewrite delete_insert_id by apply lookup_empty.
    unfold removeSocketEvent, bind, gets. unfold socket. cbn [this set_events].
    rewrite Hsocket'.
    change (Priv.socket (this unsubscribed)) with (Priv.socket (this installed)).
    rewrite Hsocket. reflexivity. }
  split; [unfold registered in *; cbn [this set_events]; by rewrite Hreg'|].
  split; [reflexivity|].
  split.
  { cbn [listeners set_events]. rewrite Hlisteners.
    change (listeners unsubscribed) with (listeners installed). by rewrite Hothers. }
  split; [exact Htable|].
  cbn [trace set_events]. rewrite Htrace'.
  change (trace unsubscribed)
    with ((trace installed ++ map (fun event => Unsubscribed bus event hSPOTIFY_UPDATE) flux_events)
            ++ [Emitted "unregistered" []]).
  rewrite Htrace. simpl. reflexivity.
Qed.

Lemma load_then_unload_witness :
  exists loaded unloaded serial,
    load (invoke 0) (new_World ready_host) = Returned tt loaded
    /\ _events loaded = {[ "pong" := Single (PongRelay serial) ]}
    /\ unload (invoke 0) loaded = Returned tt unloaded
    /\ _events unloaded = ∅
    /\ listeners unloaded = [].
Proof.
  destruct (load_then_unload (invoke 0) ready_host [("C", 3); ("A", 1)])
    as (loaded & unloaded & serial & Hload & _ & Hrelay & _ & Hunload & _ & Hevents
        & Hlisteners & _).
  - by left.
  - reflexivity.
  - simpl. apply NoDup_cons. split; [|apply NoDup_singleton].
    intros Hin. apply list_elem_of_singleton in Hin. discriminate Hin.
  - by exists loaded, unloaded, serial.
Defined.

(** ** What the connections tell the watcher *)

Lemma heartbeat_listeners_keep_the_store (d : nat) (text : string)
    (ls : list (WebSocket * SocketListener)) :
  Forall (fun l => l.2 <> hSPOTIFY_WEBSOCKET_MESSAGE) ls ->
  preserves (keeps stored) (forEach ls (fun l => detached (run_listener d l.2 text))).
Proof.
  induction 1 as [|[ws h] ls Hh _ IH]; simpl.
  - frame.
  - apply preserves_bind; [keeps_atom | | intros _; exact IH].
    destruct h as [|account serial]; [done|]. simpl. frame.
Qed.

Lemma message_event_keeps_the_store (d : nat) (ws : WebSocket) (text : string) (w : World) :
  unbound w -> stored (world_of (message_event d ws text w)) = stored w.
Proof.
  intros [_ Hlisteners]. unfold message_event. unfold bind at 1, gets at 1.
  apply heartbeat_listeners_keep_the_store.
  apply List.Forall_forall. intros l Hl. apply list_elem_of_In in Hl.
  apply list_elem_of_filter in Hl as [_ Hl].
  rewrite List.Forall_forall in Hlisteners. apply Hlisteners. by apply list_elem_of_In.
Qed.

(** X25: A watcher built by the constructor learns nothing from its
    connections: the message handler is attached to none, so whatever the
    messages that arrive on them, and whatever else happens short of a
    direct call of the handler, the stored player state and device list
    stay unset and the getters answer with the empty object and the empty
    list. *)
Theorem messages_on_connections_never_reach_the_state (d : nat) (h : Host.t)
    (history : list Op) :
  Forall (fun op => carries_state op = false
                    \/ exists ws text, op = op_message_event ws text) history ->
  let w := after d history (new_World h) in
  stored w = (VUndefined, VUndefined) /\ state w = VObj [] /\ devices w = VArr [].
Proof.
  intros Hhistory w.
  assert (Hstored : unbound w /\ stored w = (VUndefined, VUndefined)).
  { subst w.
    assert (Hnew : unbound (new_World h) /\ stored (new_World h) = (VUndefined, VUndefined))
      by (by repeat split).
    revert Hnew. generalize (new_World h) as w.
    induction Hhistory as [|op history Hop _ IH]; intros w [Hunbound Hstored]; [done|].
    simpl. apply IH. split; [by apply run_op_stays_unbound|].
    rewrite <- Hstored. destruct Hop as [Hquiet|(ws & text & ->)].
    - by apply run_op_keeps_the_store.
    - by apply message_event_keeps_the_store. }
  destruct Hstored as [_ Hstored]. split; [exact Hstored|].
  unfold stored in Hstored. injection Hstored as Hstate Hdevices.
  unfold state, devices. by rewrite Hstate, Hdevices.
Qed.

Lemma messages_on_connections_never_reach_the_state_witness :
  let history := [op_load; op_SPOTIFY_UPDATE "A"; op_message_event 1 player_state_text;
                  op_message_event 3 player_state_text] in
  state_message player_state_text = true
  /\ state (after 1 history (new_World ready_host)) = VObj [].
Proof.
  intros history. split; [vm_compute; reflexivity|].
  apply (messages_on_connections_never_reach_the_state 1 ready_host history).
  subst history.
  apply List.Forall_cons; [by left|]. apply List.Forall_cons; [by left|].
  apply List.Forall_cons; [right; by eexists _, _|].
  apply List.Forall_cons; [right; by eexists _, _|]. apply List.Forall_nil.
Defined.

(** ** SpotifyModal.parseArtists *)

Lemma artist_element_text (classes : option string) (tooltip : bool) (artist : Artist.t)
    (element : DOM.Node) :
  artist_element classes tooltip artist = inr element ->
  DOM.textContent element = Artist.name artist.
Proof.
  unfold artist_element. destruct (Artist.id artist) as [id|]; [|by intros [= <-]].
  destruct (DOM.classList_add _ _); [done|]. by intros [= <-].
Qed.

Lemma push_artists_returns (classes : option string) (tooltip : bool)
    (artists : list Artist.t) (res : list DOM.Node) :
  push_artists classes tooltip artists = inr res ->
  length res = (2 * length artists - 1)%nat
  /\ String.concat "" (map DOM.textContent res) = String.concat ", " (map Artist.name artists).
Proof.
  revert res. induction artists as [|artist rest IH]; intros res; simpl.
  - by intros [= <-].
  - destruct (artist_element classes tooltip artist) as [e|element] eqn:Helement; [done|].
    destruct (push_artists classes tooltip rest) as [e|res'] eqn:Hrest; [done|].
    destruct (IH res' eq_refl) as [Hlength Htext].
    apply artist_element_text in Helement.
    destruct rest as [|next rest]; intros [= <-].
    + simpl in Hrest. injection Hrest as <-. simpl. split; [done|].
      by rewrite Helement.
    + split; [simpl in *; lia|].
      change (map DOM.textContent (element :: DOM.Text ", " :: res'))
        with (DOM.textContent element :: ", " :: map DOM.textContent res').
      rewrite !concat_empty_cons, Htext, Helement.
      change (map Artist.name (artist :: next :: rest))
        with (Artist.name artist :: map Artist.name (next :: rest)).
      reflexivity.
Qed.

Lemma push_artists_outcome (classes : option string) (tooltip : bool)
    (artists : list Artist.t) :
  match DOM.validate (match classes with Some c => split_spaces c | None => [] end) with
  | Some e =>
      if existsb (fun artist => bool_decide (is_Some (Artist.id artist))) artists
      then push_artists classes tooltip artists = inl e
      else exists res, push_artists classes tooltip artists = inr res
  | None => exists res, push_artists classes tooltip artists = inr res
  end.
Proof.
  destruct (DOM.validate _) as [e|] eqn:Hvalid.
  - induction artists as [|artist rest IH]; [by eexists|].
    simpl. unfold artist_element at 1 2. unfold DOM.classList_add. rewrite Hvalid.
    destruct (Artist.id artist) as [id|] eqn:Hid.
    + by rewrite bool_decide_eq_true_2.
    + rewrite bool_decide_eq_false_2 by (by intros [? ?]). simpl.
      destruct (existsb _ rest); [by rewrite IH|].
      destruct IH as [res ->]. by eexists.
  - induction artists as [|artist rest [res IH]]; [by eexists|].
    simpl. unfold artist_element. unfold DOM.classList_add. rewrite Hvalid, IH.
    destruct (Artist.id artist); by eexists.
Qed.

(** X26: When [parseArtists] returns, it returns at least one node: the one
    text node [Unknown] for a track without artists, and otherwise one node
    for each artist, in order, with a text node [", "] between two
    neighbours, so twice as many nodes as artists less one; read as text
    the nodes give the names of the artists joined by [", "]. *)
Theorem parseArtists_lists_the_artists (artists : list Artist.t) (classes : option string)
    (tooltip : bool) (nodes : list DOM.Node) :
  parseArtists artists classes tooltip = inr nodes ->
  nodes <> []
  /\ length nodes = Nat.max 1 (2 * length artists - 1)
  /\ String.concat "" (map DOM.textContent nodes)
     = match artists with
       | [] => "Unknown"
       | _ :: _ => String.concat ", " (map Artist.name artists)
       end.
Proof.
  unfold parseArtists.
  destruct (push_artists classes tooltip artists) as [e|res] eqn:Hpush; [done|].
  destruct (push_artists_returns classes tooltip artists res Hpush) as [Hlength Htext].
  destruct res as [|node res].
  - intros [= <-]. destruct artists as [|artist rest]; [done|]. simpl in Hlength. lia.
  - intros [= <-]. split; [done|]. destruct artists as [|artist rest]; [done|].
    split; [|exact Htext]. rewrite Hlength. simpl. lia.
Qed.

Lemma parseArtists_lists_the_artists_witness :
  let artists := [Artist.mk "Daft Punk" (Some "4tZwfgrHOc3mvqYlEYSvVi");
                  Artist.mk "Local Band" None] in
  parseArtists artists (Some "anchor link") true
  = inr [DOM.Anchor "_blank" "https://open.spotify.com/artist/4tZwfgrHOc3mvqYlEYSvVi"
           "var(--header-secondary)" ["anchor"; "link"] (Some "Daft Punk")
           [DOM.Text "Daft Punk"];
         DOM.Text ", "; DOM.Text "Local Band"]
  /\ String.concat "" (map DOM.textContent
                         [DOM.Anchor "_blank"
                            "https://open.spotify.com/artist/4tZwfgrHOc3mvqYlEYSvVi"
                            "var(--header-secondary)" ["anchor"; "link"] (Some "Daft Punk")
                            [DOM.Text "Daft Punk"];
                          DOM.Text ", "; DOM.Text "Local Band"])
     = String.concat ", " ["Daft Punk"; "Local Band"].
Proof.
  intros artists.
  assert (Hrun : parseArtists artists (Some "anchor link") true
                 = inr [DOM.Anchor "_blank"
                          "https://open.spotify.com/artist/4tZwfgrHOc3mvqYlEYSvVi"
                          "var(--header-secondary)" ["anchor"; "link"] (Some "Daft Punk")
                          [DOM.Text "Daft Punk"];
                        DOM.Text ", "; DOM.Text "Local Band"])
    by (vm_compute; reflexivity).
  split; [exact Hrun|].
  by destruct (parseArtists_lists_the_artists artists (Some "anchor link") true _ Hrun)
    as (_ & _ & Htext).
Defined.

(** X27: [parseArtists] throws exactly when an artist has an id, so that an
    anchor is made, and the class string, split at single spaces, has a
    token that [classList.add] refuses: an empty token, which an empty
    string, a leading or trailing space and two spaces in a row all give
    ([SyntaxError]), or a token with other whitespace
    ([InvalidCharacterError]).  Without class string, or for artists
    without ids, it returns. *)
Theorem parseArtists_throws_on_an_invalid_class (artists : list Artist.t)
    (classes : option string) (tooltip : bool) (e : DOM.Exception) :
  parseArtists artists classes tooltip = inl e
  <-> (exists artist, artist ∈ artists /\ is_Some (Artist.id artist))
      /\ DOM.validate (match classes with Some c => split_spaces c | None => [] end) = Some e.
Proof.
  pose proof (push_artists_outcome classes tooltip artists) as Houtcome.
  assert (Hanchor : existsb (fun artist => bool_decide (is_Some (Artist.id artist))) artists
                    = true
                    <-> exists artist, artist ∈ artists /\ is_Some (Artist.id artist)).
  { rewrite existsb_exists. split.
    - intros (artist & Hin & Hid). exists artist. split; [by apply list_elem_of_In|].
      by apply bool_decide_eq_true in Hid.
    - intros (artist & Hin & Hid). exists artist. split; [by apply list_elem_of_In|].
      by apply bool_decide_eq_true. }
  unfold parseArtists.
  destruct (DOM.validate _) as [e'|].
  - destruct (existsb _ artists) eqn:Hany.
    + rewrite Houtcome. split.
      * intros [= <-]. split; [by apply Hanchor | done].
      * by intros [_ [= <-]].
    + destruct Houtcome as [res ->]. split.
      * by destruct res.
      * intros [Hartist _]. apply Hanchor in Hartist. discriminate Hartist.
  - destruct Houtcome as [res ->]. split; [by destruct res | by intros [_ ?]].
Qed.

Lemma parseArtists_throws_on_an_invalid_class_witness :
  let artists := [Artist.mk "Local Band" None;
                  Artist.mk "Daft Punk" (Some "4tZwfgrHOc3mvqYlEYSvVi")] in
  parseArtists artists (Some "") false = inl DOM.SyntaxError
  /\ parseArtists artists (Some "anchor  link") false = inl DOM.SyntaxError
  /\ parseArtists artists (Some "anchor ") false = inl DOM.SyntaxError.
Proof.
  intros artists.
  assert (Hanchor : exists artist, artist ∈ artists /\ is_Some (Artist.id artist)).
  { eexists. split; [apply list_elem_of_further, list_elem_of_here | by eexists]. }
  split; [|split]; apply parseArtists_throws_on_an_invalid_class; by split.
Defined.
